(** * Flowgrind command line argument parser (src/fg_argparser.c)

    A shallow embedding of the POSIX/GNU style argument parser of
    Flowgrind, together with the properties its specification states.

    Conventions of the embedding.
    - A C string is the Rocq [string] of its characters before the
      terminating NUL; a nullable [char *] is an [option string].  Reading
      the terminator ([s[i] == 0]) is reading past the end of the [string].
    - [int] values that are compared but never overflow (option codes,
      record indices given by the caller) are in [Z]; sizes and cursors
      that only count upwards from 0 ([data_size], [error_size], [argind],
      [len]) are in [nat].
    - [malloc], [realloc] and [asprintf] are taken to succeed, so the
      [return 0] paths of the source (allocation failure) do not appear and
      every function returns the updated parser state.
    - A pointer to an element of the option table is modelled by the
      descriptor it points to: the table belongs to the caller and is not
      modified.  The address of [non_option], an automatic variable of
      [ap_init], is a pointer of its own ([option_ptr]): what is read
      through it depends on whether [ap_init] is still running.
    - Reads are checked: the accessors and [ap_is_used] return [None]
      when they read outside the record array or through the address of
      an object that has ceased to exist. *)

From Stdlib Require Import ZArith List String Ascii Bool Arith Lia.
From Stdlib Require Import Permutation.
Import ListNotations.

Local Open Scope Z_scope.

(** ** Data model (fg_argparser.h) *)

(** Modelled from the spec: the header fg_argparser.h, which declares the
    types used by fg_argparser.c, is not among the sources.  The spec names
    the argument requirements [no_argument] and [required_argument]
    ([ap_no], [ap_yes] in the code); the code tests [has_arg != ap_no] and
    [has_arg == ap_yes] separately, so the enumeration has a further value,
    here [ap_maybe]. *)
Inductive ap_Has_arg : Type :=
| ap_no
| ap_yes
| ap_maybe.

Definition has_arg_eqb (a b : ap_Has_arg) : bool :=
  match a, b with
  | ap_no, ap_no | ap_yes, ap_yes | ap_maybe, ap_maybe => true
  | _, _ => false
  end.

(** Modelled from the spec: [struct _ap_Option] (declared in the missing
    header).  The fields [code], [name] and [has_arg] are those the code
    reads; the initialiser [{0, 0, ap_no, 0}] of [non_option] shows a fourth
    field, which the parser never reads, here [tag]. *)
Record ap_Option : Type := mk_ap_Option {
  code : Z;
  name : option string;
  has_arg : ap_Has_arg;
  tag : Z
}.

(** [const struct _ap_Option non_option = {0, 0, ap_no, 0}], the operand
    descriptor: an automatic variable of [ap_init]. *)
Definition non_option : ap_Option :=
  {| code := 0; name := None; has_arg := ap_no; tag := 0 |}.

(** A pointer to an option descriptor, as [push_back_record] receives it
    and a record keeps it: [&options[index]], the address of an element of
    the caller's table, held by the descriptor found there, or
    [&non_option], the address of the automatic variable of [ap_init]. *)
Inductive option_ptr : Type :=
| table_entry (o : ap_Option)
| non_option_address.

(** The descriptor read through a pointer while [ap_init] runs. *)
Definition during_init (p : option_ptr) : ap_Option :=
  match p with
  | table_entry o => o
  | non_option_address => non_option
  end.

(** The descriptor read through a pointer once [ap_init] has returned:
    [non_option] has ceased to exist with the call, and a read through its
    address is not defined, [None]. *)
Definition after_init (p : option_ptr) : option ap_Option :=
  match p with
  | table_entry o => Some o
  | non_option_address => None
  end.

(** Modelled from the spec: [struct _ap_Record] (declared in the missing
    header), with the three fields [push_back_record] fills in.  The field
    [option] of the source is [rec_option] here. *)
Record ap_Record : Type := mk_ap_Record {
  rec_option : option_ptr;
  opt_string : string;
  argument : string
}.

(** Modelled from the spec: [struct _arg_parser] (declared in the missing
    header).  [data] and [error] are nullable pointers to the record array
    and to the error text. *)
Record arg_parser : Type := mk_arg_parser {
  data : option (list ap_Record);
  error : option string;
  data_size : nat;
  error_size : nat
}.

(** ** C string primitives *)

(** The value of a character as [unsigned char]. *)
Definition char_code (c : ascii) : Z := Z.of_N (N_of_ascii c).

(** [s[0]], which is 0 at the terminator. *)
Definition first_char (s : string) : Z :=
  match s with
  | EmptyString => 0
  | String c _ => char_code c
  end.

(** [&s[n]] for [n <= strlen(s)]. *)
Fixpoint advance (n : nat) (s : string) : string :=
  match n, s with
  | O, _ => s
  | S n', String _ s' => advance n' s'
  | S _, EmptyString => EmptyString
  end.

(** [s[n]]. *)
Definition char_at (s : string) (n : nat) : Z := first_char (advance n s).

Definition strlen (s : string) : nat := String.length s.

(** [strncmp(s1, s2, n)]: difference of the first characters that differ
    among the first [n], 0 when there is none. *)
Fixpoint strncmp (s1 s2 : string) (n : nat) {struct n} : Z :=
  match n with
  | O => 0
  | S n' =>
    match s1, s2 with
    | EmptyString, _ => 0 - first_char s2
    | String c1 _, EmptyString => char_code c1
    | String c1 r1, String c2 r2 =>
      if char_code c1 =? char_code c2 then strncmp r1 r2 n'
      else char_code c1 - char_code c2
    end
  end.

(** The one-character C string holding the byte [c] (empty when [c] is the
    terminator), as printed by ["%c"] and as built in [code_str]. *)
Definition char_str (c : Z) : string :=
  if c mod 256 =? 0 then EmptyString
  else String (ascii_of_N (Z.to_N (c mod 256))) EmptyString.

(** The buffer behind a nullable array pointer. *)
Definition buffer {A : Type} (p : option (list A)) : list A :=
  match p with
  | Some l => l
  | None => []
  end.

(** The text behind a nullable string pointer. *)
Definition text (p : option string) : string :=
  match p with
  | Some s => s
  | None => EmptyString
  end.

(** ** Record store and error accumulator *)

(** [push_back_record]: the array grows by one slot, the slot at
    [data_size] receives the record, [data_size] is incremented.  The
    record keeps the pointer [o]; the spelling is printed from the
    descriptor read through it, [ap_init] running. *)
Definition push_back_record (ap : arg_parser) (o : option_ptr)
    (long_opt : bool) (arg : string) : arg_parser :=
  let p := {| rec_option := o;
              opt_string := if long_opt
                            then ("--" ++ text (name (during_init o)))%string
                            else ("-" ++ char_str (code (during_init o)))%string;
              argument := arg |} in
  {| data := Some (buffer (data ap) ++ [p]);
     error := error ap;
     data_size := S (data_size ap);
     error_size := error_size ap |}.

(** [add_error]: the message is copied at offset [error_size] of the error
    text, [error_size] grows by its length. *)
Definition add_error (ap : arg_parser) (msg : string) : arg_parser :=
  {| data := data ap;
     error := Some (text (error ap) ++ msg)%string;
     data_size := data_size ap;
     error_size := (error_size ap + strlen msg)%nat |}.

(** The blocks handed to [free]. *)
Inductive block : Type :=
| Argument_of (i : nat)
| Opt_string_of (i : nat)
| Data_array
| Error_text.

(** [free_data]: the strings of the records below [data_size] are freed,
    then the array when the pointer is not null; the result gives the
    blocks freed, in order, and the new state. *)
Definition free_data (ap : arg_parser) : list block * arg_parser :=
  (flat_map (fun i => [Argument_of i; Opt_string_of i]) (seq 0 (data_size ap))
   ++ match data ap with
      | Some _ => [Data_array]
      | None => []
      end,
   {| data := None;
      error := error ap;
      data_size := 0;
      error_size := error_size ap |}).

(** ** Long options *)

(** The entry that ends a table: its code is 0, and the scans stop at it
    without reading its other fields. *)
Definition table_end : ap_Option :=
  {| code := 0; name := None; has_arg := ap_no; tag := 0 |}.

(** [options[i]]; the end of the list stands for the entry that ends the
    table. *)
Definition option_at (options : list ap_Option) (i : Z) : ap_Option :=
  nth (Z.to_nat i) options table_end.

(** [for (len = 0; opt[len + 2] && opt[len + 2] != '='; ++len) ;] on
    [s = &opt[2]]: the length of the name slice. *)
Fixpoint name_slice_length (s : string) : nat :=
  match s with
  | EmptyString => O
  | String c r => if char_code c =? char_code "="%char then O
                  else S (name_slice_length r)
  end.

(** The state of the table scan of [parse_long_option]. *)
Record long_match : Type := mk_long_match {
  lm_index : Z;
  lm_exact : bool;
  lm_ambig : bool
}.

(** The loop [for (i = 0; options[i].code != 0; ++i)] of
    [parse_long_option], from entry [i] on; [rest] is [&options[i]], the end
    of the list stands for the terminating entry of a table. *)
Fixpoint long_scan (options rest : list ap_Option) (slice : string)
    (len : nat) (i : Z) (index : Z) (ambig : bool) : long_match :=
  match rest with
  | [] => mk_long_match index false ambig
  | o :: rest' =>
    if code o =? 0 then mk_long_match index false ambig
    else
      match name o with
      | Some n =>
        if strncmp n slice len =? 0 then
          if (strlen n =? len)%nat then mk_long_match i true ambig
          else if index <? 0 then
            long_scan options rest' slice len (i + 1) i ambig
          else if negb (code (option_at options index) =? code o)
                  || negb (has_arg_eqb (has_arg (option_at options index))
                                       (has_arg o)) then
            long_scan options rest' slice len (i + 1) index true
          else long_scan options rest' slice len (i + 1) index ambig
        else long_scan options rest' slice len (i + 1) index ambig
      | None => long_scan options rest' slice len (i + 1) index ambig
      end
  end.

(** Three calls of [add_error] in a row. *)
Definition add_error3 (ap : arg_parser) (m1 m2 m3 : string) : arg_parser :=
  add_error (add_error (add_error ap m1) m2) m3.

(** Whether a nullable argument is null or empty: [!arg || !arg[0]]. *)
Definition no_argument (arg : option string) : bool :=
  match arg with
  | None => true
  | Some a => first_char a =? 0
  end.

(** The part of [parse_long_option] after the table scan has selected
    [options[index]], with [*argindp] already incremented. *)
Definition long_argument (ap : arg_parser) (opt : string)
    (arg : option string) (o : ap_Option) (len : nat) (argind : nat)
    : arg_parser * nat :=
  if negb (char_at opt (len + 2) =? 0) then
    if has_arg_eqb (has_arg o) ap_no then
      (add_error3 ap "option '--" (text (name o))
                  "' doesn't allow an argument", argind)
    else if has_arg_eqb (has_arg o) ap_yes
            && (char_at opt (len + 3) =? 0) then
      (add_error3 ap "option '--" (text (name o))
                  "' requires an argument", argind)
    else (push_back_record ap (table_entry o) true (advance (len + 3) opt), argind)
  else if has_arg_eqb (has_arg o) ap_yes then
    if no_argument arg then
      (add_error3 ap "option '--" (text (name o))
                  "' requires an argument", argind)
    else (push_back_record ap (table_entry o) true (text arg), S argind)
  else (push_back_record ap (table_entry o) true EmptyString, argind).

(** [parse_long_option]: the new parser state and the new value of
    [*argindp]. *)
Definition parse_long_option (ap : arg_parser) (opt : string)
    (arg : option string) (options : list ap_Option) (argind : nat)
    : arg_parser * nat :=
  let len := name_slice_length (advance 2 opt) in
  let m := long_scan options options (advance 2 opt) len 0 (-1) false in
  if lm_ambig m && negb (lm_exact m) then
    (add_error3 ap "option '" opt "' is ambiguous", argind)
  else if lm_index m <? 0 then
    (add_error3 ap "unrecognized option '" opt "'", argind)
  else
    long_argument ap opt arg (option_at options (lm_index m)) len (S argind).

(** ** Short options *)

(** The loop [for (i = 0; options[i].code; ++i)] of [parse_short_option]
    from entry [i] on: the index of the first entry with the code [c], -1
    when the table has none. *)
Fixpoint short_scan (rest : list ap_Option) (c : Z) (i : Z) : Z :=
  match rest with
  | [] => -1
  | o :: rest' =>
    if code o =? 0 then -1
    else if c =? code o then i
    else short_scan rest' c (i + 1)
  end.

(** The loop [while (cind > 0)] of [parse_short_option], entered with
    [s = &opt[cind]]. *)
Fixpoint short_cluster (ap : arg_parser) (s : string) (arg : option string)
    (options : list ap_Option) (argind : nat) : arg_parser * nat :=
  match s with
  | EmptyString =>
    (* code == 0: no lookup, index stays -1 *)
    (add_error (add_error ap "invalid option -- ") (char_str 0), argind)
  | String ch s' =>
    let c := char_code ch in
    let index := if c =? 0 then -1 else short_scan options c 0 in
    if index <? 0 then
      (add_error (add_error ap "invalid option -- ") (char_str c), argind)
    else
      let o := option_at options index in
      (* opt[++cind] == 0 : ++*argindp, cind = 0 *)
      let finished := first_char s' =? 0 in
      let argind := if finished then S argind else argind in
      if negb (has_arg_eqb (has_arg o) ap_no) && negb finished then
        (push_back_record ap (table_entry o) false s', S argind)
      else if has_arg_eqb (has_arg o) ap_yes then
        if no_argument arg then
          (add_error (add_error ap "option requires an argument -- ")
                     (char_str c), argind)
        else (push_back_record ap (table_entry o) false (text arg), S argind)
      else
        let ap' := push_back_record ap (table_entry o) false EmptyString in
        if finished then (ap', argind)
        else short_cluster ap' s' arg options argind
  end.

(** [parse_short_option]: the cluster is scanned from [cind = 1]. *)
Definition parse_short_option (ap : arg_parser) (opt : string)
    (arg : option string) (options : list ap_Option) (argind : nat)
    : arg_parser * nat :=
  short_cluster ap (advance 1 opt) arg options argind.

(** ** The driver *)

(** The parser state set up at the start of [ap_init] (and left by
    [ap_free]). *)
Definition ap_empty : arg_parser :=
  {| data := None; error := None; data_size := 0; error_size := 0 |}.

(** [ch1 == '-' && ch2]: the token is an option. *)
Definition is_option_token (tok : string) : bool :=
  (first_char tok =? char_code "-"%char) && negb (char_at tok 1 =? 0).

(** The loop [while (argind < argc)] of [ap_init] over
    [argv[0 .. argc-1]], with the values of [ap], [argind] and [non_options]
    at the exit of the loop.  [fuel] bounds the number of iterations; the
    result is [None] when the bound is reached before the loop exits. *)
Fixpoint ap_scan (fuel : nat) (argv : list string) (options : list ap_Option)
    (in_order : bool) (ap : arg_parser) (argind : nat)
    (non_options : list string)
    : option (arg_parser * nat * list string) :=
  if (List.length argv <=? argind)%nat then Some (ap, argind, non_options)
  else
    match fuel with
    | O => None
    | S fuel' =>
      (* if (ap->error) break; after an option has been parsed *)
      let after_option := fun r : arg_parser * nat =>
        match error (fst r) with
        | Some _ => Some (fst r, snd r, non_options)
        | None =>
          ap_scan fuel' argv options in_order (fst r) (snd r) non_options
        end in
      let opt := nth argind argv EmptyString in
      if is_option_token opt then
        let arg := nth_error argv (S argind) in
        if char_at opt 1 =? char_code "-"%char then
          if char_at opt 2 =? 0 then
            (* we found "--" *)
            Some (ap, S argind, non_options)
          else after_option (parse_long_option ap opt arg options argind)
        else after_option (parse_short_option ap opt arg options argind)
      else if negb in_order then
        ap_scan fuel' argv options in_order ap (S argind)
                (non_options ++ [opt])
      else
        ap_scan fuel' argv options in_order
                (push_back_record ap non_option_address false opt) (S argind)
                non_options
    end.

(** The operands appended after the loop: one record each, in order. *)
Definition push_operands (ap : arg_parser) (toks : list string) : arg_parser :=
  fold_left (fun a tok => push_back_record a non_option_address false tok) toks ap.

(** [ap_init]; [argv] is the array of its [argc] strings, [options] the
    table up to its terminating entry (both not null).  The result is the
    parser state left in [*ap]. *)
Definition ap_init (argv : list string) (options : list ap_Option)
    (in_order : bool) : option arg_parser :=
  if (List.length argv <? 2)%nat then Some ap_empty
  else
    match ap_scan (List.length argv) argv options in_order ap_empty 1 [] with
    | None => None
    | Some (ap, argind, non_options) =>
      match error ap with
      | Some _ => Some (snd (free_data ap))
      | None =>
        Some (push_operands (push_operands ap non_options)
                            (skipn argind argv))
      end
    end.

(** [ap_free]: the blocks freed and the state left. *)
Definition ap_free (ap : arg_parser) : list block * arg_parser :=
  let '(freed, ap1) := free_data ap in
  (freed ++ match error ap1 with
            | Some _ => [Error_text]
            | None => []
            end,
   {| data := data ap1;
      error := None;
      data_size := data_size ap1;
      error_size := 0 |}).

(** ** Accessors *)

Definition ap_error (ap : arg_parser) : option string := error ap.

Definition ap_arguments (ap : arg_parser) : Z := Z.of_nat (data_size ap).

(** The read [ap->data[i]]: [None] when it falls outside the record
    array. *)
Definition data_at (ap : arg_parser) (i : nat) : option ap_Record :=
  match data ap with
  | Some l => nth_error l i
  | None => None
  end.

(** The accessors are called by the owner of the parser, [ap_init] having
    returned.  They give [None] when they read outside the record array
    or, for [ap_code], which reads [option->code], through the address of
    [non_option]; they give the value they return otherwise. *)
Definition ap_code (ap : arg_parser) (i : Z) : option Z :=
  if (0 <=? i) && (i <? ap_arguments ap) then
    match data_at ap (Z.to_nat i) with
    | Some r => option_map code (after_init (rec_option r))
    | None => None
    end
  else Some 0.

Definition ap_argument (ap : arg_parser) (i : Z) : option string :=
  if (0 <=? i) && (i <? ap_arguments ap) then
    option_map argument (data_at ap (Z.to_nat i))
  else Some EmptyString.

Definition ap_opt_string (ap : arg_parser) (i : Z) : option string :=
  if (0 <=? i) && (i <? ap_arguments ap) then
    option_map opt_string (data_at ap (Z.to_nat i))
  else Some EmptyString.

(** [ap_option] returns a nullable pointer to a descriptor: the pointer
    the record keeps, without reading through it. *)
Definition ap_option (ap : arg_parser) (i : Z) : option (option option_ptr) :=
  if (0 <=? i) && (i <? ap_arguments ap) then
    option_map (fun r => Some (rec_option r)) (data_at ap (Z.to_nat i))
  else Some None.

(** The loop of [ap_is_used] from record [i] on, with [n] records left
    below [data_size]; each turn reads [data[i].option->code]. *)
Fixpoint is_used_from (ap : arg_parser) (c : Z) (i n : nat) : option bool :=
  match n with
  | O => Some false
  | S n' =>
    match data_at ap i with
    | None => None
    | Some r =>
      match after_init (rec_option r) with
      | None => None
      | Some o =>
        if code o =? c then Some true
        else is_used_from ap c (S i) n'
      end
    end
  end.

Definition ap_is_used (ap : arg_parser) (c : Z) : option bool :=
  is_used_from ap c 0 (data_size ap).

(** ** Parser instances *)

(** The parser states a caller can hold: the result of [ap_init], and what
    [ap_free] leaves of such a state. *)
Inductive instance : arg_parser -> Prop :=
| instance_init : forall argv options in_order ap,
    ap_init argv options in_order = Some ap -> instance ap
| instance_free : forall ap,
    instance ap -> instance (snd (ap_free ap)).

(** The sizes agree with the buffers: [data] is null exactly when there is
    no record, and otherwise holds [data_size] records; [error_size] is the
    length of the error text. *)
Definition well_formed (ap : arg_parser) : Prop :=
  match data ap with
  | Some l => data_size ap = List.length l /\ l <> []
  | None => data_size ap = O
  end
  /\ error_size ap = strlen (text (error ap)).

(** The records of a parser state. *)
Definition records (ap : arg_parser) : list ap_Record := buffer (data ap).

(** ** Records and effects of the resolvers *)

(** The operand record made of a token. *)
Definition operand_record (tok : string) : ap_Record :=
  {| rec_option := non_option_address; opt_string := "-"; argument := tok |}.

(** The record of a short option. *)
Definition short_record (o : ap_Option) (arg : string) : ap_Record :=
  {| rec_option := table_entry o;
     opt_string := ("-" ++ char_str (code o))%string;
     argument := arg |}.

(** The record of a long option. *)
Definition long_record (o : ap_Option) (arg : string) : ap_Record :=
  {| rec_option := table_entry o;
     opt_string := ("--" ++ text (name o))%string;
     argument := arg |}.

(** A record is an operand record when its pointer is the address of
    [non_option]. *)
Definition is_operand (r : ap_Record) : bool :=
  match rec_option r with
  | non_option_address => true
  | table_entry _ => false
  end.

Definition is_option_record (r : ap_Record) : bool := negb (is_operand r).

(** A record written in the slot at [data_size]. *)
Definition store (ap : arg_parser) (r : ap_Record) : arg_parser :=
  {| data := Some (buffer (data ap) ++ [r]);
     error := error ap;
     data_size := S (data_size ap);
     error_size := error_size ap |}.

Definition store_all (ap : arg_parser) (recs : list ap_Record) : arg_parser :=
  fold_left store recs ap.

(** What a resolver does to the parser state: records appended, then
    possibly one diagnostic. *)
Definition apply_effect (ap : arg_parser) (recs : list ap_Record)
    (msg : option string) : arg_parser :=
  match msg with
  | None => store_all ap recs
  | Some m => add_error (store_all ap recs) m
  end.

(** The diagnostics of the parser. *)
Inductive diagnostic : string -> Prop :=
| diag_ambiguous : forall opt,
    diagnostic ("option '" ++ opt ++ "' is ambiguous")
| diag_unrecognized : forall opt,
    diagnostic ("unrecognized option '" ++ opt ++ "'")
| diag_unexpected_argument : forall n,
    diagnostic ("option '--" ++ n ++ "' doesn't allow an argument")
| diag_missing_argument_long : forall n,
    diagnostic ("option '--" ++ n ++ "' requires an argument")
| diag_invalid_option : forall c,
    diagnostic ("invalid option -- " ++ char_str c)
| diag_missing_argument_short : forall c,
    diagnostic ("option requires an argument -- " ++ char_str c).

(** ** Tables and tokens *)

(** The entries of a table: those before the first entry with code 0. *)
Fixpoint table_entries (options : list ap_Option) : list ap_Option :=
  match options with
  | [] => []
  | o :: rest => if code o =? 0 then [] else o :: table_entries rest
  end.

(** A record is an occurrence of an entry with the code [c]. *)
Definition has_code (c : Z) (r : ap_Record) : bool :=
  match rec_option r with
  | table_entry o => code o =? c
  | non_option_address => false
  end.

(** The loop of [ap_is_used] on the records [l], all of them inside the
    array. *)
Fixpoint used_in (c : Z) (l : list ap_Record) : option bool :=
  match l with
  | [] => Some false
  | r :: l' =>
    match after_init (rec_option r) with
    | None => None
    | Some o => if code o =? c then Some true else used_in c l'
    end
  end.

(** A record is an occurrence of an entry of the table, of which it keeps
    the address. *)
Definition entry_record (options : list ap_Option) (r : ap_Record) : Prop :=
  exists o, rec_option r = table_entry o /\ In o (table_entries options).

(** What holds of the effect of a resolver called with the cursor at [k]:
    the records are occurrences of table entries; without diagnostic at
    least one record is made and the cursor moves on by one or two tokens,
    with a diagnostic the cursor moves by at most one. *)
Definition effect_ok (options : list ap_Option) (k : nat)
    (recs : list ap_Record) (msg : option string) (n : nat) : Prop :=
  Forall (entry_record options) recs /\
  match msg with
  | None => recs <> [] /\ (k < n <= k + 2)%nat
  | Some m => diagnostic m /\ (k <= n <= k + 1)%nat
  end.

(** A Rocq [string] stands for a C string when it does not hold the
    character 0. *)
Fixpoint c_string (s : string) : Prop :=
  match s with
  | EmptyString => True
  | String c r => char_code c <> 0 /\ c_string r
  end.

(** The character [c] occurs in [s]. *)
Fixpoint occurs (c : ascii) (s : string) : Prop :=
  match s with
  | EmptyString => False
  | String d r => d = c \/ occurs c r
  end.

(** The name slice of a long option token: the characters after ["--"] up
    to the first ['='] or the end. *)
Definition name_slice (opt : string) : string :=
  substring 0 (name_slice_length (advance 2 opt)) (advance 2 opt).

(** The test of [parse_long_option] on a table entry: it has a name whose
    first [len] characters are those of the slice. *)
Definition long_candidate (slice : string) (len : nat) (o : ap_Option) : bool :=
  match name o with
  | Some n => strncmp n slice len =? 0
  | None => false
  end.

(** The length test of [parse_long_option] on a table entry. *)
Definition long_exact (len : nat) (o : ap_Option) : bool :=
  match name o with
  | Some n => (strlen n =? len)%nat
  | None => false
  end.

(** The entry is not named exactly as the slice. *)
Definition not_exact (s : string) (len : nat) (e : ap_Option) : Prop :=
  name e <> Some (substring 0 len s).

(** Two descriptors differ in [code] or [has_arg]. *)
Definition differ (o1 o2 : ap_Option) : bool :=
  negb (code o1 =? code o2) || negb (has_arg_eqb (has_arg o1) (has_arg o2)).

(** [o] is the entry a short option character selects: the first entry of
    the table whose code is that of the character. *)
Definition short_entry (options : list ap_Option) (ch : ascii)
    (o : ap_Option) : Prop :=
  char_code ch <> 0 /\ code o = char_code ch /\
  exists pre post,
    options = (pre ++ o :: post)%list /\
    Forall (fun e => code e <> 0 /\ code e <> char_code ch) pre.

(** The characters of a cluster of short options, followed by [rest]. *)
Definition cluster (chars : list ascii) (rest : string) : string :=
  fold_right String rest chars.

(** ** The driver loop as a transition system *)

(** The token is the terminator ["--"]: an option token with ['-'] as second
    character and nothing after. *)
Definition is_terminator (tok : string) : bool :=
  is_option_token tok && (char_at tok 1 =? char_code "-")
  && (char_at tok 2 =? 0).

(** The resolver the driver calls on an option token that is not the
    terminator. *)
Definition dispatch (ap : arg_parser) (tok : string) (arg : option string)
    (options : list ap_Option) (k : nat) : arg_parser * nat :=
  if char_at tok 1 =? char_code "-"
  then parse_long_option ap tok arg options k
  else parse_short_option ap tok arg options k.

(** The states of the loop of [ap_init] on [argv]: [ap], [argind] and
    [non_options] each time the loop condition is evaluated.  The loop
    starts at index 1, passes an operand, and passes an option token when
    its resolver sets no error. *)
Inductive scan_reaches (argv : list string) (options : list ap_Option)
    (in_order : bool) : arg_parser -> nat -> list string -> Prop :=
| reaches_start :
    (2 <= List.length argv)%nat ->
    scan_reaches argv options in_order ap_empty 1 []
| reaches_operand : forall ap k no tok,
    scan_reaches argv options in_order ap k no ->
    nth_error argv k = Some tok ->
    is_option_token tok = false ->
    scan_reaches argv options in_order
      (if in_order then push_back_record ap non_option_address false tok else ap)
      (S k)
      (if in_order then no else (no ++ [tok])%list)
| reaches_option : forall ap k no tok ap' k',
    scan_reaches argv options in_order ap k no ->
    nth_error argv k = Some tok ->
    is_option_token tok = true ->
    is_terminator tok = false ->
    dispatch ap tok (nth_error argv (S k)) options k = (ap', k') ->
    error ap' = None ->
    scan_reaches argv options in_order ap' k' no.

(** The values of [ap], [argind] and [non_options] when the loop of
    [ap_init] is left: at the end of [argv], at the terminator, or at the
    option token whose resolver set the error. *)
Inductive scan_exit (argv : list string) (options : list ap_Option)
    (in_order : bool) : arg_parser -> nat -> list string -> Prop :=
| exit_end : forall ap k no,
    scan_reaches argv options in_order ap k no ->
    (List.length argv <= k)%nat ->
    scan_exit argv options in_order ap k no
| exit_terminator : forall ap k no tok,
    scan_reaches argv options in_order ap k no ->
    nth_error argv k = Some tok ->
    is_terminator tok = true ->
    scan_exit argv options in_order ap (S k) no
| exit_error : forall ap k no tok ap' k',
    scan_reaches argv options in_order ap k no ->
    nth_error argv k = Some tok ->
    is_option_token tok = true ->
    is_terminator tok = false ->
    dispatch ap tok (nth_error argv (S k)) options k = (ap', k') ->
    error ap' <> None ->
    scan_exit argv options in_order ap' k' no.

(** The end of [ap_init], after the loop. *)
Definition ap_finish (argv : list string) (ap : arg_parser) (argind : nat)
    (non_options : list string) : arg_parser :=
  match error ap with
  | Some _ => snd (free_data ap)
  | None => push_operands (push_operands ap non_options) (skipn argind argv)
  end.

(** ** Terminal states *)

(** A record of a successful parse of [argv]: the operand record of one of
    its tokens, or an occurrence of an entry of the table. *)
Definition record_of (argv : list string) (options : list ap_Option)
    (r : ap_Record) : Prop :=
  (exists tok, In tok (tl argv) /\ r = operand_record tok)
  \/ entry_record options r.

(** The terminal state without error: the sizes agree with the record
    store, each record is an operand or an occurrence of a table entry, and
    when operands are deferred the occurrences come first and the operands
    after them. *)
Definition parsed_state (argv : list string) (options : list ap_Option)
    (in_order : bool) (ap : arg_parser) : Prop :=
  error ap = None
  /\ data_size ap = List.length (records ap)
  /\ Forall (record_of argv options) (records ap)
  /\ (in_order = false ->
      exists occurrences operands,
        records ap = (occurrences ++ map operand_record operands)%list
        /\ Forall (entry_record options)
                  occurrences
        /\ Forall (fun tok => In tok (tl argv)) operands).

(** The terminal state with an error: one diagnostic and no record, set by
    the resolver of the option token at some index [k], whatever follows
    the token after that one. *)
Definition failed_state (argv : list string) (options : list ap_Option)
    (in_order : bool) (ap : arg_parser) : Prop :=
  exists m,
    error ap = Some m /\ diagnostic m
    /\ error_size ap = strlen m
    /\ data ap = None /\ data_size ap = O /\ records ap = []
    /\ exists k ap1 no1 tok,
         scan_reaches argv options in_order ap1 k no1
         /\ nth_error argv k = Some tok
         /\ is_option_token tok = true
         /\ error (fst (dispatch ap1 tok (nth_error argv (S k)) options k))
            = Some m
         /\ forall argv',
              firstn (k + 2) argv' = firstn (k + 2) argv ->
              ap_init argv' options in_order = Some ap.

(** ** Resolved occurrences *)

(** The argument recorded with an occurrence of [o] fits its declaration:
    none for an option without argument, not empty for an option that
    requires one. *)
Definition arg_fits (o : ap_Option) (a : string) : Prop :=
  (has_arg o = ap_no -> a = EmptyString)
  /\ (has_arg o = ap_yes -> first_char a <> 0).

(** A record made by a resolver: the occurrence of a named table entry
    spelled as a long option, or of the entry a character selects spelled
    as a short option, with an argument that fits. *)
Inductive resolved (options : list ap_Option) : ap_Record -> Prop :=
| resolved_long : forall o n a,
    In o (table_entries options) -> name o = Some n -> arg_fits o a ->
    resolved options (long_record o a)
| resolved_short : forall ch o a,
    short_entry options ch o -> arg_fits o a ->
    resolved options (short_record o a).

(** A record of a parse of [argv]: an operand of [argv] or a resolved
    occurrence. *)
Definition parsed_record (argv : list string) (options : list ap_Option)
    (r : ap_Record) : Prop :=
  (exists tok, In tok (tl argv) /\ r = operand_record tok)
  \/ resolved options r.

(** The messages of a list, one after the other. *)
Definition join (msgs : list string) : string :=
  fold_right String.append EmptyString msgs.

(** ** Accounting for the tokens of a parse *)

(** What the driver makes of the tokens it scans: an operand, or an option
    token with the records its resolver makes, together with the next
    token when the resolver takes it as the argument. *)
Inductive item : Type :=
| operand_item (tok : string)
| option_item (tok : string) (arg : option string) (recs : list ap_Record).

(** The tokens an item consumes. *)
Definition item_tokens (it : item) : list string :=
  match it with
  | operand_item tok => [tok]
  | option_item tok (Some a) _ => [tok; a]
  | option_item tok None _ => [tok]
  end.

(** The records an item makes. *)
Definition item_records (it : item) : list ap_Record :=
  match it with
  | operand_item tok => [operand_record tok]
  | option_item _ _ recs => recs
  end.

Definition is_operand_item (it : item) : bool :=
  match it with
  | operand_item _ => true
  | option_item _ _ _ => false
  end.

Definition is_option_item (it : item) : bool := negb (is_operand_item it).

(** The records of an accepted option token [tok]; [arg] is the next token
    when it is consumed as the argument.  A long option makes one record,
    of a named entry of the table whose name starts with the name slice:
    when the token goes on after the slice (with ['=']) the entry takes an
    argument and gets what follows the ['=']; when it does not, the entry
    gets the next token if it requires an argument, and nothing
    otherwise.  A cluster of short options makes one record for each of
    its options: the leading ones are declared without argument; the last
    one takes the rest of the token when that is not empty and it takes an
    argument, the next token when it requires an argument, and nothing
    otherwise. *)
Inductive occurrence (options : list ap_Option)
    : string -> option string -> list ap_Record -> Prop :=
| occurrence_long : forall tok arg o n a,
    char_at tok 1 = char_code "-" ->
    In o (table_entries options) -> name o = Some n ->
    (c_string (name_slice tok) -> prefix (name_slice tok) n = true) ->
    (char_at tok (strlen (name_slice tok) + 2) <> 0
     /\ has_arg o <> ap_no
     /\ (has_arg o = ap_yes -> first_char a <> 0)
     /\ a = advance (strlen (name_slice tok) + 3) tok /\ arg = None)
    \/ (char_at tok (strlen (name_slice tok) + 2) = 0
        /\ has_arg o = ap_yes /\ first_char a <> 0 /\ arg = Some a)
    \/ (char_at tok (strlen (name_slice tok) + 2) = 0
        /\ has_arg o <> ap_yes /\ a = EmptyString /\ arg = None) ->
    occurrence options tok arg [long_record o a]
| occurrence_short : forall tok arg fl ch o rest a,
    char_at tok 1 <> char_code "-" ->
    advance 1 tok = cluster (map fst fl) (String ch rest) ->
    Forall (fun p => short_entry options (fst p) (snd p)
                     /\ has_arg (snd p) = ap_no) fl ->
    short_entry options ch o ->
    (first_char rest <> 0 /\ has_arg o <> ap_no /\ a = rest /\ arg = None)
    \/ (first_char rest = 0 /\ has_arg o = ap_yes
        /\ first_char a <> 0 /\ arg = Some a)
    \/ (first_char rest = 0 /\ has_arg o <> ap_yes
        /\ a = EmptyString /\ arg = None) ->
    occurrence options tok arg
      (map (fun p => short_record (snd p) EmptyString) fl
       ++ [short_record o a])%list.

(** An item of a parse: an operand is a token that is not an option token;
    an option token, not the terminator, comes with its occurrence. *)
Definition item_ok (options : list ap_Option) (it : item) : Prop :=
  match it with
  | operand_item tok => is_option_token tok = false
  | option_item tok arg recs =>
    is_option_token tok = true /\ is_terminator tok = false
    /\ occurrence options tok arg recs
  end.

(** The records of the items and of the tokens [rest] left after the
    terminator, as the mode arranges them: in the order of the command
    line, or the records of the options first and the operands behind. *)
Definition arranged (in_order : bool) (items : list item)
    (rest : list string) : list ap_Record :=
  if in_order then
    (flat_map item_records items ++ map operand_record rest)%list
  else
    (flat_map item_records (filter is_option_item items)
     ++ flat_map item_records (filter is_operand_item items)
     ++ map operand_record rest)%list.

(** The records of [ap] account for every token after [argv[0]]: the
    tokens split into items, followed by nothing or by the terminator and
    the tokens after it, and the records are those of the items and of the
    tokens after the terminator, one operand record each. *)
Definition accounted (argv : list string) (options : list ap_Option)
    (in_order : bool) (ap : arg_parser) : Prop :=
  exists items tail,
    tl argv = (flat_map item_tokens items ++ tail)%list
    /\ Forall (item_ok options) items
    /\ match tail with
       | [] => True
       | t :: _ => is_terminator t = true
       end
    /\ records ap = arranged in_order items (tl tail).

(** ** Report columns (flowgrind.h) *)

Module Columns.

(** [enum column_id]; [COL_STATUS] exists in a build with [DEBUG]. *)
Inductive column_id : Type :=
| COL_FLOW_ID
| COL_BEGIN | COL_END
| COL_THROUGH
| COL_TRANSAC
| COL_BLOCK_REQU | COL_BLOCK_RESP
| COL_RTT_MIN | COL_RTT_AVG | COL_RTT_MAX
| COL_IAT_MIN | COL_IAT_AVG | COL_IAT_MAX
| COL_DLY_MIN | COL_DLY_AVG | COL_DLY_MAX
| COL_TCP_CWND | COL_TCP_SSTH | COL_TCP_UACK | COL_TCP_SACK | COL_TCP_LOST
| COL_TCP_RETR | COL_TCP_TRET | COL_TCP_FACK | COL_TCP_REOR | COL_TCP_BKOF
| COL_TCP_RTT | COL_TCP_RTTVAR | COL_TCP_RTO | COL_TCP_CA_STATE
| COL_SMSS | COL_PMTU
| COL_STATUS.

(** The value of an enumerator: [COL_FLOW_ID = 0] and one more for each
    enumerator after it. *)
Definition column_value (id : column_id) : nat :=
  match id with
  | COL_FLOW_ID => 0
  | COL_BEGIN => 1 | COL_END => 2
  | COL_THROUGH => 3
  | COL_TRANSAC => 4
  | COL_BLOCK_REQU => 5 | COL_BLOCK_RESP => 6
  | COL_RTT_MIN => 7 | COL_RTT_AVG => 8 | COL_RTT_MAX => 9
  | COL_IAT_MIN => 10 | COL_IAT_AVG => 11 | COL_IAT_MAX => 12
  | COL_DLY_MIN => 13 | COL_DLY_AVG => 14 | COL_DLY_MAX => 15
  | COL_TCP_CWND => 16 | COL_TCP_SSTH => 17 | COL_TCP_UACK => 18
  | COL_TCP_SACK => 19 | COL_TCP_LOST => 20 | COL_TCP_RETR => 21
  | COL_TCP_TRET => 22 | COL_TCP_FACK => 23 | COL_TCP_REOR => 24
  | COL_TCP_BKOF => 25 | COL_TCP_RTT => 26 | COL_TCP_RTTVAR => 27
  | COL_TCP_RTO => 28 | COL_TCP_CA_STATE => 29
  | COL_SMSS => 30 | COL_PMTU => 31
  | COL_STATUS => 32
  end.

(** [struct _column_header], [struct _column_state], [struct _column]. *)
Record column_header : Type := mk_column_header {
  name : string;
  unit : string
}.

Record column_state : Type := mk_column_state {
  visible : bool;
  oversized : N;
  last_width : N
}.

Record column : Type := mk_column {
  type : column_id;
  header : column_header;
  state : column_state
}.

(** The column with [state.visible] assigned. *)
Definition with_visible (c : column) (v : bool) : column :=
  {| type := type c;
     header := header c;
     state := {| visible := v;
                 oversized := oversized (state c);
                 last_width := last_width (state c) |} |}.

(** The assignment [column_info[i].state.visible = v] on the global array
    [column_info], whose definition is not among the sources and is taken
    as a list; [None] when [i] is outside the array. *)
Fixpoint set_visible (column_info : list column) (i : nat) (v : bool)
    : option (list column) :=
  match column_info, i with
  | [], _ => None
  | c :: rest, O => Some (with_visible c v :: rest)
  | c :: rest, S i' => option_map (cons c) (set_visible rest i' v)
  end.

(** [show_columns]: [args] are the variable arguments, [numargs] of which
    are read; the result is the array [column_info] left, [None] when
    [va_arg] runs past the arguments or a column is outside the array. *)
Fixpoint show_columns (numargs : nat) (args : list column_id)
    (column_info : list column) : option (list column) :=
  match numargs with
  | O => Some column_info
  | S numargs' =>
    match args with
    | [] => None
    | col_id :: args' =>
      match set_visible column_info (column_value col_id) true with
      | None => None
      | Some column_info' => show_columns numargs' args' column_info'
      end
    end
  end.

(** [hide_columns], likewise. *)
Fixpoint hide_columns (numargs : nat) (args : list column_id)
    (column_info : list column) : option (list column) :=
  match numargs with
  | O => Some column_info
  | S numargs' =>
    match args with
    | [] => None
    | col_id :: args' =>
      match set_visible column_info (column_value col_id) false with
      | None => None
      | Some column_info' => hide_columns numargs' args' column_info'
      end
    end
  end.

(** The column [c] at index [j] after the columns [ids] have been given
    the visibility [v]. *)
Definition marked (v : bool) (ids : list column_id) (j : nat) (c : column)
    : column :=
  if existsb (fun id => Nat.eqb (column_value id) j) ids
  then with_visible c v else c.

End Columns.

(** ** Example tables *)

Definition flag (c : ascii) (n : option string) : ap_Option :=
  {| code := char_code c; name := n; has_arg := ap_no; tag := 0 |}.

Definition valued (c : ascii) (n : option string) : ap_Option :=
  {| code := char_code c; name := n; has_arg := ap_yes; tag := 0 |}.

Definition foo_table : list ap_Option :=
  [flag "f" (Some "foo"); flag "F" (Some "foobar")]%string.

Definition verbose_table : list ap_Option :=
  [flag "v" (Some "verbose"); flag "V" (Some "version")]%string.

Definition abc_table : list ap_Option :=
  [flag "a" None; flag "b" None; valued "c" (Some "foo")]%string.

(** The state [ap_init] leaves for [-v file] on [verbose_table]. *)
Definition verbose_file : arg_parser :=
  store_all ap_empty
    [short_record (flag "v" (Some "verbose"%string)) EmptyString;
     operand_record "file"].

(** The first four columns of a report, the interval hidden. *)
Definition first_columns : list Columns.column :=
  [Columns.mk_column Columns.COL_FLOW_ID
     (Columns.mk_column_header "#" "ID")
     (Columns.mk_column_state true 0 0);
   Columns.mk_column Columns.COL_BEGIN
     (Columns.mk_column_header "begin" "[s]")
     (Columns.mk_column_state false 0 0);
   Columns.mk_column Columns.COL_END
     (Columns.mk_column_header "end" "[s]")
     (Columns.mk_column_state false 2 7);
   Columns.mk_column Columns.COL_THROUGH
     (Columns.mk_column_header "through" "[Mbit/s]")
     (Columns.mk_column_state true 0 0)]%string.

(** ** Basic facts on the record store and the error accumulator *)

Lemma strlen_append : forall s t : string,
  strlen (s ++ t) = (strlen s + strlen t)%nat.
Proof.
  unfold strlen. induction s as [|c s IH]; intros t; simpl.
  - reflexivity.
  - now rewrite IH.
Qed.

Lemma push_back_record_well_formed : forall ap o l a,
  well_formed ap -> well_formed (push_back_record ap o l a).
Proof.
  intros ap o l a [Hd He]. split; simpl; [|exact He].
  split.
  - rewrite length_app. simpl. destruct (data ap) as [b|]; simpl in *.
    + destruct Hd as [Hd _]. lia.
    + lia.
  - intros H. apply app_eq_nil in H. destruct H as [_ H]. discriminate H.
Qed.

Lemma add_error_well_formed : forall ap msg,
  well_formed ap -> well_formed (add_error ap msg).
Proof.
  intros ap msg [Hd He]. split; simpl; [exact Hd|].
  rewrite strlen_append. now rewrite He.
Qed.

Lemma ap_empty_well_formed : well_formed ap_empty.
Proof. split; reflexivity. Qed.

Lemma records_push_back_record : forall ap o l a,
  records (push_back_record ap (table_entry o) l a)
  = records ap ++ [if l then long_record o a else short_record o a].
Proof. intros ap o [|] a; reflexivity. Qed.

Lemma records_push_operand : forall ap tok,
  records (push_back_record ap non_option_address false tok)
  = records ap ++ [operand_record tok].
Proof. reflexivity. Qed.

Lemma push_operands_app : forall toks1 toks2 ap,
  push_operands ap (toks1 ++ toks2)
  = push_operands (push_operands ap toks1) toks2.
Proof. intros. unfold push_operands. now rewrite fold_left_app. Qed.

Lemma data_size_records : forall ap,
  well_formed ap -> data_size ap = List.length (records ap).
Proof.
  intros ap [Hd _]. unfold records. destruct (data ap); simpl.
  - tauto.
  - exact Hd.
Qed.

(** ** C strings *)

Lemma char_code_inj : forall c1 c2, char_code c1 = char_code c2 -> c1 = c2.
Proof.
  unfold char_code. intros c1 c2 H. apply N2Z.inj in H.
  rewrite <- (ascii_N_embedding c1), <- (ascii_N_embedding c2).
  now rewrite H.
Qed.

Lemma char_code_eqb : forall c1 c2,
  (char_code c1 =? char_code c2) = true <-> c1 = c2.
Proof.
  intros c1 c2. rewrite Z.eqb_eq. split.
  - apply char_code_inj.
  - now intros ->.
Qed.

Lemma char_code_range : forall c, 0 <= char_code c < 256.
Proof.
  intros c. unfold char_code. pose proof (N_ascii_bounded c) as H.
  lia.
Qed.

Lemma name_slice_length_le : forall s,
  (name_slice_length s <= strlen s)%nat.
Proof.
  unfold strlen. induction s as [|c s IH]; simpl; [lia|].
  destruct (char_code c =? _); simpl; lia.
Qed.

Lemma substring_0_0 : forall s, substring 0 0 s = EmptyString.
Proof. destruct s; reflexivity. Qed.

(** [strncmp] finds no difference and the lengths agree exactly when the
    name is the slice. *)
Lemma strncmp_exact : forall len n s,
  (len <= strlen s)%nat ->
  (strncmp n s len = 0 /\ strlen n = len) <-> n = substring 0 len s.
Proof.
  unfold strlen. induction len as [|len IH]; intros n s Hle.
  - rewrite substring_0_0. simpl. split.
    + intros [_ H]. destruct n; [reflexivity|discriminate H].
    + intros ->. split; reflexivity.
  - destruct s as [|c2 r2]; simpl in Hle; [lia|].
    destruct n as [|c1 r1]; simpl.
    + split; [intros [_ H]; discriminate H|intros H; discriminate H].
    + destruct (char_code c1 =? char_code c2) eqn:E.
      * apply char_code_eqb in E. subst c2.
        specialize (IH r1 r2 ltac:(lia)). split.
        -- intros [H1 H2]. f_equal. apply IH. split; [exact H1|lia].
        -- intros H. injection H as H. apply IH in H. destruct H as [H1 H2].
           split; [exact H1|lia].
      * split.
        -- intros [H _]. apply Z.eqb_neq in E. lia.
        -- intros H. injection H as H _. subst c2.
           rewrite Z.eqb_refl in E. discriminate E.
Qed.

(** A name that starts with the slice passes the [strncmp] test. *)
Lemma strncmp_prefix : forall len n s,
  (len <= strlen s)%nat ->
  prefix (substring 0 len s) n = true -> strncmp n s len = 0.
Proof.
  unfold strlen. induction len as [|len IH]; intros n s Hle H.
  - reflexivity.
  - destruct s as [|c2 r2]; simpl in Hle; [lia|].
    destruct n as [|c1 r1]; simpl in H; [discriminate H|].
    destruct (ascii_dec c2 c1) as [->|]; [|discriminate H].
    simpl. rewrite Z.eqb_refl. apply IH; [lia|exact H].
Qed.

(** Conversely for a slice without the character 0. *)
Lemma strncmp_prefix_inv : forall len n s,
  (len <= strlen s)%nat -> c_string (substring 0 len s) ->
  strncmp n s len = 0 -> prefix (substring 0 len s) n = true.
Proof.
  unfold strlen. induction len as [|len IH]; intros n s Hle Hc H.
  - rewrite substring_0_0. destruct n; reflexivity.
  - destruct s as [|c2 r2]; simpl in Hle; [lia|].
    simpl in Hc. destruct Hc as [Hc2 Hc]. simpl in H.
    destruct n as [|c1 r1].
    + simpl in H. lia.
    + simpl. destruct (char_code c1 =? char_code c2) eqn:E.
      * apply char_code_eqb in E. subst c2.
        destruct (ascii_dec c1 c1) as [_|N]; [|now elim N].
        apply IH; [lia|exact Hc|exact H].
      * apply Z.eqb_neq in E. lia.
Qed.

Lemma strlen_substring : forall len s,
  (len <= strlen s)%nat -> strlen (substring 0 len s) = len.
Proof.
  unfold strlen. induction len as [|len IH]; intros s H.
  - now rewrite substring_0_0.
  - destruct s as [|c s]; simpl in *; [lia|]. rewrite IH; [reflexivity|lia].
Qed.

Lemma strlen_name_slice : forall opt,
  strlen (name_slice opt) = name_slice_length (advance 2 opt).
Proof.
  intros opt. unfold name_slice. apply strlen_substring.
  apply name_slice_length_le.
Qed.

(** ** The table scan of long options *)

Lemma long_scan_cons : forall options h rest s len i index ambig,
  code h <> 0 ->
  long_scan options (h :: rest) s len i index ambig
  = if long_candidate s len h then
      if long_exact len h then mk_long_match i true ambig
      else if index <? 0 then long_scan options rest s len (i + 1) i ambig
      else long_scan options rest s len (i + 1) index
                     (ambig || differ (option_at options index) h)
    else long_scan options rest s len (i + 1) index ambig.
Proof.
  intros options h rest s len i index ambig Hc.
  simpl. apply Z.eqb_neq in Hc. rewrite Hc.
  unfold long_candidate, long_exact, differ.
  destruct (name h) as [n|]; [|reflexivity].
  destruct (strncmp n s len =? 0); [|reflexivity].
  destruct (strlen n =? len)%nat; [reflexivity|].
  destruct (index <? 0); [reflexivity|].
  destruct (negb _ || negb _); [now rewrite orb_true_r|now rewrite orb_false_r].
Qed.

Lemma long_scan_sentinel : forall options h rest s len i index ambig,
  code h = 0 ->
  long_scan options (h :: rest) s len i index ambig
  = mk_long_match index false ambig.
Proof.
  intros. simpl. now rewrite (proj2 (Z.eqb_eq _ _) H).
Qed.

(** An entry passes both tests exactly when its name is the slice. *)
Lemma long_exact_iff : forall s len o,
  (len <= strlen s)%nat ->
  long_candidate s len o && long_exact len o = true
  <-> name o = Some (substring 0 len s).
Proof.
  intros s len o Hle. unfold long_candidate, long_exact.
  destruct (name o) as [n|].
  - rewrite andb_true_iff, Z.eqb_eq, Nat.eqb_eq, (strncmp_exact len n s Hle).
    split; [now intros ->|now intros [= ->]].
  - split; discriminate.
Qed.

Lemma long_candidate_prefix : forall s len o n,
  (len <= strlen s)%nat -> name o = Some n ->
  prefix (substring 0 len s) n = true -> long_candidate s len o = true.
Proof.
  intros s len o n Hle Hn Hp. unfold long_candidate. rewrite Hn.
  apply Z.eqb_eq. now apply strncmp_prefix.
Qed.

Lemma long_candidate_prefix_inv : forall s len o,
  (len <= strlen s)%nat -> c_string (substring 0 len s) ->
  long_candidate s len o = true ->
  exists n, name o = Some n /\ prefix (substring 0 len s) n = true.
Proof.
  intros s len o Hle Hc H. unfold long_candidate in H.
  destruct (name o) as [n|]; [|discriminate H].
  exists n. split; [reflexivity|].
  apply Z.eqb_eq in H. now apply strncmp_prefix_inv.
Qed.

Lemma option_at_app : forall pre o post,
  option_at (pre ++ o :: post) (Z.of_nat (List.length pre)) = o.
Proof.
  intros. unfold option_at. rewrite Nat2Z.id.
  rewrite app_nth2, Nat.sub_diag; [reflexivity|lia].
Qed.

Lemma table_entries_app : forall pre rest,
  Forall (fun e => code e <> 0) pre ->
  table_entries (pre ++ rest) = pre ++ table_entries rest.
Proof.
  induction pre as [|h pre IH]; intros rest H; simpl; [reflexivity|].
  inversion H as [|? ? Hh Hp]; subst.
  apply Z.eqb_neq in Hh. rewrite Hh. now rewrite IH.
Qed.

(** Entries that are not the slice are passed over, whatever abbreviation
    candidates and ambiguity they leave behind. *)
Lemma long_scan_skip : forall pre options rest s len i index ambig,
  (len <= strlen s)%nat ->
  Forall (fun e => code e <> 0 /\ name e <> Some (substring 0 len s)) pre ->
  exists index' ambig',
    long_scan options (pre ++ rest) s len i index ambig
    = long_scan options rest s len (i + Z.of_nat (List.length pre))
                index' ambig'.
Proof.
  induction pre as [|h pre IH]; intros options rest s len i index ambig Hle H.
  - exists index, ambig. simpl. now rewrite Z.add_0_r.
  - inversion H as [|? ? [Hc Hn] Hp]; subst.
    rewrite <- app_comm_cons, long_scan_cons by exact Hc.
    replace (i + Z.of_nat (List.length (h :: pre)))
      with (i + 1 + Z.of_nat (List.length pre)) by (simpl List.length; lia).
    destruct (long_candidate s len h) eqn:Ec.
    + destruct (long_exact len h) eqn:Ee.
      * exfalso. apply Hn. apply long_exact_iff; [exact Hle|].
        now rewrite Ec, Ee.
      * destruct (index <? 0); now apply IH.
    + now apply IH.
Qed.

(** Entries that do not carry the slice as a prefix leave the scan state as
    it is. *)
Lemma long_scan_skip_others : forall pre options rest s len i index ambig,
  Forall (fun e => code e <> 0 /\ long_candidate s len e = false) pre ->
  long_scan options (pre ++ rest) s len i index ambig
  = long_scan options rest s len (i + Z.of_nat (List.length pre)) index ambig.
Proof.
  induction pre as [|h pre IH]; intros options rest s len i index ambig H.
  - simpl. now rewrite Z.add_0_r.
  - inversion H as [|? ? [Hc Hn] Hp]; subst.
    rewrite <- app_comm_cons, long_scan_cons by exact Hc.
    rewrite Hn, IH by exact Hp. f_equal. simpl List.length. lia.
Qed.

Lemma differ_refl : forall o, differ o o = false.
Proof.
  intros o. unfold differ. rewrite Z.eqb_refl.
  now destruct (has_arg o).
Qed.

Lemma has_arg_eqb_eq : forall a b, has_arg_eqb a b = true <-> a = b.
Proof. intros [| |] [| |]; simpl; split; congruence. Qed.

Lemma differ_true : forall o1 o2,
  differ o1 o2 = true <-> code o1 <> code o2 \/ has_arg o1 <> has_arg o2.
Proof.
  intros o1 o2. unfold differ.
  rewrite orb_true_iff, !negb_true_iff, Z.eqb_neq.
  rewrite <- not_true_iff_false, has_arg_eqb_eq. tauto.
Qed.

Lemma differ_false : forall o1 o2,
  differ o1 o2 = false <-> code o1 = code o2 /\ has_arg o1 = has_arg o2.
Proof.
  intros o1 o2. unfold differ.
  rewrite orb_false_iff, !negb_false_iff, Z.eqb_eq, has_arg_eqb_eq. tauto.
Qed.

Lemma differ_triangle : forall f o1 o2,
  differ o1 o2 = true -> differ f o1 = true \/ differ f o2 = true.
Proof.
  intros f o1 o2 H.
  destruct (differ f o1) eqn:E1; [now left|].
  destruct (differ f o2) eqn:E2; [now right|].
  apply differ_false in E1, E2. apply differ_true in H.
  destruct E1 as [E1 E1'], E2 as [E2 E2']. exfalso.
  destruct H as [H|H]; apply H; congruence.
Qed.

Section Long_scan_without_exact_match.

Variable options : list ap_Option.
Variable s : string.
Variable len : nat.
Hypothesis len_le : (len <= strlen s)%nat.

Lemma not_exact_tests : forall e,
  not_exact s len e -> long_candidate s len e = true -> long_exact len e = false.
Proof.
  intros e Hn Hc. destruct (long_exact len e) eqn:E; [|reflexivity].
  exfalso. apply Hn. apply long_exact_iff; [exact len_le|].
  now rewrite Hc, E.
Qed.

(** Once a first candidate is selected, a later candidate that differs
    from it raises the ambiguity flag, which is never lowered. *)
Lemma long_scan_ambiguous_from : forall rest i index ambig,
  0 <= index ->
  Forall (not_exact s len) (table_entries rest) ->
  (ambig = true \/
   exists o, In o (table_entries rest) /\ long_candidate s len o = true /\
             differ (option_at options index) o = true) ->
  long_scan options rest s len i index ambig
  = mk_long_match index false true.
Proof.
  induction rest as [|h rest IH]; intros i index ambig Hi Hne Ha.
  - simpl in *. destruct Ha as [->|[o [[] _]]]. reflexivity.
  - destruct (Z.eq_dec (code h) 0) as [Hz|Hz].
    + rewrite long_scan_sentinel by exact Hz.
      simpl in Ha. rewrite (proj2 (Z.eqb_eq _ _) Hz) in Ha.
      destruct Ha as [->|[o [[] _]]]. reflexivity.
    + rewrite long_scan_cons by exact Hz.
      simpl in Hne, Ha. rewrite (proj2 (Z.eqb_neq _ _) Hz) in Hne, Ha.
      apply Forall_cons_iff in Hne. destruct Hne as [Hh Hr].
      replace (index <? 0) with false by (symmetry; apply Z.ltb_ge; lia).
      destruct (long_candidate s len h) eqn:Ec.
      * rewrite (not_exact_tests h Hh Ec).
        apply IH; [exact Hi|exact Hr|].
        destruct Ha as [->|[o [[<-|Ho] [Hoc Hod]]]].
        -- now left.
        -- left. rewrite Hod. apply orb_true_r.
        -- right. now exists o.
      * apply IH; [exact Hi|exact Hr|].
        destruct Ha as [->|[o [[<-|Ho] [Hoc Hod]]]].
        -- now left.
        -- congruence.
        -- right. now exists o.
Qed.

(** Two candidates that differ from each other make the scan ambiguous. *)
Lemma long_scan_ambiguous : forall rest pre ambig o1 o2,
  options = pre ++ rest ->
  Forall (not_exact s len) (table_entries rest) ->
  In o1 (table_entries rest) -> long_candidate s len o1 = true ->
  In o2 (table_entries rest) -> long_candidate s len o2 = true ->
  differ o1 o2 = true ->
  exists index,
    0 <= index /\
    long_scan options rest s len (Z.of_nat (List.length pre)) (-1) ambig
    = mk_long_match index false true.
Proof.
  induction rest as [|h rest IH]; intros pre ambig o1 o2 Ho Hne H1 C1 H2 C2 Hd.
  - destruct H1.
  - destruct (Z.eq_dec (code h) 0) as [Hz|Hz].
    + simpl in H1. rewrite (proj2 (Z.eqb_eq _ _) Hz) in H1. destruct H1.
    + rewrite long_scan_cons by exact Hz.
      simpl in Hne, H1, H2. rewrite (proj2 (Z.eqb_neq _ _) Hz) in Hne, H1, H2.
      apply Forall_cons_iff in Hne. destruct Hne as [Hh Hr].
      destruct (long_candidate s len h) eqn:Ec.
      * rewrite (not_exact_tests h Hh Ec).
        change (-1 <? 0) with true. cbv iota.
        exists (Z.of_nat (List.length pre)). split; [lia|].
        apply long_scan_ambiguous_from; [lia|exact Hr|].
        assert (Hat : option_at options (Z.of_nat (List.length pre)) = h)
          by (rewrite Ho; apply option_at_app).
        right. rewrite Hat.
        destruct (differ_triangle h o1 o2 Hd) as [D|D].
        -- exists o1. destruct H1 as [<-|H1];
             [now rewrite differ_refl in D|auto].
        -- exists o2. destruct H2 as [<-|H2];
             [now rewrite differ_refl in D|auto].
      * destruct H1 as [<-|H1]; [congruence|].
        destruct H2 as [<-|H2]; [congruence|].
        replace (Z.of_nat (List.length pre) + 1)
          with (Z.of_nat (List.length (pre ++ [h])))
          by (rewrite length_app; simpl; lia).
        apply (IH (pre ++ [h]) ambig o1 o2); auto.
        rewrite Ho. now rewrite <- app_assoc.
Qed.

(** Candidates that agree with the selected one leave the flag down. *)
Lemma long_scan_agreeing : forall rest i index,
  0 <= index ->
  Forall (not_exact s len) (table_entries rest) ->
  (forall o, In o (table_entries rest) -> long_candidate s len o = true ->
             differ (option_at options index) o = false) ->
  long_scan options rest s len i index false
  = mk_long_match index false false.
Proof.
  induction rest as [|h rest IH]; intros i index Hi Hne Ha.
  - reflexivity.
  - destruct (Z.eq_dec (code h) 0) as [Hz|Hz].
    + now rewrite long_scan_sentinel.
    + rewrite long_scan_cons by exact Hz.
      simpl in Hne, Ha. rewrite (proj2 (Z.eqb_neq _ _) Hz) in Hne, Ha.
      apply Forall_cons_iff in Hne. destruct Hne as [Hh Hr].
      replace (index <? 0) with false by (symmetry; apply Z.ltb_ge; lia).
      destruct (long_candidate s len h) eqn:Ec.
      * rewrite (not_exact_tests h Hh Ec).
        rewrite (Ha h (or_introl eq_refl) Ec). simpl.
        apply IH; [exact Hi|exact Hr|]. intros o Ho. apply Ha. now right.
      * apply IH; [exact Hi|exact Hr|]. intros o Ho. apply Ha. now right.
Qed.

End Long_scan_without_exact_match.

(** ** Long option resolution *)

(** The scan stops at the first entry named as the slice, with the exact
    flag set, whatever the entries before it have left. *)
Lemma long_scan_exact : forall pre o post opt,
  Forall (fun e => code e <> 0 /\ name e <> Some (name_slice opt)) pre ->
  code o <> 0 ->
  name o = Some (name_slice opt) ->
  exists ambig,
    long_scan (pre ++ o :: post) (pre ++ o :: post) (advance 2 opt)
              (name_slice_length (advance 2 opt)) 0 (-1) false
    = mk_long_match (Z.of_nat (List.length pre)) true ambig.
Proof.
  intros pre o post opt Hpre Hc Hn.
  set (len := name_slice_length (advance 2 opt)).
  assert (Hle : (len <= strlen (advance 2 opt))%nat)
    by apply name_slice_length_le.
  destruct (long_scan_skip pre (pre ++ o :: post) (o :: post) (advance 2 opt)
              len 0 (-1) false Hle Hpre) as [index' [ambig' Hs]].
  exists ambig'. rewrite Hs, long_scan_cons by exact Hc.
  assert (E : long_candidate (advance 2 opt) len o && long_exact len o = true)
    by (apply long_exact_iff; [exact Hle|exact Hn]).
  apply andb_true_iff in E. destruct E as [-> ->]. reflexivity.
Qed.

(** The token is then handled as an occurrence of that entry. *)
Lemma parse_long_option_exact : forall pre o post opt,
  Forall (fun e => code e <> 0 /\ name e <> Some (name_slice opt)) pre ->
  code o <> 0 ->
  name o = Some (name_slice opt) ->
  forall ap arg argind,
    parse_long_option ap opt arg (pre ++ o :: post) argind
    = long_argument ap opt arg o (strlen (name_slice opt)) (S argind).
Proof.
  intros pre o post opt Hpre Hc Hn ap arg argind.
  destruct (long_scan_exact pre o post opt Hpre Hc Hn) as [ambig Hs].
  unfold parse_long_option. rewrite Hs. simpl.
  rewrite andb_false_r.
  replace (Z.of_nat (List.length pre) <? 0) with false
    by (symmetry; apply Z.ltb_ge; lia).
  now rewrite option_at_app, strlen_name_slice.
Qed.

(** C1.  Exact match always wins.  When the name slice of a long option
    token equals the name of a table entry, [parse_long_option] selects the
    first such entry and leaves the scan there with the exact flag set: the
    entries before it (abbreviation candidates or not, ambiguous or not) and
    the entries after it have no influence, and the token is handled as an
    occurrence of that entry. *)
Theorem exact_match_wins : forall pre o post opt,
  Forall (fun e => code e <> 0 /\ name e <> Some (name_slice opt)) pre ->
  code o <> 0 ->
  name o = Some (name_slice opt) ->
  let options := pre ++ o :: post in
  let len := name_slice_length (advance 2 opt) in
  let m := long_scan options options (advance 2 opt) len 0 (-1) false in
  lm_index m = Z.of_nat (List.length pre)
  /\ lm_exact m = true
  /\ option_at options (lm_index m) = o
  /\ forall ap arg argind,
       parse_long_option ap opt arg options argind
       = long_argument ap opt arg o (strlen (name_slice opt)) (S argind).
Proof.
  intros pre o post opt Hpre Hc Hn options len m.
  destruct (long_scan_exact pre o post opt Hpre Hc Hn) as [ambig Hs].
  assert (Hm : m = mk_long_match (Z.of_nat (List.length pre)) true ambig)
    by exact Hs.
  rewrite Hm. simpl.
  split; [reflexivity|]. split; [reflexivity|].
  split; [apply option_at_app|].
  now apply parse_long_option_exact.
Qed.

(** C2.  Ambiguous abbreviations.  When no table entry is named exactly as
    the name slice: two entries that carry the slice as a prefix of their
    names and differ in [code] or [has_arg] make [parse_long_option] fail
    with the diagnostic [option '<token>' is ambiguous], nothing recorded
    and the cursor left in place; and when every entry carrying the slice
    as a prefix agrees in [code] and [has_arg] with the first of them, the
    token is handled as an occurrence of that first entry. *)
Theorem ambiguous_abbreviation : forall options opt,
  Forall (fun e => name e <> Some (name_slice opt)) (table_entries options) ->
  (forall o1 o2 n1 n2,
     In o1 (table_entries options) -> name o1 = Some n1 ->
     prefix (name_slice opt) n1 = true ->
     In o2 (table_entries options) -> name o2 = Some n2 ->
     prefix (name_slice opt) n2 = true ->
     code o1 <> code o2 \/ has_arg o1 <> has_arg o2 ->
     forall ap arg argind,
       parse_long_option ap opt arg options argind
       = (add_error3 ap "option '" opt "' is ambiguous", argind))
  /\
  (c_string (name_slice opt) ->
   forall pre f post n,
     options = pre ++ f :: post ->
     Forall (fun e => code e <> 0 /\
                      forall m, name e = Some m ->
                                prefix (name_slice opt) m = false) pre ->
     code f <> 0 -> name f = Some n -> prefix (name_slice opt) n = true ->
     (forall o m, In o (table_entries options) -> name o = Some m ->
                  prefix (name_slice opt) m = true ->
                  code o = code f /\ has_arg o = has_arg f) ->
     forall ap arg argind,
       parse_long_option ap opt arg options argind
       = long_argument ap opt arg f (strlen (name_slice opt)) (S argind)).
Proof.
  intros options opt. pose proof (strlen_name_slice opt) as Hsl.
  unfold name_slice in *.
  set (s := advance 2 opt) in *. set (len := name_slice_length s) in *.
  assert (Hle : (len <= strlen s)%nat) by apply name_slice_length_le.
  intros Hne. split.
  - intros o1 o2 n1 n2 H1 N1 P1 H2 N2 P2 Hd ap arg argind.
    destruct (long_scan_ambiguous options s len Hle options [] false o1 o2)
      as [index [Hi Hs]]; auto.
    + now apply (long_candidate_prefix s len o1 n1).
    + now apply (long_candidate_prefix s len o2 n2).
    + now apply differ_true.
    + unfold parse_long_option. fold s len. simpl in Hs. rewrite Hs.
      reflexivity.
  - intros Hcs pre f post n Ho Hpre Hc Hn Hp Hagree ap arg argind.
    assert (Hpre' : Forall (fun e => code e <> 0 /\
                                     long_candidate s len e = false) pre).
    { eapply Forall_impl; [|exact Hpre]. intros e [He1 He2].
      split; [exact He1|].
      destruct (long_candidate s len e) eqn:E; [|reflexivity].
      destruct (long_candidate_prefix_inv s len e Hle Hcs E) as [m [Hm1 Hm2]].
      rewrite (He2 m Hm1) in Hm2. discriminate Hm2. }
    assert (Hpc : Forall (fun e => code e <> 0) pre)
      by (eapply Forall_impl; [|exact Hpre]; intros e He; apply He).
    assert (Hte : table_entries options
                  = pre ++ f :: table_entries post).
    { rewrite Ho, table_entries_app by exact Hpc. simpl.
      now rewrite (proj2 (Z.eqb_neq _ _) Hc). }
    assert (Hfc : long_candidate s len f = true)
      by now apply (long_candidate_prefix s len f n).
    assert (Hfe : long_exact len f = false).
    { apply (not_exact_tests s len Hle f); [|exact Hfc].
      rewrite Forall_forall in Hne. apply Hne. rewrite Hte.
      apply in_or_app. right. now left. }
    assert (Hat : option_at options (Z.of_nat (List.length pre)) = f)
      by (rewrite Ho; apply option_at_app).
    assert (Hs : long_scan options options s len 0 (-1) false
                 = mk_long_match (Z.of_nat (List.length pre)) false false).
    { rewrite Ho at 2. rewrite long_scan_skip_others by exact Hpre'.
      rewrite long_scan_cons by exact Hc. rewrite Hfc, Hfe.
      change (-1 <? 0) with true. cbv iota.
      apply long_scan_agreeing; [exact Hle|lia| |].
      - rewrite Hte in Hne. apply Forall_app in Hne. destruct Hne as [_ Hne].
        apply Forall_cons_iff in Hne. apply Hne.
      - intros o Hin Hoc. rewrite Hat.
        destruct (long_candidate_prefix_inv s len o Hle Hcs Hoc)
          as [m [Hm1 Hm2]].
        apply differ_false.
        destruct (Hagree o m) as [A1 A2]; auto.
        rewrite Hte. apply in_or_app. right. now right. }
    unfold parse_long_option. fold s len. rewrite Hs. simpl.
    replace (Z.of_nat (List.length pre) <? 0) with false
      by (symmetry; apply Z.ltb_ge; lia).
    now rewrite Hat, Hsl.
Qed.

Section Long_option_examples.

Local Open Scope string_scope.

Lemma exact_match_wins_witness :
  parse_long_option ap_empty "--foo" None foo_table 1
  = (push_back_record ap_empty (table_entry (flag "f" (Some "foo"))) true "", 2%nat)
  /\ parse_long_option ap_empty "--foo" None (rev foo_table) 1
     = (push_back_record ap_empty (table_entry (flag "f" (Some "foo"))) true "", 2%nat).
Proof.
  split.
  - pose proof (exact_match_wins [] (flag "f" (Some "foo"))
                  [flag "F" (Some "foobar")] "--foo") as H.
    cbv zeta in H.
    destruct H as (_ & _ & _ & H);
      [constructor|discriminate|reflexivity|].
    change foo_table
      with ([] ++ flag "f" (Some "foo") :: [flag "F" (Some "foobar")])%list.
    rewrite H. reflexivity.
  - pose proof (exact_match_wins [flag "F" (Some "foobar")]
                  (flag "f" (Some "foo")) [] "--foo") as H.
    cbv zeta in H.
    destruct H as (_ & _ & _ & H);
      [repeat constructor; discriminate|discriminate|reflexivity|].
    change (rev foo_table)
      with ([flag "F" (Some "foobar")] ++ flag "f" (Some "foo") :: [])%list.
    rewrite H. reflexivity.
Defined.

(** The examples of the specification, through [ap_init]. *)
Example foo_resolves_to_foo : forall in_order,
  ap_init ["flowgrind"; "--foo"] foo_table in_order
  = Some (store ap_empty (long_record (flag "f" (Some "foo")) ""))
  /\ ap_init ["flowgrind"; "--foo"] (rev foo_table) in_order
     = Some (store ap_empty (long_record (flag "f" (Some "foo")) "")).
Proof. intros [|]; split; reflexivity. Qed.

Example ver_is_ambiguous : forall in_order,
  ap_init ["flowgrind"; "--ver"] verbose_table in_order
  = Some (add_error ap_empty "option '--ver' is ambiguous")
  /\ ap_init ["flowgrind"; "--verb"] verbose_table in_order
     = Some (store ap_empty (long_record (flag "v" (Some "verbose")) "")).
Proof. intros [|]; split; reflexivity. Qed.

Lemma ambiguous_abbreviation_witness :
  parse_long_option ap_empty "--ver" None verbose_table 1
  = (add_error3 ap_empty "option '" "--ver" "' is ambiguous", 1%nat)
  /\ parse_long_option ap_empty "--verb" None verbose_table 1
     = (push_back_record ap_empty (table_entry (flag "v" (Some "verbose"))) true "", 2%nat).
Proof.
  split.
  - assert (H : Forall (fun e => name e <> Some (name_slice "--ver"))
                       (table_entries verbose_table))
      by (repeat constructor; discriminate).
    apply (proj1 (ambiguous_abbreviation verbose_table "--ver" H)
                 (flag "v" (Some "verbose")) (flag "V" (Some "version"))
                 "verbose" "version").
    + left. reflexivity.
    + reflexivity.
    + reflexivity.
    + right. left. reflexivity.
    + reflexivity.
    + reflexivity.
    + left. discriminate.
  - assert (H : Forall (fun e => name e <> Some (name_slice "--verb"))
                       (table_entries verbose_table))
      by (repeat constructor; discriminate).
    rewrite (proj2 (ambiguous_abbreviation verbose_table "--verb" H)
                   ltac:(repeat split; discriminate)
                   [] (flag "v" (Some "verbose")) [flag "V" (Some "version")]
                   "verbose").
    + reflexivity.
    + reflexivity.
    + constructor.
    + discriminate.
    + reflexivity.
    + reflexivity.
    + intros o m [<-|[<-|[]]] Hm Hp.
      * split; reflexivity.
      * injection Hm as <-. discriminate Hp.
Defined.

End Long_option_examples.

(** ** Short option resolution *)

Lemma short_scan_skip : forall pre rest c i,
  Forall (fun e => code e <> 0 /\ code e <> c) pre ->
  short_scan (pre ++ rest)%list c i
  = short_scan rest c (i + Z.of_nat (List.length pre)).
Proof.
  induction pre as [|h pre IH]; intros rest c i H.
  - simpl. now rewrite Z.add_0_r.
  - apply Forall_cons_iff in H. destruct H as [[H0 Hc] H].
    simpl short_scan at 1.
    rewrite (proj2 (Z.eqb_neq _ _) H0).
    replace (c =? code h) with false
      by (symmetry; apply Z.eqb_neq; congruence).
    rewrite IH by exact H. f_equal. simpl List.length. lia.
Qed.

Lemma short_scan_entry : forall options ch o,
  short_entry options ch o ->
  exists i, short_scan options (char_code ch) 0 = i /\ 0 <= i
            /\ option_at options i = o.
Proof.
  intros options ch o (Hz & Hc & pre & post & Ho & Hpre).
  exists (Z.of_nat (List.length pre)). subst options.
  rewrite short_scan_skip by exact Hpre. simpl.
  rewrite Hc, (proj2 (Z.eqb_neq _ _) Hz), Z.eqb_refl.
  repeat split; [lia|apply option_at_app].
Qed.

(** One turn of the cluster loop on a character that selects [o]. *)
Lemma short_cluster_entry : forall options ch o ap s arg argind,
  short_entry options ch o ->
  short_cluster ap (String ch s) arg options argind
  = let finished := first_char s =? 0 in
    let argind := if finished then S argind else argind in
    if negb (has_arg_eqb (has_arg o) ap_no) && negb finished then
      (push_back_record ap (table_entry o) false s, S argind)
    else if has_arg_eqb (has_arg o) ap_yes then
      if no_argument arg then
        (add_error (add_error ap "option requires an argument -- ")
                   (char_str (char_code ch)), argind)
      else (push_back_record ap (table_entry o) false (text arg), S argind)
    else
      let ap' := push_back_record ap (table_entry o) false EmptyString in
      if finished then (ap', argind)
      else short_cluster ap' s arg options argind.
Proof.
  intros options ch o ap s arg argind H.
  destruct (short_scan_entry options ch o H) as [i [Hi [Hp Hat]]].
  destruct H as [Hz _].
  simpl short_cluster at 1. rewrite (proj2 (Z.eqb_neq _ _) Hz), Hi.
  replace (i <? 0) with false by (symmetry; apply Z.ltb_ge; lia).
  rewrite Hat. reflexivity.
Qed.

Lemma push_back_record_short : forall ap o a,
  push_back_record ap (table_entry o) false a = store ap (short_record o a).
Proof. reflexivity. Qed.

Lemma store_all_app : forall r1 r2 ap,
  store_all ap (r1 ++ r2)%list = store_all (store_all ap r1) r2.
Proof. intros. unfold store_all. now rewrite fold_left_app. Qed.

(** The flags at the head of a cluster are recorded one by one, each with
    an empty argument, and the loop goes on with what follows them. *)
Lemma short_cluster_flags : forall options arg argind fl ap rest,
  Forall (fun p => short_entry options (fst p) (snd p)
                   /\ has_arg (snd p) = ap_no) fl ->
  first_char rest <> 0 ->
  short_cluster ap (cluster (map fst fl) rest) arg options argind
  = short_cluster
      (store_all ap (map (fun p => short_record (snd p) "") fl))
      rest arg options argind.
Proof.
  induction fl as [|[ch o] fl IH]; intros ap rest H Hr.
  - reflexivity.
  - apply Forall_cons_iff in H. destruct H as [[He Ha] H]. simpl in He, Ha.
    simpl cluster. rewrite (short_cluster_entry options ch o) by exact He.
    rewrite Ha. simpl has_arg_eqb. cbv zeta. simpl negb. simpl andb.
    cbv iota.
    assert (Hn : first_char (cluster (map fst fl) rest) <> 0).
    { destruct fl as [|[ch' o'] fl']; [exact Hr|].
      apply Forall_cons_iff in H. destruct H as [[[Hz _] _] _].
      exact Hz. }
    rewrite (proj2 (Z.eqb_neq _ _) Hn).
    rewrite IH by assumption. reflexivity.
Qed.

(** ** One turn of the driver loop *)

Lemma nth_of_nth_error : forall (argv : list string) k tok,
  nth_error argv k = Some tok ->
  nth k argv EmptyString = tok /\ (List.length argv <=? k)%nat = false.
Proof.
  intros argv k tok H. split.
  - now apply nth_error_nth.
  - apply Nat.leb_gt. apply nth_error_Some. congruence.
Qed.

Lemma ap_scan_done : forall fuel argv options in_order ap k no,
  (List.length argv <= k)%nat ->
  ap_scan fuel argv options in_order ap k no = Some (ap, k, no).
Proof.
  intros fuel argv options in_order ap k no H.
  apply Nat.leb_le in H. destruct fuel; simpl; now rewrite H.
Qed.

Lemma ap_scan_terminator : forall fuel argv options in_order ap k no tok,
  nth_error argv k = Some tok ->
  is_option_token tok = true ->
  char_at tok 1 = char_code "-" -> char_at tok 2 = 0 ->
  ap_scan (S fuel) argv options in_order ap k no = Some (ap, S k, no).
Proof.
  intros fuel argv options in_order ap k no tok H Ho H1 H2.
  destruct (nth_of_nth_error argv k tok H) as [Hn Hl].
  simpl. rewrite Hl, Hn, Ho, H1, H2. reflexivity.
Qed.

Lemma ap_scan_long : forall fuel argv options in_order ap k no tok,
  nth_error argv k = Some tok ->
  is_option_token tok = true ->
  char_at tok 1 = char_code "-" -> char_at tok 2 <> 0 ->
  ap_scan (S fuel) argv options in_order ap k no
  = let r := parse_long_option ap tok (nth_error argv (S k)) options k in
    match error (fst r) with
    | Some _ => Some (fst r, snd r, no)
    | None => ap_scan fuel argv options in_order (fst r) (snd r) no
    end.
Proof.
  intros fuel argv options in_order ap k no tok H Ho H1 H2.
  destruct (nth_of_nth_error argv k tok H) as [Hn Hl].
  simpl ap_scan at 1. rewrite Hl, Hn, Ho, H1.
  rewrite (proj2 (Z.eqb_neq _ _) H2). reflexivity.
Qed.

Lemma ap_scan_short : forall fuel argv options in_order ap k no tok,
  nth_error argv k = Some tok ->
  is_option_token tok = true ->
  char_at tok 1 <> char_code "-" ->
  ap_scan (S fuel) argv options in_order ap k no
  = let r := parse_short_option ap tok (nth_error argv (S k)) options k in
    match error (fst r) with
    | Some _ => Some (fst r, snd r, no)
    | None => ap_scan fuel argv options in_order (fst r) (snd r) no
    end.
Proof.
  intros fuel argv options in_order ap k no tok H Ho H1.
  destruct (nth_of_nth_error argv k tok H) as [Hn Hl].
  simpl ap_scan at 1. rewrite Hl, Hn, Ho.
  rewrite (proj2 (Z.eqb_neq _ _) H1). reflexivity.
Qed.

Lemma ap_scan_operand : forall fuel argv options in_order ap k no tok,
  nth_error argv k = Some tok ->
  is_option_token tok = false ->
  ap_scan (S fuel) argv options in_order ap k no
  = if in_order
    then ap_scan fuel argv options in_order
                 (push_back_record ap non_option_address false tok) (S k) no
    else ap_scan fuel argv options in_order ap (S k) (no ++ [tok])%list.
Proof.
  intros fuel argv options in_order ap k no tok H Ho.
  destruct (nth_of_nth_error argv k tok H) as [Hn Hl].
  simpl ap_scan at 1. rewrite Hl, Hn, Ho. now destruct in_order.
Qed.

Lemma error_store_all : forall recs ap, error (store_all ap recs) = error ap.
Proof.
  induction recs as [|r recs IH]; intros ap; simpl; [reflexivity|].
  unfold store_all in *. simpl. now rewrite IH.
Qed.

Lemma records_store_all : forall recs ap,
  records (store_all ap recs) = (records ap ++ recs)%list.
Proof.
  induction recs as [|r recs IH]; intros ap; simpl.
  - now rewrite app_nil_r.
  - unfold store_all in *. simpl. rewrite IH. unfold records at 1. simpl.
    now rewrite <- app_assoc.
Qed.

Lemma push_operands_store_all : forall toks ap,
  push_operands ap toks = store_all ap (map operand_record toks).
Proof.
  induction toks as [|t toks IH]; intros ap; [reflexivity|].
  unfold push_operands, store_all in *. simpl. now rewrite IH.
Qed.

(** C5.  Clustering with an attached argument.  In a cluster, the options
    that take no argument are recorded one by one with an empty argument
    and the loop goes on; at an option that takes an argument with
    characters left after it, the whole remainder of the cluster is
    recorded as its argument and the token is finished.  So with [a], [b]
    declared without argument and [c] with a required argument, the single
    token [-abcVALUE] yields exactly the records [(a, "")], [(b, "")],
    [(c, "VALUE")]. *)
Theorem cluster_with_attached_argument :
  (forall options fl,
     Forall (fun p => short_entry options (fst p) (snd p)
                      /\ has_arg (snd p) = ap_no) fl ->
     (forall ch o value ap arg argind,
        short_entry options ch o -> has_arg o <> ap_no ->
        first_char value <> 0 ->
        parse_short_option ap
          (String "-" (cluster (map fst fl) (String ch value)))
          arg options argind
        = (store_all ap (map (fun p => short_record (snd p) "") fl
                         ++ [short_record o value])%list,
           S argind))
     /\
     (forall ch o ap arg argind,
        short_entry options ch o -> has_arg o = ap_no ->
        parse_short_option ap
          (String "-" (cluster (map fst fl) (String ch "")))
          arg options argind
        = (store_all ap (map (fun p => short_record (snd p) "") fl
                         ++ [short_record o ""])%list,
           S argind)))
  /\
  (forall options oa ob oc prog in_order,
     short_entry options "a" oa -> has_arg oa = ap_no ->
     short_entry options "b" ob -> has_arg ob = ap_no ->
     short_entry options "c" oc -> has_arg oc = ap_yes ->
     ap_init [prog; "-abcVALUE"%string] options in_order
     = Some (store_all ap_empty
               [short_record oa ""; short_record ob "";
                short_record oc "VALUE"])).
Proof.
  assert (General : forall options fl,
     Forall (fun p => short_entry options (fst p) (snd p)
                      /\ has_arg (snd p) = ap_no) fl ->
     forall ch o value ap arg argind,
        short_entry options ch o -> has_arg o <> ap_no ->
        first_char value <> 0 ->
        parse_short_option ap
          (String "-" (cluster (map fst fl) (String ch value)))
          arg options argind
        = (store_all ap (map (fun p => short_record (snd p) "") fl
                         ++ [short_record o value])%list,
           S argind)).
  { intros options fl Hfl ch o value ap arg argind He Ha Hv.
    unfold parse_short_option. simpl advance.
    rewrite short_cluster_flags; [|exact Hfl|simpl; apply He].
    rewrite (short_cluster_entry options ch o) by exact He.
    cbv zeta. rewrite (proj2 (Z.eqb_neq _ _) Hv).
    replace (has_arg_eqb (has_arg o) ap_no) with false
      by (destruct (has_arg o); [now elim Ha|reflexivity|reflexivity]).
    simpl. rewrite push_back_record_short, store_all_app. reflexivity. }
  split.
  - intros options fl Hfl. split.
    + now apply General.
    + intros ch o ap arg argind He Ha.
      unfold parse_short_option. simpl advance.
      rewrite short_cluster_flags; [|exact Hfl|simpl; apply He].
      rewrite (short_cluster_entry options ch o) by exact He.
      rewrite Ha. simpl.
      rewrite push_back_record_short, store_all_app. reflexivity.
  - intros options oa ob oc prog in_order Ea Aa Eb Ab Ec Ac.
    unfold ap_init. simpl List.length. simpl Nat.ltb. cbv iota.
    rewrite (ap_scan_short 1 _ options in_order ap_empty 1 []
               "-abcVALUE"%string); [|reflexivity|reflexivity|discriminate].
    cbv zeta.
    assert (Hfl : Forall (fun p => short_entry options (fst p) (snd p)
                                   /\ has_arg (snd p) = ap_no)
                         [("a"%char, oa); ("b"%char, ob)]).
    { constructor; [split; assumption|].
      constructor; [split; assumption|constructor]. }
    rewrite (General options [("a"%char, oa); ("b"%char, ob)] Hfl
               "c"%char oc "VALUE"%string ap_empty _ 1%nat Ec
               ltac:(congruence) ltac:(discriminate)).
    cbn [fst snd]. rewrite error_store_all. simpl error.
    rewrite ap_scan_done by (simpl; lia).
    rewrite error_store_all. reflexivity.
Qed.

Section Short_option_examples.

Local Open Scope string_scope.

Lemma cluster_with_attached_argument_witness :
  ap_init ["flowgrind"; "-abcVALUE"] abc_table false
  = Some (store_all ap_empty
            [short_record (flag "a" None) "";
             short_record (flag "b" None) "";
             short_record (valued "c" (Some "foo")) "VALUE"]).
Proof.
  apply (proj2 cluster_with_attached_argument abc_table).
  - repeat split; try discriminate.
    exists [], [flag "b" None; valued "c" (Some "foo")].
    split; [reflexivity|constructor].
  - reflexivity.
  - repeat split; try discriminate.
    exists [flag "a" None], [valued "c" (Some "foo")].
    split; [reflexivity|repeat constructor; discriminate].
  - reflexivity.
  - repeat split; try discriminate.
    exists [flag "a" None; flag "b" None], [].
    split; [reflexivity|repeat constructor; discriminate].
  - reflexivity.
Defined.

End Short_option_examples.

(** ** Effects of the resolvers *)

Lemma append_assoc' : forall a b c : string,
  ((a ++ b) ++ c)%string = (a ++ b ++ c)%string.
Proof.
  induction a as [|x a IH]; intros b c; simpl; [reflexivity|].
  now rewrite IH.
Qed.

Lemma add_error_twice : forall ap a b,
  add_error (add_error ap a) b = add_error ap (a ++ b).
Proof.
  intros ap a b. unfold add_error. simpl.
  rewrite append_assoc', strlen_append. f_equal. lia.
Qed.

Lemma add_error3_once : forall ap a b c,
  add_error3 ap a b c = add_error ap (a ++ b ++ c).
Proof.
  intros. unfold add_error3. now rewrite !add_error_twice.
Qed.

Lemma in_table_entries_app : forall pre h rest,
  Forall (fun e => code e <> 0) pre -> code h <> 0 ->
  In h (table_entries (pre ++ h :: rest)%list).
Proof.
  intros pre h rest Hp Hh. rewrite table_entries_app by exact Hp.
  apply in_or_app. right. simpl.
  rewrite (proj2 (Z.eqb_neq _ _) Hh). now left.
Qed.

Lemma long_scan_index : forall rest pre options s len index ambig,
  options = (pre ++ rest)%list ->
  Forall (fun e => code e <> 0) pre ->
  index < 0 \/ In (option_at options index) (table_entries options) ->
  let m := long_scan options rest s len (Z.of_nat (List.length pre))
                     index ambig in
  lm_index m < 0 \/ In (option_at options (lm_index m)) (table_entries options).
Proof.
  induction rest as [|h rest IH]; intros pre options s len index ambig Ho Hp Hi.
  - exact Hi.
  - destruct (Z.eq_dec (code h) 0) as [Hz|Hz].
    + cbv zeta. now rewrite long_scan_sentinel.
    + cbv zeta. rewrite long_scan_cons by exact Hz.
      assert (Hat : In (option_at options (Z.of_nat (List.length pre)))
                       (table_entries options)).
      { rewrite Ho, option_at_app. now apply in_table_entries_app. }
      assert (Ho' : options = ((pre ++ [h]) ++ rest)%list)
        by now rewrite <- app_assoc.
      assert (Hp' : Forall (fun e => code e <> 0) (pre ++ [h])%list)
        by (apply Forall_app; split; [exact Hp|now constructor]).
      assert (El : Z.of_nat (List.length pre) + 1
                   = Z.of_nat (List.length (pre ++ [h])%list))
        by (rewrite length_app; simpl; lia).
      rewrite El.
      destruct (long_candidate s len h).
      * destruct (long_exact len h); [right; exact Hat|].
        destruct (index <? 0).
        -- rewrite <- El at 2. rewrite El.
           apply (IH (pre ++ [h])%list options s len _ ambig Ho' Hp').
           now right.
        -- now apply (IH (pre ++ [h])%list).
      * now apply (IH (pre ++ [h])%list).
Qed.

Lemma short_scan_index : forall rest pre options c,
  options = (pre ++ rest)%list ->
  Forall (fun e => code e <> 0) pre ->
  let i := short_scan rest c (Z.of_nat (List.length pre)) in
  i = -1 \/ (0 <= i /\ In (option_at options i) (table_entries options)
             /\ code (option_at options i) = c).
Proof.
  induction rest as [|h rest IH]; intros pre options c Ho Hp.
  - now left.
  - cbv zeta. simpl. destruct (code h =? 0) eqn:Ez; [now left|].
    apply Z.eqb_neq in Ez. destruct (c =? code h) eqn:Ec.
    + right. apply Z.eqb_eq in Ec. rewrite Ho, option_at_app.
      repeat split; [lia|now apply in_table_entries_app|congruence].
    + replace (Z.of_nat (List.length pre) + 1)
        with (Z.of_nat (List.length (pre ++ [h])%list))
        by (rewrite length_app; simpl; lia).
      apply IH.
      * now rewrite <- app_assoc.
      * apply Forall_app; split; [exact Hp|now constructor].
Qed.

(** The two shapes of an effect: one diagnostic, or one record. *)
Ltac effect_diagnostic :=
  split;
  [intros ?; cbn [short_cluster];
   now rewrite ?add_error3_once, ?add_error_twice
  |split; [constructor|split; [constructor|lia]]].

Ltac effect_record H :=
  split; [reflexivity|split; [apply H|split; [discriminate|lia]]].

Lemma long_argument_effect : forall options opt arg o len k,
  In o (table_entries options) ->
  exists recs msg n,
    (forall ap, long_argument ap opt arg o len (S k)
                = (apply_effect ap recs msg, n))
    /\ effect_ok options k recs msg n.
Proof.
  intros options opt arg o len k Hin. unfold long_argument.
  assert (Hrec : forall a, Forall (entry_record options) [long_record o a])
    by (intros a; constructor; [now exists o|constructor]).
  destruct (negb (char_at opt (len + 2) =? 0)).
  - destruct (has_arg_eqb (has_arg o) ap_no).
    + exists [], (Some ("option '--" ++ text (name o)
                        ++ "' doesn't allow an argument")%string), (S k).
      effect_diagnostic.
    + destruct (has_arg_eqb (has_arg o) ap_yes && (char_at opt (len + 3) =? 0)).
      * exists [], (Some ("option '--" ++ text (name o)
                          ++ "' requires an argument")%string), (S k).
        effect_diagnostic.
      * exists [long_record o (advance (len + 3) opt)], None, (S k).
        effect_record Hrec.
  - destruct (has_arg_eqb (has_arg o) ap_yes).
    + destruct (no_argument arg).
      * exists [], (Some ("option '--" ++ text (name o)
                          ++ "' requires an argument")%string), (S k).
        effect_diagnostic.
      * exists [long_record o (text arg)], None, (S (S k)).
        effect_record Hrec.
    + exists [long_record o EmptyString], None, (S k).
      effect_record Hrec.
Qed.

(** [parse_long_option] appends one record or one diagnostic, which do not
    depend on the parser state it is given. *)
Lemma parse_long_option_effect : forall options opt arg k,
  exists recs msg n,
    (forall ap, parse_long_option ap opt arg options k
                = (apply_effect ap recs msg, n))
    /\ effect_ok options k recs msg n.
Proof.
  intros options opt arg k. unfold parse_long_option.
  set (s := advance 2 opt). set (len := name_slice_length s).
  assert (Hneg : -1 < 0) by lia.
  pose proof (long_scan_index options [] options s len (-1) false
                eq_refl (Forall_nil _) (or_introl Hneg)) as Hi.
  cbv zeta in Hi. simpl List.length in Hi. simpl Z.of_nat in Hi.
  destruct (long_scan options options s len 0 (-1) false)
    as [index exact ambig]. simpl in *.
  destruct (ambig && negb exact).
  - exists [], (Some ("option '" ++ opt ++ "' is ambiguous")%string), k.
    effect_diagnostic.
  - destruct (index <? 0) eqn:E.
    + exists [], (Some ("unrecognized option '" ++ opt ++ "'")%string), k.
      effect_diagnostic.
    + apply Z.ltb_ge in E. destruct Hi as [Hi|Hi]; [lia|].
      now apply long_argument_effect.
Qed.

(** [short_cluster] appends the records of the options of the cluster, and
    one diagnostic when it fails; they do not depend on the parser state it
    is given. *)
Lemma short_cluster_effect : forall options arg k s,
  exists recs msg n,
    (forall ap, short_cluster ap s arg options k
                = (apply_effect ap recs msg, n))
    /\ effect_ok options k recs msg n.
Proof.
  intros options arg k s. induction s as [|ch s IH].
  - exists [], (Some ("invalid option -- " ++ char_str 0)%string), k.
    effect_diagnostic.
  - simpl short_cluster.
    pose proof (short_scan_index options [] options (char_code ch)
                  eq_refl (Forall_nil _)) as Hi.
    cbv zeta in Hi. simpl List.length in Hi. simpl Z.of_nat in Hi.
    set (index := if char_code ch =? 0 then -1
                  else short_scan options (char_code ch) 0).
    assert (Hidx : index = -1 \/
                   (0 <= index /\
                    In (option_at options index) (table_entries options)))
      by (unfold index; destruct (char_code ch =? 0); [now left|];
          destruct Hi as [Hi|[H1 [H2 _]]]; [now left|now right]).
    clearbody index. clear Hi.
    destruct (index <? 0) eqn:E.
    + exists [], (Some ("invalid option -- "
                        ++ char_str (char_code ch))%string), k.
      effect_diagnostic.
    + apply Z.ltb_ge in E. destruct Hidx as [Hidx|[_ Hin]]; [lia|].
      set (o := option_at options index) in *.
      assert (Hrec : forall a,
                Forall (entry_record options) [short_record o a])
        by (intros a; constructor; [now exists o|constructor]).
      destruct (first_char s =? 0) eqn:Ef.
      * simpl negb. rewrite andb_false_r.
        destruct (has_arg_eqb (has_arg o) ap_yes).
        -- destruct (no_argument arg).
           ++ exists [], (Some ("option requires an argument -- "
                                ++ char_str (char_code ch))%string), (S k).
              effect_diagnostic.
           ++ exists [short_record o (text arg)], None, (S (S k)).
              effect_record Hrec.
        -- exists [short_record o EmptyString], None, (S k).
           effect_record Hrec.
      * simpl negb. rewrite andb_true_r.
        destruct (negb (has_arg_eqb (has_arg o) ap_no)).
        -- exists [short_record o s], None, (S k).
           effect_record Hrec.
        -- destruct (has_arg_eqb (has_arg o) ap_yes).
           ++ destruct (no_argument arg).
              ** exists [], (Some ("option requires an argument -- "
                                   ++ char_str (char_code ch))%string), k.
                 effect_diagnostic.
              ** exists [short_record o (text arg)], None, (S k).
                 effect_record Hrec.
           ++ destruct IH as (recs & msg & n & Heq & Hforall & Hok).
              exists (short_record o EmptyString :: recs), msg, n.
              split.
              ** intros ap. rewrite Heq. now destruct msg.
              ** split; [constructor; [now exists o|exact Hforall]|].
                 destruct msg; [exact Hok|].
                 split; [discriminate|apply Hok].
Qed.

Lemma parse_short_option_effect : forall options opt arg k,
  exists recs msg n,
    (forall ap, parse_short_option ap opt arg options k
                = (apply_effect ap recs msg, n))
    /\ effect_ok options k recs msg n.
Proof. intros. apply short_cluster_effect. Qed.

(** ** Invariants of the driver loop *)

Lemma store_well_formed : forall ap r, well_formed ap -> well_formed (store ap r).
Proof.
  intros ap r [Hd He]. split; simpl; [|exact He].
  split.
  - rewrite length_app. simpl. destruct (data ap) as [b|]; simpl in *.
    + destruct Hd as [Hd _]. lia.
    + lia.
  - intros H. apply app_eq_nil in H. destruct H as [_ H]. discriminate H.
Qed.

Lemma store_all_well_formed : forall recs ap,
  well_formed ap -> well_formed (store_all ap recs).
Proof.
  induction recs as [|r recs IH]; intros ap H; [exact H|].
  unfold store_all in *. simpl. apply IH. now apply store_well_formed.
Qed.

Lemma apply_effect_well_formed : forall ap recs msg,
  well_formed ap -> well_formed (apply_effect ap recs msg).
Proof.
  intros ap recs [m|] H; simpl.
  - apply add_error_well_formed. now apply store_all_well_formed.
  - now apply store_all_well_formed.
Qed.

Lemma error_apply_effect : forall ap recs msg,
  error (apply_effect ap recs msg)
  = match msg with
    | Some m => Some (text (error ap) ++ m)%string
    | None => error ap
    end.
Proof.
  intros ap recs [m|]; simpl; now rewrite error_store_all.
Qed.

Lemma records_apply_effect : forall ap recs msg,
  records (apply_effect ap recs msg) = (records ap ++ recs)%list.
Proof.
  intros ap recs [m|]; simpl.
  - unfold records. simpl. apply records_store_all.
  - apply records_store_all.
Qed.

Section Driver_loop.

Variable argv : list string.
Variable options : list ap_Option.
Variable in_order : bool.

Lemma dispatch_effect : forall tok arg k,
  exists recs msg n,
    (forall ap, dispatch ap tok arg options k
                = (apply_effect ap recs msg, n))
    /\ effect_ok options k recs msg n.
Proof.
  intros tok arg k. unfold dispatch.
  destruct (char_at tok 1 =? char_code "-").
  - apply parse_long_option_effect.
  - apply parse_short_option_effect.
Qed.

(** A resolver that sets no error makes records of table entries and moves
    the cursor on. *)
Lemma dispatch_passes : forall ap tok arg k ap' k',
  dispatch ap tok arg options k = (ap', k') ->
  error ap' = None ->
  exists recs,
    (forall a, dispatch a tok arg options k = (apply_effect a recs None, k'))
    /\ Forall (entry_record options) recs
    /\ (k < k' <= k + 2)%nat.
Proof.
  intros ap tok arg k ap' k' Hd He.
  destruct (dispatch_effect tok arg k) as (recs & msg & n & Q & F & M).
  rewrite Q in Hd. injection Hd as <- <-.
  rewrite error_apply_effect in He.
  destruct msg as [m|]; [discriminate He|].
  exists recs. split; [exact Q|]. split; [exact F|apply M].
Qed.

(** A turn of the loop on an option token that is not the terminator. *)
Lemma ap_scan_dispatch : forall fuel ap k no tok,
  nth_error argv k = Some tok ->
  is_option_token tok = true -> is_terminator tok = false ->
  ap_scan (S fuel) argv options in_order ap k no
  = let r := dispatch ap tok (nth_error argv (S k)) options k in
    match error (fst r) with
    | Some _ => Some (fst r, snd r, no)
    | None => ap_scan fuel argv options in_order (fst r) (snd r) no
    end.
Proof.
  intros fuel ap k no tok Htok Hop Ht. unfold dispatch, is_terminator in *.
  rewrite Hop in Ht. simpl in Ht.
  destruct (char_at tok 1 =? char_code "-") eqn:E1.
  - apply Z.eqb_eq in E1. simpl in Ht. apply Z.eqb_neq in Ht.
    now apply ap_scan_long.
  - apply Z.eqb_neq in E1. now apply ap_scan_short.
Qed.

Lemma in_tl_argv : forall k tok,
  (1 <= k)%nat -> nth_error argv k = Some tok -> In tok (tl argv).
Proof.
  intros k tok Hk H. destruct k as [|k]; [lia|].
  destruct argv as [|a l]; [discriminate H|].
  simpl in *. eapply nth_error_In, H.
Qed.

(** What holds each time the loop condition is evaluated. *)
Lemma reaches_invariant : forall ap k no,
  scan_reaches argv options in_order ap k no ->
  error ap = None /\ well_formed ap /\ (1 <= k)%nat
  /\ (in_order = true -> no = [])
  /\ Forall (record_of argv options) (records ap)
  /\ Forall (fun tok => In tok (tl argv)) no
  /\ (in_order = false ->
      Forall (entry_record options)
             (records ap)).
Proof.
  intros ap k no H. induction H as
    [Hlen
    |ap k no tok H IH Htok Hop
    |ap k no tok ap' k' H IH Htok Hop Ht Hd He].
  - refine (conj eq_refl (conj ap_empty_well_formed (conj (le_n 1)
             (conj (fun _ => eq_refl) (conj _ (conj _ _)))))).
    + constructor.
    + constructor.
    + intros _. constructor.
  - destruct IH as (E & W & K & N & R & T & O).
    pose proof (in_tl_argv k tok K Htok) as Hin.
    destruct in_order.
    + refine (conj E (conj _ (conj _ (conj N (conj _ (conj T _)))))).
      * now apply push_back_record_well_formed.
      * lia.
      * rewrite records_push_operand. apply Forall_app.
        split; [exact R|]. constructor; [|constructor].
        left. exists tok. now split.
      * discriminate.
    + refine (conj E (conj W (conj _ (conj _ (conj R (conj _ O)))))).
      * lia.
      * discriminate.
      * apply Forall_app. split; [exact T|]. now constructor.
  - destruct IH as (E & W & K & N & R & T & O).
    destruct (dispatch_passes ap tok _ k ap' k' Hd He) as (recs & Q & F & M).
    assert (Hap : ap' = apply_effect ap recs None)
      by (rewrite Q in Hd; now injection Hd).
    subst ap'. rewrite records_apply_effect.
    refine (conj _ (conj _ (conj _ (conj N (conj _ (conj T _)))))).
    + now rewrite error_apply_effect.
    + now apply apply_effect_well_formed.
    + lia.
    + apply Forall_app. split; [exact R|].
      eapply Forall_impl; [|exact F]. intros r Hr. now right.
    + intros Hio. apply Forall_app. split; [now apply O|exact F].
Qed.

(** The loop comes to an end from every state it reaches, given as many
    turns as there are tokens left. *)
Lemma ap_scan_exit : forall fuel ap k no,
  scan_reaches argv options in_order ap k no ->
  (List.length argv <= fuel + k)%nat ->
  exists ap' k' no',
    ap_scan fuel argv options in_order ap k no = Some (ap', k', no')
    /\ scan_exit argv options in_order ap' k' no'.
Proof.
  induction fuel as [|fuel IH]; intros ap k no H Hf.
  - exists ap, k, no. split.
    + apply ap_scan_done. lia.
    + apply exit_end; [exact H|lia].
  - destruct (nth_error argv k) as [tok|] eqn:Htok.
    + destruct (is_option_token tok) eqn:Hop.
      * destruct (is_terminator tok) eqn:Ht.
        -- exists ap, (S k), no. split.
           ++ unfold is_terminator in Ht. rewrite Hop in Ht. simpl in Ht.
              apply andb_true_iff in Ht. destruct Ht as [T1 T2].
              apply Z.eqb_eq in T1, T2.
              now apply (ap_scan_terminator fuel argv options in_order
                           ap k no tok).
           ++ now apply (exit_terminator argv options in_order ap k no tok).
        -- rewrite (ap_scan_dispatch fuel ap k no tok Htok Hop Ht).
           cbv zeta.
           destruct (dispatch ap tok (nth_error argv (S k)) options k)
             as [ap' k'] eqn:Hd.
           simpl fst. simpl snd.
           destruct (error ap') as [m|] eqn:He.
           ++ exists ap', k', no. split; [reflexivity|].
              apply (exit_error argv options in_order ap k no tok);
                auto. congruence.
           ++ apply IH.
              ** now apply (reaches_option argv options in_order ap k no tok).
              ** destruct (dispatch_passes ap tok _ k ap' k' Hd He)
                   as (recs & _ & _ & M). lia.
      * rewrite (ap_scan_operand fuel argv options in_order ap k no tok
                   Htok Hop).
        pose proof (reaches_operand argv options in_order ap k no tok
                      H Htok Hop) as Hr.
        destruct in_order; apply IH; try exact Hr; lia.
    + exists ap, k, no. apply nth_error_None in Htok. split.
      * now apply ap_scan_done.
      * now apply exit_end.
Qed.

(** From a state the loop reaches, the loop of [ap_init] is the rest of the
    loop. *)
Lemma reaches_scan : forall ap k no,
  scan_reaches argv options in_order ap k no ->
  exists fuel,
    (List.length argv <= fuel + k)%nat /\
    ap_scan (List.length argv) argv options in_order ap_empty 1 []
    = ap_scan fuel argv options in_order ap k no.
Proof.
  intros ap k no H. induction H as
    [Hlen
    |ap k no tok H IH Htok Hop
    |ap k no tok ap' k' H IH Htok Hop Ht Hd He].
  - exists (List.length argv). split; [lia|reflexivity].
  - destruct IH as (fuel & Hf & IH).
    assert (Hk : (k < List.length argv)%nat)
      by (apply nth_error_Some; congruence).
    destruct fuel as [|fuel]; [lia|]. exists fuel. split; [lia|].
    rewrite IH.
    rewrite (ap_scan_operand fuel argv options in_order ap k no tok
               Htok Hop).
    now destruct in_order.
  - destruct IH as (fuel & Hf & IH).
    assert (Hk : (k < List.length argv)%nat)
      by (apply nth_error_Some; congruence).
    destruct fuel as [|fuel]; [lia|]. exists fuel.
    destruct (dispatch_passes ap tok _ k ap' k' Hd He) as (recs & _ & _ & M).
    split; [lia|].
    rewrite IH, (ap_scan_dispatch fuel ap k no tok Htok Hop Ht).
    cbv zeta. rewrite Hd. simpl. now rewrite He.
Qed.

End Driver_loop.

(** ** From the loop to [ap_init] *)

Lemma table_entries_code : forall options o,
  In o (table_entries options) -> code o <> 0.
Proof.
  induction options as [|h options IH]; intros o H; simpl in H; [easy|].
  destruct (code h =? 0) eqn:E; [easy|].
  apply Z.eqb_neq in E. destruct H as [<-|H]; [exact E|now apply IH].
Qed.

Lemma filter_option_records : forall options recs,
  Forall (entry_record options) recs ->
  filter is_option_record recs = recs /\ filter is_operand recs = [].
Proof.
  induction recs as [|r recs IH]; intros H; [now split|].
  apply Forall_cons_iff in H. destruct H as [Hr H].
  destruct (IH H) as [IH1 IH2].
  assert (E1 : is_operand r = false)
    by (destruct Hr as (o & Ho & _); unfold is_operand; now rewrite Ho).
  assert (E2 : is_option_record r = true)
    by (unfold is_option_record; now rewrite E1).
  cbn [filter]. now rewrite E1, E2, IH1, IH2.
Qed.

Lemma filter_operand_records : forall toks,
  filter is_option_record (map operand_record toks) = []
  /\ filter is_operand (map operand_record toks) = map operand_record toks.
Proof.
  induction toks as [|t toks [IH1 IH2]]; [now split|].
  cbn [map filter].
  change (is_operand (operand_record t)) with true.
  change (is_option_record (operand_record t)) with false.
  now rewrite IH1, IH2.
Qed.

Lemma reaches_length : forall argv options in_order ap k no,
  scan_reaches argv options in_order ap k no -> (2 <= List.length argv)%nat.
Proof. intros argv options in_order ap k no H. now induction H. Qed.

Lemma ap_init_short_argv : forall argv options in_order,
  (List.length argv < 2)%nat -> ap_init argv options in_order = Some ap_empty.
Proof.
  intros argv options in_order H. unfold ap_init.
  apply Nat.ltb_lt in H. now rewrite H.
Qed.

Lemma ap_init_scan : forall argv options in_order,
  (2 <= List.length argv)%nat ->
  ap_init argv options in_order
  = match ap_scan (List.length argv) argv options in_order ap_empty 1 [] with
    | Some (ap, k, no) => Some (ap_finish argv ap k no)
    | None => None
    end.
Proof.
  intros argv options in_order H. unfold ap_init, ap_finish.
  replace (List.length argv <? 2)%nat with false
    by (symmetry; apply Nat.ltb_ge; lia).
  destruct (ap_scan _ _ _ _ _ _ _) as [[[ap k] no]|]; [|reflexivity].
  now destruct (error ap).
Qed.

(** [ap_init] returns, with the state the loop is left in. *)
Lemma ap_init_exit : forall argv options in_order,
  (2 <= List.length argv)%nat ->
  exists ap k no,
    scan_exit argv options in_order ap k no
    /\ ap_init argv options in_order = Some (ap_finish argv ap k no).
Proof.
  intros argv options in_order H.
  destruct (ap_scan_exit argv options in_order (List.length argv)
              ap_empty 1 [] (reaches_start argv options in_order H)
              ltac:(lia)) as (ap & k & no & Hs & He).
  exists ap, k, no. split; [exact He|].
  rewrite ap_init_scan by exact H. now rewrite Hs.
Qed.

(** Every way of leaving the loop is the way [ap_init] leaves it. *)
Lemma ap_init_of_exit : forall argv options in_order ap k no,
  scan_exit argv options in_order ap k no ->
  ap_init argv options in_order = Some (ap_finish argv ap k no).
Proof.
  intros argv options in_order ap k no H.
  assert (Hr : exists ap0 k0 no0,
             scan_reaches argv options in_order ap0 k0 no0 /\
             forall fuel, (List.length argv <= fuel + k0)%nat ->
               ap_scan fuel argv options in_order ap0 k0 no0
               = Some (ap, k, no)).
  { destruct H as [ap k no H Hl|ap k no tok H Htok Ht
                  |ap k no tok ap' k' H Htok Hop Ht Hd He].
    - exists ap, k, no. split; [exact H|]. intros fuel _.
      now apply ap_scan_done.
    - exists ap, k, no. split; [exact H|]. intros fuel Hf.
      assert (Hk : (k < List.length argv)%nat)
        by (apply nth_error_Some; congruence).
      destruct fuel as [|fuel]; [lia|].
      unfold is_terminator in Ht.
      apply andb_true_iff in Ht. destruct Ht as [Ht T2].
      apply andb_true_iff in Ht. destruct Ht as [T0 T1].
      apply Z.eqb_eq in T1, T2.
      now apply (ap_scan_terminator fuel argv options in_order ap k no tok).
    - exists ap, k, no. split; [exact H|]. intros fuel Hf.
      assert (Hk : (k < List.length argv)%nat)
        by (apply nth_error_Some; congruence).
      destruct fuel as [|fuel]; [lia|].
      rewrite (ap_scan_dispatch argv options in_order fuel ap k no tok
                 Htok Hop Ht).
      cbv zeta. rewrite Hd. simpl.
      destruct (error ap'); [reflexivity|now elim He]. }
  destruct Hr as (ap0 & k0 & no0 & Hr & Hs).
  destruct (reaches_scan argv options in_order ap0 k0 no0 Hr)
    as (fuel & Hf & Heq).
  rewrite ap_init_scan by (eapply reaches_length; exact Hr).
  now rewrite Heq, (Hs fuel Hf).
Qed.

Lemma error_size_store_all : forall recs ap,
  error_size (store_all ap recs) = error_size ap.
Proof.
  induction recs as [|r recs IH]; intros ap; simpl; [reflexivity|].
  unfold store_all in *. simpl. now rewrite IH.
Qed.

(** After a diagnostic the records are released and the message is all
    that is left. *)
Lemma ap_finish_error : forall argv ap recs m k no,
  error ap = None -> well_formed ap ->
  ap_finish argv (apply_effect ap recs (Some m)) k no = add_error ap_empty m.
Proof.
  intros argv ap recs m k no He [_ Hs]. rewrite He in Hs. simpl in Hs.
  unfold ap_finish. rewrite error_apply_effect.
  unfold apply_effect, free_data, add_error. simpl.
  now rewrite error_store_all, error_size_store_all, He, Hs.
Qed.

Lemma ap_finish_success : forall argv ap k no,
  error ap = None ->
  ap_finish argv ap k no
  = store_all ap (map operand_record (no ++ skipn k argv)%list).
Proof.
  intros argv ap k no He. unfold ap_finish. rewrite He.
  now rewrite <- push_operands_app, push_operands_store_all.
Qed.

(** The state of the loop at a token depends on the tokens up to that one
    only. *)
Lemma reaches_prefix : forall argv options in_order ap k no,
  scan_reaches argv options in_order ap k no ->
  forall argv',
    firstn (S k) argv' = firstn (S k) argv ->
    scan_reaches argv' options in_order ap k no.
Proof.
  intros argv options in_order ap k no H.
  assert (Hnth : forall argv' j k,
            firstn (S k) argv' = firstn (S k) argv -> (j <= k)%nat ->
            nth_error argv' j = nth_error argv j).
  { intros argv' j k0 Hf Hj.
    pose proof (nth_error_firstn (S k0) argv j) as E1.
    pose proof (nth_error_firstn (S k0) argv' j) as E2.
    replace (j <? S k0)%nat with true in E1, E2
      by (symmetry; apply Nat.ltb_lt; lia).
    now rewrite <- E1, <- E2, Hf. }
  assert (Hsub : forall argv' j k,
            firstn (S k) argv' = firstn (S k) argv -> (j <= k)%nat ->
            firstn (S j) argv' = firstn (S j) argv).
  { intros argv' j k0 Hf Hj.
    assert (E : forall l : list string,
              firstn (S j) l = firstn (S j) (firstn (S k0) l))
      by (intros l; rewrite firstn_firstn; f_equal; lia).
    now rewrite (E argv), (E argv'), Hf. }
  induction H as
      [Hlen
      |ap k no tok H IH Htok Hop
      |ap k no tok ap' k' H IH Htok Hop Ht Hd He]; intros argv' Hf.
  - apply reaches_start.
    apply (f_equal (@List.length string)) in Hf.
    rewrite !length_firstn in Hf. lia.
  - apply reaches_operand; [| |exact Hop].
    + apply IH. apply (Hsub argv' k (S k)); [exact Hf|lia].
    + rewrite (Hnth argv' k (S k)); [exact Htok|exact Hf|lia].
  - destruct (dispatch_passes options ap tok _ k ap' k' Hd He)
      as (recs & _ & _ & M).
    apply (reaches_option argv' options in_order ap k no tok); auto.
    + apply IH. apply (Hsub argv' k k'); [exact Hf|lia].
    + rewrite (Hnth argv' k k'); [exact Htok|exact Hf|lia].
    + rewrite (Hnth argv' (S k) k'); [exact Hd|exact Hf|lia].
Qed.

(** The two modes go through the loop side by side: deferring the operands
    splits the records of the in-place mode into option records, kept in
    the record store, and operands, kept aside. *)
Lemma reaches_modes : forall argv options ap k no,
  scan_reaches argv options false ap k no ->
  exists ap',
    scan_reaches argv options true ap' k []
    /\ records ap = filter is_option_record (records ap')
    /\ map operand_record no = filter is_operand (records ap').
Proof.
  intros argv options ap k no H. induction H as
      [Hlen
      |ap k no tok H IH Htok Hop
      |ap k no tok ap1 k1 H IH Htok Hop Ht Hd He].
  - exists ap_empty. split; [now apply reaches_start|now split].
  - destruct IH as (ap' & R & E1 & E2).
    exists (push_back_record ap' non_option_address false tok). split.
    + apply (reaches_operand argv options true ap' k [] tok R Htok Hop).
    + rewrite records_push_operand, !filter_app, map_app.
      rewrite <- E1, <- E2. cbn. now rewrite app_nil_r.
  - destruct IH as (ap' & R & E1 & E2).
    destruct (dispatch_passes options ap tok _ k ap1 k1 Hd He)
      as (recs & Q & F & M).
    assert (Hap : ap1 = apply_effect ap recs None)
      by (rewrite Q in Hd; now injection Hd).
    subst ap1. exists (apply_effect ap' recs None). split.
    + apply (reaches_option argv options true ap' k [] tok); auto.
      rewrite error_apply_effect.
      now destruct (reaches_invariant argv options true ap' k [] R).
    + destruct (filter_option_records options recs F) as [F1 F2].
      rewrite !records_apply_effect, !filter_app, F1, F2, app_nil_r.
      now rewrite E1.
Qed.

(** ** Tokens built from a name or a character *)

Lemma char_str_char_code : forall ch,
  char_code ch <> 0 -> char_str (char_code ch) = String ch EmptyString.
Proof.
  intros ch H. unfold char_str.
  pose proof (char_code_range ch) as R.
  rewrite Z.mod_small by exact R.
  rewrite (proj2 (Z.eqb_neq _ _) H). unfold char_code.
  now rewrite N2Z.id, ascii_N_embedding.
Qed.

Lemma name_slice_length_name : forall n t,
  ~ occurs "=" n ->
  (t = EmptyString \/ exists v, t = String "=" v) ->
  name_slice_length (n ++ t) = strlen n.
Proof.
  unfold strlen. induction n as [|c n IH]; intros t Ho Ht; simpl.
  - destruct Ht as [->|[v ->]]; reflexivity.
  - simpl in Ho.
    destruct (char_code c =? char_code "=") eqn:E.
    + apply char_code_eqb in E. tauto.
    + rewrite IH; [reflexivity|tauto|exact Ht].
Qed.

Lemma substring_append : forall n t, substring 0 (strlen n) (n ++ t) = n.
Proof.
  unfold strlen. induction n as [|c n IH]; intros t; simpl.
  - apply substring_0_0.
  - now rewrite IH.
Qed.

Lemma name_slice_name : forall n t,
  ~ occurs "=" n ->
  (t = EmptyString \/ exists v, t = String "=" v) ->
  name_slice (String "-" (String "-" (n ++ t))) = n.
Proof.
  intros n t Ho Ht. unfold name_slice. simpl advance.
  rewrite name_slice_length_name by assumption. apply substring_append.
Qed.

Lemma char_at_name_end : forall n t j,
  char_at (String "-" (String "-" (n ++ t))) (strlen n + 2 + j)
  = char_at t j.
Proof.
  intros n t j. unfold char_at.
  replace (strlen n + 2 + j)%nat with (S (S (strlen n + j))) by lia.
  simpl advance. f_equal.
  revert t j. unfold strlen.
  induction n as [|c n IH]; intros t j; simpl; [reflexivity|apply IH].
Qed.

(** The loop left at an option token whose resolver fails: [ap_init]
    returns the diagnostic alone. *)
Lemma ap_init_diagnostic : forall argv options in_order ap k no tok m n,
  scan_reaches argv options in_order ap k no ->
  nth_error argv k = Some tok ->
  is_option_token tok = true -> is_terminator tok = false ->
  dispatch ap tok (nth_error argv (S k)) options k = (add_error ap m, n) ->
  ap_init argv options in_order = Some (add_error ap_empty m).
Proof.
  intros argv options in_order ap k no tok m n H Htok Hop Ht Hd.
  destruct (reaches_invariant argv options in_order ap k no H)
    as (E & W & _).
  rewrite (ap_init_of_exit argv options in_order (add_error ap m) n no).
  - f_equal. apply (ap_finish_error argv ap [] m n no E W).
  - apply (exit_error argv options in_order ap k no tok); auto.
    discriminate.
Qed.

(** ** Missing arguments *)

(** C7.  A required argument that is missing.  Wherever the driver meets
    it, an option that requires an argument and has no usable value makes
    the parse fail, nothing recorded, with the diagnostic
    [option '--<name>' requires an argument] for the long forms
    [--name=] (empty value) and [--name] as last token or followed by an
    empty token, and [option requires an argument -- <c>] for the short form
    [-c] as last token or followed by an empty token. *)
Theorem missing_argument : forall argv options in_order ap k no,
  scan_reaches argv options in_order ap k no ->
  (forall pre o post n,
     options = (pre ++ o :: post)%list ->
     Forall (fun e => code e <> 0 /\ name e <> Some n) pre ->
     code o <> 0 -> name o = Some n -> has_arg o = ap_yes ->
     ~ occurs "=" n -> first_char n <> 0 ->
     nth_error argv k = Some ("--" ++ n ++ "=")%string \/
     (nth_error argv k = Some ("--" ++ n)%string /\
      (nth_error argv (S k) = None \/
       nth_error argv (S k) = Some EmptyString)) ->
     ap_init argv options in_order
     = Some (add_error ap_empty
               ("option '--" ++ n ++ "' requires an argument")))
  /\
  (forall ch o,
     short_entry options ch o -> has_arg o = ap_yes -> ch <> "-"%char ->
     nth_error argv k = Some (String "-" (String ch EmptyString)) ->
     (nth_error argv (S k) = None \/
      nth_error argv (S k) = Some EmptyString) ->
     ap_init argv options in_order
     = Some (add_error ap_empty
               ("option requires an argument -- " ++ String ch EmptyString))).
Proof.
  intros argv options in_order ap k no H. split.
  - intros pre o post n Ho Hpre Hc Hn Ha Heq Hf Htok.
    assert (Hgen : forall t,
              (t = EmptyString \/ t = String "=" EmptyString) ->
              nth_error argv k = Some (String "-" (String "-" (n ++ t))) ->
              (t = EmptyString ->
               no_argument (nth_error argv (S k)) = true) ->
              ap_init argv options in_order
              = Some (add_error ap_empty
                        ("option '--" ++ n ++ "' requires an argument"))).
    { intros t Ht Hk Harg.
      set (tok := String "-" (String "-" (n ++ t))) in *.
      assert (Hs : name_slice tok = n).
      { apply name_slice_name; [exact Heq|].
        destruct Ht as [Et|Et]; rewrite Et; [now left|right; now eexists]. }
      assert (H2 : char_at tok 2 <> 0).
      { unfold tok, char_at. simpl advance.
        destruct n as [|c n]; [now elim Hf|exact Hf]. }
      apply (ap_init_diagnostic argv options in_order ap k no tok _ (S k)
               H Hk).
      - reflexivity.
      - unfold is_terminator. simpl.
        now rewrite (proj2 (Z.eqb_neq _ _) H2).
      - unfold dispatch. change (char_at tok 1) with (char_code "-").
        rewrite Z.eqb_refl.
        pose proof (parse_long_option_exact pre o post tok) as E.
        rewrite Hs in E.
        rewrite Ho, (E Hpre Hc Hn), <- add_error3_once.
        unfold long_argument.
        rewrite Hn, Ha. simpl text. simpl has_arg_eqb.
        replace (strlen n + 3)%nat with (strlen n + 2 + 1)%nat by lia.
        replace (strlen n + 2)%nat with (strlen n + 2 + 0)%nat at 1 by lia.
        unfold tok. rewrite !char_at_name_end.
        destruct Ht as [Et|Et]; rewrite Et.
        + rewrite (Harg Et). reflexivity.
        + reflexivity. }
    destruct Htok as [Htok|[Htok Harg]].
    + apply (Hgen (String "=" EmptyString)); [now right|exact Htok|].
      discriminate.
    + apply (Hgen EmptyString); [now left| |].
      * rewrite Htok. simpl. f_equal. f_equal. f_equal.
        clear. induction n as [|c n IH]; simpl; [reflexivity|].
        now rewrite <- IH.
      * intros _. destruct Harg as [E|E]; rewrite E; reflexivity.
  - intros ch o He Ha Hch Htok Harg.
    set (tok := String "-" (String ch EmptyString)) in *.
    pose proof He as (Hz & _).
    assert (H1 : char_at tok 1 <> char_code "-").
    { unfold tok, char_at. simpl. intros E.
      apply char_code_inj in E. contradiction. }
    assert (Hop : is_option_token tok = true).
    { unfold is_option_token, tok, char_at. simpl.
      now rewrite (proj2 (Z.eqb_neq _ _) Hz). }
    apply (ap_init_diagnostic argv options in_order ap k no tok _ (S k)
             H Htok Hop).
    + unfold is_terminator. rewrite Hop.
      now rewrite (proj2 (Z.eqb_neq _ _) H1).
    + unfold dispatch. rewrite (proj2 (Z.eqb_neq _ _) H1).
      unfold parse_short_option, tok. simpl advance.
      rewrite (short_cluster_entry options ch o) by exact He.
      rewrite Ha.
      replace (no_argument (nth_error argv (S k))) with true
        by (destruct Harg as [E|E]; rewrite E; reflexivity).
      cbn. rewrite add_error_twice, char_str_char_code by exact Hz.
      reflexivity.
Qed.

Section Missing_argument_examples.

Local Open Scope string_scope.

(** The five cases on the table [a], [b] flags, [c] / [foo] with a required
    argument. *)
Example missing_argument_cases : forall in_order,
  ap_init ["flowgrind"; "--foo="] abc_table in_order
  = Some (add_error ap_empty "option '--foo' requires an argument")
  /\ ap_init ["flowgrind"; "--foo"] abc_table in_order
     = Some (add_error ap_empty "option '--foo' requires an argument")
  /\ ap_init ["flowgrind"; "--foo"; ""] abc_table in_order
     = Some (add_error ap_empty "option '--foo' requires an argument")
  /\ ap_init ["flowgrind"; "-c"] abc_table in_order
     = Some (add_error ap_empty "option requires an argument -- c")
  /\ ap_init ["flowgrind"; "-c"; ""] abc_table in_order
     = Some (add_error ap_empty "option requires an argument -- c").
Proof. intros [|]; repeat split. Qed.

Lemma missing_argument_witness :
  ap_init ["flowgrind"; "-a"; "--foo="] abc_table false
  = Some (add_error ap_empty "option '--foo' requires an argument")
  /\ ap_init ["flowgrind"; "-a"; "-c"; ""] abc_table false
     = Some (add_error ap_empty "option requires an argument -- c").
Proof.
  assert (R : forall argv,
            nth_error argv 1 = Some "-a" -> (2 <= List.length argv)%nat ->
            scan_reaches argv abc_table false
              (store ap_empty (short_record (flag "a" None) "")) 2 []).
  { intros argv H1 H2.
    apply (reaches_option argv abc_table false ap_empty 1 [] "-a");
      [now apply reaches_start|exact H1|reflexivity|reflexivity| |reflexivity].
    destruct (nth_error argv 2) as [[|c s]|]; reflexivity. }
  split.
  - apply (proj1 (missing_argument _ abc_table false _ 2 []
                    (R ["flowgrind"; "-a"; "--foo="] eq_refl ltac:(simpl; lia)))
                 [flag "a" None; flag "b" None] (valued "c" (Some "foo")) []
                 "foo").
    + reflexivity.
    + repeat constructor; discriminate.
    + discriminate.
    + reflexivity.
    + reflexivity.
    + simpl. intros [E|[E|[E|[]]]]; discriminate E.
    + discriminate.
    + left. reflexivity.
  - apply (proj2 (missing_argument _ abc_table false _ 2 []
                    (R ["flowgrind"; "-a"; "-c"; ""] eq_refl
                       ltac:(simpl; lia)))
                 "c"%char (valued "c" (Some "foo"))).
    + repeat split; try discriminate.
      exists [flag "a" None; flag "b" None], [].
      split; [reflexivity|repeat constructor; discriminate].
    + reflexivity.
    + discriminate.
    + reflexivity.
    + right. reflexivity.
Defined.

End Missing_argument_examples.

(** ** The terminator *)

(** C6, as amended.  When the driver, scanning for options, meets a token
    that is exactly [--], the token makes no record and ends the scan
    without error; the deferred operands and then every token after it, in
    their order, are appended as operand records to the records made so
    far, whatever these tokens look like. *)
Theorem terminator_ends_option_parsing :
  forall argv options in_order ap k no,
  scan_reaches argv options in_order ap k no ->
  nth_error argv k = Some "--"%string ->
  exists ap',
    ap_init argv options in_order = Some ap'
    /\ error ap' = None
    /\ records ap'
       = (records ap ++ map operand_record no
          ++ map operand_record (skipn (S k) argv))%list
    /\ (in_order = false ->
        Forall (fun r => is_option_record r = true) (records ap)).
Proof.
  intros argv options in_order ap k no H Htok.
  destruct (reaches_invariant argv options in_order ap k no H)
    as (E & W & _ & _ & _ & _ & O).
  exists (ap_finish argv ap (S k) no). split; [|split; [|split]].
  - apply ap_init_of_exit.
    now apply (exit_terminator argv options in_order ap k no "--"%string).
  - rewrite ap_finish_success by exact E. now rewrite error_store_all.
  - rewrite ap_finish_success by exact E.
    now rewrite records_store_all, map_app.
  - intros Hio. eapply Forall_impl; [|exact (O Hio)].
    intros r (o & Ho & _).
    unfold is_option_record, is_operand. now rewrite Ho.
Qed.

Section Terminator_examples.

Local Open Scope string_scope.

Lemma terminator_ends_option_parsing_witness :
  exists ap',
    ap_init ["flowgrind"; "file"; "-a"; "--"; "-x"; "--"] abc_table false
    = Some ap'
    /\ error ap' = None
    /\ records ap'
       = [short_record (flag "a" None) ""; operand_record "file";
          operand_record "-x"; operand_record "--"]
    /\ (false = false ->
        Forall (fun r => is_option_record r = true)
               [short_record (flag "a" None) ""]).
Proof.
  apply (terminator_ends_option_parsing
           ["flowgrind"; "file"; "-a"; "--"; "-x"; "--"] abc_table false
           (store ap_empty (short_record (flag "a" None) "")) 3 ["file"]).
  - apply (reaches_option _ abc_table false ap_empty 2 ["file"] "-a");
      [|reflexivity|reflexivity|reflexivity|reflexivity|reflexivity].
    apply (reaches_operand _ abc_table false ap_empty 1 [] "file");
      [|reflexivity|reflexivity].
    apply reaches_start. simpl. lia.
  - reflexivity.
Defined.

(** C6, as stated, fails: a token [--] that follows an option requiring an
    argument is that argument; it is recorded with the option, and the
    token after it is parsed as an option. *)
Lemma terminator_taken_as_argument :
  nth_error ["flowgrind"; "-c"; "--"; "-a"] 2 = Some "--"
  /\ ap_init ["flowgrind"; "-c"; "--"; "-a"] abc_table false
     = Some (store_all ap_empty
               [short_record (valued "c" (Some "foo")) "--";
                short_record (flag "a" None) ""])
  /\ ~ (exists ap before,
          ap_init ["flowgrind"; "-c"; "--"; "-a"] abc_table false = Some ap
          /\ records ap
             = (before
                ++ map operand_record
                       (skipn 3 ["flowgrind"; "-c"; "--"; "-a"]))%list).
Proof.
  split; [reflexivity|]. split; [reflexivity|].
  intros (ap & before & E & R).
  vm_compute in E. injection E as <-.
  apply (f_equal (@rev ap_Record)) in R.
  rewrite rev_app_distr in R. simpl in R. discriminate R.
Qed.

End Terminator_examples.

(** ** Reorder mode *)

(** C3.  Operands and the reorder mode.  On [file1 -v file2], where [-v] is
    declared without argument and [file1], [file2] are operands, the parse
    yields the records [-v, file1, file2] when operands are deferred
    ([in_order] false: the option first, then the operands in their order)
    and [file1, -v, file2] when they are recorded in place ([in_order]
    true).  In both modes the loop goes on after an operand with the next
    token, so that an option after an operand is parsed as an option. *)
Theorem operands_and_reorder_mode :
  (forall options o prog file1 file2,
     short_entry options "v" o -> has_arg o = ap_no ->
     is_option_token file1 = false -> is_option_token file2 = false ->
     ap_init [prog; file1; "-v"%string; file2] options false
     = Some (store_all ap_empty
               [short_record o ""; operand_record file1;
                operand_record file2])
     /\ ap_init [prog; file1; "-v"%string; file2] options true
        = Some (store_all ap_empty
                  [operand_record file1; short_record o "";
                   operand_record file2]))
  /\
  (forall fuel argv options in_order ap k no tok,
     nth_error argv k = Some tok -> is_option_token tok = false ->
     ap_scan (S fuel) argv options in_order ap k no
     = if in_order
       then ap_scan fuel argv options in_order
                    (store ap (operand_record tok)) (S k) no
       else ap_scan fuel argv options in_order ap (S k) (no ++ [tok])%list).
Proof.
  split.
  - intros options o prog file1 file2 He Ha H1 H2.
    assert (Hv : forall ap arg k,
              parse_short_option ap "-v" arg options k
              = (store ap (short_record o ""), S k)).
    { intros ap arg k. unfold parse_short_option. simpl advance.
      rewrite (short_cluster_entry options "v" o) by exact He.
      now rewrite Ha. }
    set (argv := [prog; file1; "-v"%string; file2]).
    assert (Hscan : forall in_order,
              ap_scan 4 argv options in_order ap_empty 1 []
              = if in_order
                then Some (store (store (store ap_empty (operand_record file1))
                                        (short_record o ""))
                                 (operand_record file2), 4%nat, [])
                else Some (store ap_empty (short_record o ""), 4%nat,
                           [file1; file2])).
    { intros in_order.
      rewrite (ap_scan_operand 3 argv options in_order ap_empty 1 [] file1
                 eq_refl H1).
      destruct in_order.
      - rewrite (ap_scan_short 2 argv options true _ 2 [] "-v"%string eq_refl
                   eq_refl ltac:(discriminate)).
        cbv zeta. rewrite Hv. cbn [fst snd error store push_back_record].
        rewrite (ap_scan_operand 1 argv options true _ 3 [] file2 eq_refl H2).
        now rewrite ap_scan_done by (simpl; lia).
      - rewrite (ap_scan_short 2 argv options false _ 2 _ "-v"%string eq_refl
                   eq_refl ltac:(discriminate)).
        cbv zeta. rewrite Hv. cbn [fst snd error store ap_empty].
        rewrite (ap_scan_operand 1 argv options false _ 3 _ file2 eq_refl H2).
        now rewrite ap_scan_done by (simpl; lia). }
    split.
    + rewrite ap_init_scan by (simpl; lia).
      simpl List.length. now rewrite Hscan.
    + rewrite ap_init_scan by (simpl; lia).
      simpl List.length. now rewrite Hscan.
  - intros fuel argv options in_order ap k no tok Htok Hop.
    now rewrite (ap_scan_operand fuel argv options in_order ap k no tok).
Qed.

Section Reorder_examples.

Local Open Scope string_scope.

Lemma operands_and_reorder_mode_witness :
  ap_init ["flowgrind"; "file1"; "-v"; "file2"] verbose_table false
  = Some (store_all ap_empty
            [short_record (flag "v" (Some "verbose")) "";
             operand_record "file1"; operand_record "file2"])
  /\ ap_init ["flowgrind"; "file1"; "-v"; "file2"] verbose_table true
     = Some (store_all ap_empty
               [operand_record "file1";
                short_record (flag "v" (Some "verbose")) "";
                operand_record "file2"]).
Proof.
  apply (proj1 operands_and_reorder_mode verbose_table).
  - repeat split; try discriminate.
    exists [], [flag "V" (Some "version")].
    split; [reflexivity|constructor].
  - reflexivity.
  - reflexivity.
  - reflexivity.
Defined.

End Reorder_examples.

(** ** The terminal states of a parse *)

Lemma firstn_nth_error : forall (l l' : list string) n j,
  firstn n l' = firstn n l -> (j < n)%nat -> nth_error l' j = nth_error l j.
Proof.
  intros l l' n j Hf Hj.
  pose proof (nth_error_firstn n l j) as E1.
  pose proof (nth_error_firstn n l' j) as E2.
  replace (j <? n)%nat with true in E1, E2
    by (symmetry; apply Nat.ltb_lt; lia).
  now rewrite <- E1, <- E2, Hf.
Qed.

Lemma firstn_le : forall (l l' : list string) n j,
  firstn n l' = firstn n l -> (j <= n)%nat -> firstn j l' = firstn j l.
Proof.
  intros l l' n j Hf Hj.
  assert (E : forall x : list string, firstn j x = firstn j (firstn n x))
    by (intros x; rewrite firstn_firstn; f_equal; lia).
  now rewrite (E l), (E l'), Hf.
Qed.

Lemma in_skipn_tl : forall (argv : list string) k tok,
  (1 <= k)%nat -> In tok (skipn k argv) -> In tok (tl argv).
Proof.
  intros argv k tok Hk H. destruct k as [|k]; [lia|].
  destruct argv as [|a l]; [destruct H|].
  simpl in *. revert H. clear. revert l.
  induction k as [|k IH]; intros l H; [exact H|].
  destruct l as [|b l]; [destruct H|]. right. now apply IH.
Qed.

Lemma dispatch_fails : forall options ap tok arg k ap' k',
  error ap = None ->
  dispatch ap tok arg options k = (ap', k') ->
  error ap' <> None ->
  exists recs m,
    diagnostic m /\ error ap' = Some m
    /\ forall a, dispatch a tok arg options k
                 = (apply_effect a recs (Some m), k').
Proof.
  intros options ap tok arg k ap' k' E Hd He.
  destruct (dispatch_effect options tok arg k)
    as (recs & msg & n & Q & _ & M).
  rewrite Q in Hd. injection Hd as <- <-.
  rewrite error_apply_effect in He. destruct msg as [m|].
  - exists recs, m. split; [apply M|]. split; [|exact Q].
    rewrite error_apply_effect. now rewrite E.
  - now elim He.
Qed.

(** The parse of [argv] left at the end of the tokens or at the
    terminator. *)
Lemma ap_finish_parsed : forall argv options in_order ap k no k',
  scan_reaches argv options in_order ap k no ->
  (k <= k')%nat ->
  parsed_state argv options in_order (ap_finish argv ap k' no)
  /\ well_formed (ap_finish argv ap k' no).
Proof.
  intros argv options in_order ap k no k' H Hk.
  destruct (reaches_invariant argv options in_order ap k no H)
    as (E & W & K & N & R & T & O).
  rewrite ap_finish_success by exact E.
  assert (Hw : well_formed
                 (store_all ap (map operand_record (no ++ skipn k' argv)%list)))
    by now apply store_all_well_formed.
  assert (Hops : Forall (fun tok => In tok (tl argv))
                        (no ++ skipn k' argv)%list).
  { apply Forall_app. split; [exact T|]. apply Forall_forall.
    intros tok Hin. apply (in_skipn_tl argv k'); [lia|exact Hin]. }
  split; [|exact Hw].
  split; [now rewrite error_store_all|].
  split; [now apply data_size_records|].
  rewrite records_store_all. split.
  - apply Forall_app. split; [exact R|].
    apply Forall_forall. intros r Hr. apply in_map_iff in Hr.
    destruct Hr as (tok & <- & Hin). left. exists tok. split; [|reflexivity].
    rewrite Forall_forall in Hops. now apply Hops.
  - intros Hio. exists (records ap), (no ++ skipn k' argv)%list.
    split; [reflexivity|]. split; [now apply O|exact Hops].
Qed.

(** The parse of [argv] left at an option token whose resolver fails. *)
Lemma ap_finish_failed : forall argv options in_order ap k no tok ap' k',
  scan_reaches argv options in_order ap k no ->
  nth_error argv k = Some tok ->
  is_option_token tok = true ->
  is_terminator tok = false ->
  dispatch ap tok (nth_error argv (S k)) options k = (ap', k') ->
  error ap' <> None ->
  failed_state argv options in_order (ap_finish argv ap' k' no)
  /\ well_formed (ap_finish argv ap' k' no)
  /\ exists m, ap_finish argv ap' k' no = add_error ap_empty m.
Proof.
  intros argv options in_order ap k no tok ap' k' H Htok Hop Ht Hd He.
  destruct (reaches_invariant argv options in_order ap k no H)
    as (E & W & K & _).
  destruct (dispatch_fails options ap tok _ k ap' k' E Hd He)
    as (recs & m & Dm & Em & Q).
  assert (Hap : ap' = apply_effect ap recs (Some m))
    by (rewrite Q in Hd; now injection Hd).
  rewrite Hap, (ap_finish_error argv ap recs m k' no E W).
  split; [|split].
  - exists m. repeat split; try reflexivity; try exact Dm.
    exists k, ap, no, tok.
    split; [exact H|]. split; [exact Htok|]. split; [exact Hop|].
    split; [now rewrite Hd|].
    intros argv' Hf.
    assert (Htok' : nth_error argv' k = Some tok)
      by (rewrite (firstn_nth_error argv argv' (k + 2) k Hf); [exact Htok|lia]).
    assert (Harg : nth_error argv' (S k) = nth_error argv (S k))
      by (apply (firstn_nth_error argv argv' (k + 2)); [exact Hf|lia]).
    assert (H' : scan_reaches argv' options in_order ap k no).
    { apply (reaches_prefix argv options in_order ap k no H).
      apply (firstn_le argv argv' (k + 2)); [exact Hf|lia]. }
    rewrite (ap_init_of_exit argv' options in_order
               (apply_effect ap recs (Some m)) k' no).
    + now rewrite (ap_finish_error argv' ap recs m k' no E W).
    + apply (exit_error argv' options in_order ap k no tok); auto.
      * now rewrite Harg, Q.
      * rewrite error_apply_effect. discriminate.
  - apply add_error_well_formed, ap_empty_well_formed.
  - now exists m.
Qed.

(** Deferring the operands changes the order of the records only: the
    records of the reorder mode are those of the in-place mode, options
    first and operands after, each group in its order; a failure is the
    same in both modes. *)
Lemma ap_init_modes : forall argv options apT apF,
  ap_init argv options true = Some apT ->
  ap_init argv options false = Some apF ->
  error apF = error apT
  /\ records apF
     = (filter is_option_record (records apT)
        ++ filter is_operand (records apT))%list.
Proof.
  intros argv options apT apF HT HF.
  destruct (Nat.lt_ge_cases (List.length argv) 2) as [Hl|Hl].
  - rewrite ap_init_short_argv in HT, HF by exact Hl.
    injection HT as <-. injection HF as <-. now split.
  - destruct (ap_init_exit argv options false Hl)
      as (ap & k & no & Hex & Hin).
    rewrite Hin in HF. injection HF as <-.
    assert (Hend : forall ap k no k',
              scan_reaches argv options false ap k no ->
              forall ap',
              scan_reaches argv options true ap' k [] ->
              records ap = filter is_option_record (records ap') ->
              map operand_record no = filter is_operand (records ap') ->
              error (ap_finish argv ap k' no)
              = error (ap_finish argv ap' k' [])
              /\ records (ap_finish argv ap k' no)
                 = (filter is_option_record
                      (records (ap_finish argv ap' k' []))
                    ++ filter is_operand
                      (records (ap_finish argv ap' k' [])))%list).
    { clear. intros ap k no k' H ap' H' E1 E2.
      destruct (reaches_invariant argv options false ap k no H) as (E & _).
      destruct (reaches_invariant argv options true ap' k [] H') as (E' & _).
      rewrite !ap_finish_success by assumption.
      rewrite !error_store_all, !records_store_all, E, E'.
      split; [reflexivity|].
      destruct (filter_operand_records (skipn k' argv)) as [F1 F2].
      simpl app. rewrite !filter_app, F1, F2, app_nil_r, map_app.
      now rewrite E1, E2, !app_assoc. }
    destruct Hex as [ap k no H Hk|ap k no tok H Htok Ht
                    |ap k no tok ap' k' H Htok Hop Ht Hd He].
    + destruct (reaches_modes argv options ap k no H) as (ap' & H' & E1 & E2).
      rewrite (ap_init_of_exit argv options true ap' k []) in HT
        by now apply exit_end.
      injection HT as <-. now apply (Hend ap k no k H ap').
    + destruct (reaches_modes argv options ap k no H) as (ap' & H' & E1 & E2).
      rewrite (ap_init_of_exit argv options true ap' (S k) []) in HT
        by now apply (exit_terminator argv options true ap' k [] tok).
      injection HT as <-. now apply (Hend ap k no (S k) H ap').
    + destruct (reaches_modes argv options ap k no H) as (ap1 & H' & _).
      destruct (reaches_invariant argv options false ap k no H)
        as (E & W & _).
      destruct (reaches_invariant argv options true ap1 k [] H')
        as (E' & W' & _).
      destruct (dispatch_fails options ap tok _ k ap' k' E Hd He)
        as (recs & m & Dm & Em & Q).
      rewrite (ap_init_of_exit argv options true
                 (apply_effect ap1 recs (Some m)) k' []) in HT.
      * injection HT as <-.
        assert (Hap : ap' = apply_effect ap recs (Some m))
          by (rewrite Q in Hd; now injection Hd).
        rewrite Hap.
        rewrite (ap_finish_error argv ap recs m k' no E W).
        change (add_error (store_all ap1 recs) m)
          with (apply_effect ap1 recs (Some m)).
        rewrite (ap_finish_error argv ap1 recs m k' [] E' W').
        now split.
      * apply (exit_error argv options true ap1 k [] tok); auto.
        rewrite error_apply_effect. discriminate.
Qed.

(** [ap_init] returns, in a well-formed state of one of the two kinds. *)
Lemma ap_init_terminal : forall argv options in_order,
  exists ap,
    ap_init argv options in_order = Some ap /\ well_formed ap
    /\ (parsed_state argv options in_order ap
        \/ (failed_state argv options in_order ap
            /\ ap_arguments ap = 0 /\ ap_error ap <> None)).
Proof.
  intros argv options in_order.
  destruct (Nat.lt_ge_cases (List.length argv) 2) as [Hl|Hl].
  - exists ap_empty. split; [now apply ap_init_short_argv|].
    split; [apply ap_empty_well_formed|]. left.
    split; [reflexivity|]. split; [reflexivity|].
    split; [constructor|]. intros _. exists [], [].
    split; [reflexivity|]. split; constructor.
  - destruct (ap_init_exit argv options in_order Hl)
      as (ap & k & no & Hex & Hin).
    exists (ap_finish argv ap k no). split; [exact Hin|].
    destruct Hex as [ap k no H Hk|ap k no tok H Htok Ht
                    |ap k no tok ap' k' H Htok Hop Ht Hd He].
    + destruct (ap_finish_parsed argv options in_order ap k no k H
                  (le_n k)) as [P W].
      split; [exact W|now left].
    + destruct (ap_finish_parsed argv options in_order ap k no (S k) H
                  (Nat.le_succ_diag_r k)) as [P W].
      split; [exact W|now left].
    + destruct (ap_finish_failed argv options in_order ap k no tok ap' k'
                  H Htok Hop Ht Hd He) as (F & W & m & Em).
      split; [exact W|]. right. split; [exact F|].
      rewrite Em. split; [reflexivity|discriminate].
Qed.

(** ** Accessors and teardown *)

Lemma instance_well_formed : forall ap, instance ap -> well_formed ap.
Proof.
  intros ap H. induction H as [argv options in_order ap H|ap H IH].
  - destruct (ap_init_terminal argv options in_order) as (ap' & E & W & _).
    rewrite E in H. now injection H as <-.
  - split; reflexivity.
Qed.

Lemma data_at_records : forall ap i,
  data_at ap i = nth_error (records ap) i.
Proof.
  intros ap i. unfold data_at, records.
  destruct (data ap); [reflexivity|]. now destruct i.
Qed.

Lemma is_used_from_records : forall ap c l done,
  records ap = (done ++ l)%list ->
  is_used_from ap c (List.length done) (List.length l) = used_in c l.
Proof.
  intros ap c l. induction l as [|r l IH]; intros done H; [reflexivity|].
  simpl is_used_from. rewrite data_at_records, H.
  rewrite nth_error_app2 by lia. rewrite Nat.sub_diag. simpl.
  destruct (after_init (rec_option r)) as [o|]; [|reflexivity].
  destruct (code o =? c); [reflexivity|].
  replace (S (List.length done)) with (List.length (done ++ [r])%list)
    by (rewrite length_app; simpl; lia).
  apply IH. now rewrite <- app_assoc.
Qed.

Lemma ap_is_used_records : forall ap c,
  well_formed ap -> ap_is_used ap c = used_in c (records ap).
Proof.
  intros ap c W. unfold ap_is_used. rewrite (data_size_records ap W).
  now apply (is_used_from_records ap c (records ap) []).
Qed.

(** The loop ends with true at the first record of an entry with the
    code, when no operand record comes before it. *)
Lemma used_in_true : forall c l,
  used_in c l = Some true
  <-> exists pre r post,
        l = (pre ++ r :: post)%list
        /\ Forall (fun r => is_operand r = false) pre
        /\ has_code c r = true.
Proof.
  intros c l. induction l as [|x l IH]; simpl.
  - split; [discriminate|]. intros (pre & r & post & H & _).
    now destruct pre.
  - unfold is_operand, has_code in *.
    destruct (rec_option x) as [o|] eqn:Ex; simpl.
    + destruct (code o =? c) eqn:Ec.
      * split; [intros _|reflexivity].
        exists [], x, l. split; [reflexivity|]. split; [constructor|].
        now rewrite Ex.
      * rewrite IH. split.
        -- intros (pre & r & post & -> & Hp & Hr).
           exists (x :: pre), r, post. split; [reflexivity|].
           split; [constructor; [now rewrite Ex|exact Hp]|exact Hr].
        -- intros (pre & r & post & H & Hp & Hr).
           destruct pre as [|y pre]; simpl in H; injection H as -> ->.
           ++ rewrite Ex, Ec in Hr. discriminate Hr.
           ++ apply Forall_cons_iff in Hp. destruct Hp as [_ Hp].
              now exists pre, r, post.
    + split; [discriminate|]. intros (pre & r & post & H & Hp & Hr).
      destruct pre as [|y pre]; simpl in H; injection H as -> ->.
      * rewrite Ex in Hr. discriminate Hr.
      * apply Forall_cons_iff in Hp. destruct Hp as [Hp _].
        rewrite Ex in Hp. discriminate Hp.
Qed.

(** The loop ends with false only when it has read every record, none of
    them an operand record. *)
Lemma used_in_false : forall c l,
  used_in c l = Some false
  <-> Forall (fun r => is_operand r = false /\ has_code c r = false) l.
Proof.
  intros c l. induction l as [|x l IH]; simpl.
  - split; [constructor|reflexivity].
  - rewrite Forall_cons_iff. unfold is_operand, has_code in *.
    destruct (rec_option x) as [o|]; simpl.
    + destruct (code o =? c).
      * split; [discriminate|]. intros [[_ H] _]. discriminate H.
      * rewrite IH. tauto.
    + split; [discriminate|]. intros [[H _] _]. discriminate H.
Qed.

Lemma record_of_code : forall argv options r,
  record_of argv options r -> has_code 0 r = false.
Proof.
  intros argv options r [(tok & _ & ->)|(o & Ho & Hin)]; [reflexivity|].
  unfold has_code. rewrite Ho. apply Z.eqb_neq.
  now apply (table_entries_code options).
Qed.

(** C8.  [ap_is_used] on a parse with operands.  The operand records of
    a parse keep the address of [non_option], which has ceased to exist
    when [ap_init] returns.  On the result of a parse that holds an
    operand record, [ap_is_used] asked for the code 0 reads through that
    address, and so it does for every code unless it finds the code in an
    option record placed before the first operand record: it never
    returns false, and what it returns for a code that is not found so is
    not defined. *)
Theorem is_used_reads_dead_descriptor : forall argv options in_order ap,
  ap_init argv options in_order = Some ap ->
  (exists r, In r (records ap) /\ is_operand r = true) ->
  ap_is_used ap 0 = None
  /\ forall c,
       ap_is_used ap c <> Some false
       /\ (ap_is_used ap c = Some true
           <-> exists pre r post,
                 records ap = (pre ++ r :: post)%list
                 /\ Forall (fun r => is_operand r = false) pre
                 /\ has_code c r = true).
Proof.
  intros argv options in_order ap H (r & Hin & Hr).
  destruct (ap_init_terminal argv options in_order) as (ap' & E & W & Hs).
  rewrite H in E. injection E as <-.
  assert (Hf : forall c, ap_is_used ap c <> Some false).
  { intros c. rewrite ap_is_used_records by exact W.
    rewrite used_in_false, Forall_forall. intros Hall.
    destruct (Hall r Hin) as [Hn _]. congruence. }
  assert (Ht : forall c,
            ap_is_used ap c = Some true
            <-> exists pre r post,
                  records ap = (pre ++ r :: post)%list
                  /\ Forall (fun r => is_operand r = false) pre
                  /\ has_code c r = true).
  { intros c. rewrite ap_is_used_records by exact W. apply used_in_true. }
  split; [|intros c; split; [apply Hf|apply Ht]].
  destruct (ap_is_used ap 0) as [[|]|] eqn:E0; [|now apply Hf in E0|].
  - apply Ht in E0. destruct E0 as (pre & x & post & Hl & _ & Hx).
    assert (Hrec : Forall (record_of argv options) (records ap)).
    { destruct Hs as [(_ & _ & Hall & _)|(F & _)]; [exact Hall|].
      destruct F as (m & _ & _ & _ & _ & _ & Hnil & _).
      rewrite Hnil. constructor. }
    rewrite Forall_forall in Hrec.
    assert (Hx' : In x (records ap))
      by (rewrite Hl; apply in_or_app; right; now left).
    apply Hrec, record_of_code in Hx'. congruence.
  - reflexivity.
Qed.

Lemma used_in_entries : forall c l,
  Forall (fun r => is_operand r = false) l ->
  used_in c l = Some (existsb (has_code c) l).
Proof.
  intros c l H. induction H as [|r l Hr _ IH]; [reflexivity|].
  simpl. unfold is_operand in Hr. unfold has_code at 1.
  destruct (rec_option r) as [o|]; [|discriminate Hr]. simpl.
  destruct (code o =? c); [reflexivity|exact IH].
Qed.

(** X22.  [ap_is_used] on a parse without operands.  On a parser
    instance that holds no operand record, [ap_is_used] reads inside the
    record array and through the addresses of table entries only, and
    returns true exactly when some record is the occurrence of an entry
    with that code; it returns false when there is no record. *)
Theorem is_used_without_operands : forall ap c,
  instance ap ->
  Forall (fun r => is_operand r = false) (records ap) ->
  exists b,
    ap_is_used ap c = Some b
    /\ (b = true <->
        exists i r, 0 <= i < ap_arguments ap
                    /\ data_at ap (Z.to_nat i) = Some r
                    /\ has_code c r = true)
    /\ (ap_arguments ap = 0 -> b = false).
Proof.
  intros ap c H Hall. apply instance_well_formed in H.
  pose proof (data_size_records ap H) as Hs.
  rewrite ap_is_used_records by exact H.
  rewrite used_in_entries by exact Hall.
  unfold ap_arguments. rewrite Hs.
  eexists. split; [reflexivity|]. split; [split|].
  - intros E. apply existsb_exists in E. destruct E as (r & Hin & Hc).
    apply In_nth_error in Hin. destruct Hin as [i Hi].
    exists (Z.of_nat i), r.
    assert (Hl : (i < List.length (records ap))%nat)
      by (apply nth_error_Some; congruence).
    rewrite Nat2Z.id, data_at_records.
    split; [lia|]. split; [exact Hi|exact Hc].
  - intros (i & r & Hi & Hr & Hc). apply existsb_exists.
    exists r. rewrite data_at_records in Hr.
    split; [eapply nth_error_In, Hr|exact Hc].
  - intros Hz. destruct (records ap); [reflexivity|simpl in Hz; lia].
Qed.

(** C9.  Teardown is idempotent.  [ap_free] on a parser instance frees
    each string of each record, the record array and the error text, each
    once and only where there is one, and leaves no record and no error; a
    second [ap_free] frees nothing, reads no record and leaves the state as
    it is. *)
Theorem release_is_idempotent : forall ap,
  instance ap ->
  ap_arguments (snd (ap_free ap)) = 0
  /\ ap_error (snd (ap_free ap)) = None
  /\ snd (ap_free ap) = ap_empty
  /\ ap_free (snd (ap_free ap)) = ([], snd (ap_free ap))
  /\ NoDup (fst (ap_free ap) ++ fst (ap_free (snd (ap_free ap))))
  /\ (forall i, In (Argument_of i) (fst (ap_free ap)) \/
                In (Opt_string_of i) (fst (ap_free ap)) ->
                data_at ap i <> None)
  /\ (In Data_array (fst (ap_free ap)) -> data ap <> None)
  /\ (In Error_text (fst (ap_free ap)) -> error ap <> None).
Proof.
  intros ap H. apply instance_well_formed in H.
  pose proof (data_size_records ap H) as Hs.
  assert (Hin : forall b n,
            In b (flat_map (fun i => [Argument_of i; Opt_string_of i])
                           (seq 0 n)) ->
            exists i, (i < n)%nat /\ (b = Argument_of i \/ b = Opt_string_of i)).
  { intros b n Hb. apply in_flat_map in Hb. destruct Hb as (i & Hi & Hb).
    apply in_seq in Hi. exists i. split; [lia|].
    destruct Hb as [<-|[<-|[]]]; [now left|now right]. }
  assert (Hnd : forall a n,
            NoDup (flat_map (fun i => [Argument_of i; Opt_string_of i])
                            (seq a n))).
  { intros a n. revert a. induction n as [|n IH]; intros a; [constructor|].
    simpl. constructor; [|constructor; [|apply IH]].
    - intros [E|E]; [discriminate E|].
      apply in_flat_map in E. destruct E as (i & Hi & E).
      apply in_seq in Hi. destruct E as [E|[E|[]]]; [|discriminate E].
      injection E as E. lia.
    - intros E. apply in_flat_map in E. destruct E as (i & Hi & E).
      apply in_seq in Hi. destruct E as [E|[E|[]]]; [discriminate E|].
      injection E as E. lia. }
  unfold ap_free. simpl. rewrite app_nil_r.
  repeat split.
  - rewrite <- app_assoc. apply NoDup_app; [apply Hnd| |].
    + destruct (data ap), (error ap); simpl;
        repeat constructor; simpl; intuition discriminate.
    + intros b Hb Hb'. apply Hin in Hb. destruct Hb as (i & _ & [-> | ->]);
        destruct (data ap), (error ap); simpl in Hb';
        intuition discriminate.
  - intros i Hi. rewrite data_at_records. apply nth_error_Some.
    rewrite <- Hs.
    assert (Hb : exists b, (b = Argument_of i \/ b = Opt_string_of i) /\
                           In b (flat_map
                                   (fun i => [Argument_of i; Opt_string_of i])
                                   (seq 0 (data_size ap)))).
    { destruct Hi as [Hi|Hi]; eexists; (split; [|
        apply in_app_or in Hi; destruct Hi as [Hi|Hi];
        [apply in_app_or in Hi; destruct Hi as [Hi|Hi]; [exact Hi|]|] ]);
        try (now left); try (now right);
        destruct (data ap), (error ap); simpl in Hi; intuition discriminate. }
    destruct Hb as (b & Hb & Hinb). apply Hin in Hinb.
    destruct Hinb as (j & Hj & Hbj).
    destruct Hb as [-> | ->]; destruct Hbj as [E|E]; try discriminate E;
      injection E as ->; exact Hj.
  - intros Hd E. rewrite E in Hd.
    apply in_app_or in Hd. destruct Hd as [Hd|Hd].
    + rewrite app_nil_r in Hd. apply Hin in Hd.
      destruct Hd as (i & _ & [Hd|Hd]); discriminate Hd.
    + destruct (error ap); simpl in Hd; intuition discriminate.
  - intros Hd E. rewrite E in Hd. rewrite app_nil_r in Hd.
    apply in_app_or in Hd. destruct Hd as [Hd|Hd].
    + apply Hin in Hd. destruct Hd as (i & _ & [Hd|Hd]); discriminate Hd.
    + destruct (data ap); simpl in Hd; intuition discriminate.
Qed.

(** C10.  Accessors outside the records.  For an index below 0 or not
    below the number of records, on any parser state, the accessors read
    nothing and return their defaults: code 0, the empty argument, the
    empty option string and no descriptor.  For an index inside, on a
    parser instance, they read the record at that index: [ap_argument],
    [ap_opt_string] and [ap_option] return its fields, and [ap_code] the
    code read through its pointer, which is not defined for the address
    of [non_option]. *)
Theorem accessors_out_of_range :
  (forall ap i,
     i < 0 \/ ap_arguments ap <= i ->
     ap_code ap i = Some 0
     /\ ap_argument ap i = Some EmptyString
     /\ ap_opt_string ap i = Some EmptyString
     /\ ap_option ap i = Some None)
  /\
  (forall ap i,
     instance ap -> 0 <= i < ap_arguments ap ->
     exists r,
       nth_error (records ap) (Z.to_nat i) = Some r
       /\ ap_code ap i = option_map code (after_init (rec_option r))
       /\ ap_argument ap i = Some (argument r)
       /\ ap_opt_string ap i = Some (opt_string r)
       /\ ap_option ap i = Some (Some (rec_option r))).
Proof.
  split.
  - intros ap i Hi.
    assert (E : (0 <=? i) && (i <? ap_arguments ap) = false).
    { apply andb_false_iff. destruct Hi as [Hi|Hi].
      - left. apply Z.leb_gt. exact Hi.
      - right. apply Z.ltb_ge. exact Hi. }
    unfold ap_code, ap_argument, ap_opt_string, ap_option.
    rewrite E. repeat split.
  - intros ap i H Hi. apply instance_well_formed in H.
    pose proof (data_size_records ap H) as Hs.
    assert (E : (0 <=? i) && (i <? ap_arguments ap) = true).
    { apply andb_true_iff. split; [apply Z.leb_le|apply Z.ltb_lt]; lia. }
    unfold ap_code, ap_argument, ap_opt_string, ap_option.
    rewrite E, data_at_records.
    unfold ap_arguments in Hi.
    destruct (nth_error (records ap) (Z.to_nat i)) as [r|] eqn:Er.
    + exists r. repeat split.
    + apply nth_error_None in Er. lia.
Qed.

Section Accessor_examples.

Local Open Scope string_scope.

Lemma is_used_reads_dead_descriptor_witness :
  ap_init ["flowgrind"; "-v"; "file"] verbose_table false = Some verbose_file
  /\ ap_is_used verbose_file 0 = None
  /\ ap_is_used verbose_file (char_code "V") <> Some false.
Proof.
  split; [reflexivity|].
  destruct (is_used_reads_dead_descriptor
              ["flowgrind"; "-v"; "file"] verbose_table false verbose_file
              eq_refl) as [H0 Hc].
  - exists (operand_record "file"). split; [right; now left|reflexivity].
  - split; [exact H0|]. apply (Hc (char_code "V")).
Defined.

(** [ap_is_used] on the parse of [-v file]: the code of [-v] is found
    before the operand record is read; any other code is looked for in
    the operand record.  On the parse of [file] alone every question
    reads the operand record. *)
Example is_used_examples :
  ap_is_used verbose_file (char_code "v") = Some true
  /\ ap_is_used verbose_file (char_code "V") = None
  /\ ap_is_used verbose_file 0 = None
  /\ (forall options in_order c,
        exists ap, ap_init ["flowgrind"; "file"] options in_order = Some ap
                   /\ ap_is_used ap c = None)
  /\ ap_is_used ap_empty 0 = Some false.
Proof.
  repeat split. intros options [|] c; eexists; split; reflexivity.
Qed.

Lemma is_used_without_operands_witness :
  exists b,
    ap_is_used (store ap_empty (short_record (flag "v" (Some "verbose")) ""))
               (char_code "v") = Some b
    /\ (b = true <->
        exists i r,
          0 <= i < ap_arguments
                     (store ap_empty
                        (short_record (flag "v" (Some "verbose")) ""))
          /\ data_at (store ap_empty
                        (short_record (flag "v" (Some "verbose")) ""))
                     (Z.to_nat i) = Some r
          /\ has_code (char_code "v") r = true)
    /\ (ap_arguments
          (store ap_empty (short_record (flag "v" (Some "verbose")) "")) = 0
        -> b = false).
Proof.
  apply (is_used_without_operands
           (store ap_empty (short_record (flag "v" (Some "verbose")) ""))
           (char_code "v")).
  - apply (instance_init ["flowgrind"; "-v"] verbose_table false).
    reflexivity.
  - repeat constructor.
Defined.

Lemma release_is_idempotent_witness :
  ap_arguments (snd (ap_free verbose_file)) = 0
  /\ ap_error (snd (ap_free verbose_file)) = None
  /\ snd (ap_free verbose_file) = ap_empty
  /\ ap_free (snd (ap_free verbose_file)) = ([], snd (ap_free verbose_file))
  /\ NoDup (fst (ap_free verbose_file)
            ++ fst (ap_free (snd (ap_free verbose_file))))%list
  /\ (forall i, In (Argument_of i) (fst (ap_free verbose_file)) \/
                In (Opt_string_of i) (fst (ap_free verbose_file)) ->
                data_at verbose_file i <> None)
  /\ (In Data_array (fst (ap_free verbose_file)) -> data verbose_file <> None)
  /\ (In Error_text (fst (ap_free verbose_file)) ->
      error verbose_file <> None).
Proof.
  apply (release_is_idempotent verbose_file).
  apply (instance_init ["flowgrind"; "-v"; "file"] verbose_table false).
  reflexivity.
Defined.

Example release_examples :
  ap_free verbose_file
  = ([Argument_of 0; Opt_string_of 0; Argument_of 1; Opt_string_of 1;
      Data_array], ap_empty)
  /\ ap_free (add_error ap_empty "unrecognized option '--x'")
     = ([Error_text], ap_empty)
  /\ ap_free ap_empty = ([], ap_empty).
Proof. repeat split. Qed.

Lemma accessors_out_of_range_witness :
  (ap_code verbose_file 2 = Some 0
   /\ ap_argument verbose_file 2 = Some ""
   /\ ap_opt_string verbose_file 2 = Some ""
   /\ ap_option verbose_file 2 = Some None)
  /\ (ap_code verbose_file (-1) = Some 0
      /\ ap_argument verbose_file (-1) = Some ""
      /\ ap_opt_string verbose_file (-1) = Some ""
      /\ ap_option verbose_file (-1) = Some None)
  /\ exists r,
       nth_error (records verbose_file) (Z.to_nat 1) = Some r
       /\ ap_code verbose_file 1
          = option_map code (after_init (rec_option r))
       /\ ap_argument verbose_file 1 = Some (argument r)
       /\ ap_opt_string verbose_file 1 = Some (opt_string r)
       /\ ap_option verbose_file 1 = Some (Some (rec_option r)).
Proof.
  split; [|split].
  - apply (proj1 accessors_out_of_range verbose_file 2).
    right. unfold ap_arguments, verbose_file. simpl. lia.
  - apply (proj1 accessors_out_of_range verbose_file (-1)).
    left. lia.
  - apply (proj2 accessors_out_of_range verbose_file 1).
    + apply (instance_init ["flowgrind"; "-v"; "file"] verbose_table false).
      reflexivity.
    + unfold ap_arguments, verbose_file. simpl. lia.
Defined.

End Accessor_examples.

(** ** What the resolvers record *)

Lemma has_arg_eqb_neq : forall a b, has_arg_eqb a b = false <-> a <> b.
Proof.
  intros a b. rewrite <- has_arg_eqb_eq. destruct (has_arg_eqb a b); split;
    congruence.
Qed.

(** The entry the scan selects is in the table and passes the prefix
    test. *)
Lemma long_scan_selected : forall rest pre options s len index ambig,
  options = (pre ++ rest)%list ->
  Forall (fun e => code e <> 0) pre ->
  index < 0 \/ (In (option_at options index) (table_entries options)
                /\ long_candidate s len (option_at options index) = true) ->
  let m := long_scan options rest s len (Z.of_nat (List.length pre))
                     index ambig in
  lm_index m < 0
  \/ (In (option_at options (lm_index m)) (table_entries options)
      /\ long_candidate s len (option_at options (lm_index m)) = true).
Proof.
  induction rest as [|h rest IH]; intros pre options s len index ambig Ho Hp Hi.
  - exact Hi.
  - destruct (Z.eq_dec (code h) 0) as [Hz|Hz].
    + cbv zeta. now rewrite long_scan_sentinel.
    + cbv zeta. rewrite long_scan_cons by exact Hz.
      assert (Hat : option_at options (Z.of_nat (List.length pre)) = h)
        by (rewrite Ho; apply option_at_app).
      assert (Hin : In h (table_entries options))
        by (rewrite Ho; now apply in_table_entries_app).
      assert (Ho' : options = ((pre ++ [h]) ++ rest)%list)
        by now rewrite <- app_assoc.
      assert (Hp' : Forall (fun e => code e <> 0) (pre ++ [h])%list)
        by (apply Forall_app; split; [exact Hp|now constructor]).
      assert (El : Z.of_nat (List.length pre) + 1
                   = Z.of_nat (List.length (pre ++ [h])%list))
        by (rewrite length_app; simpl; lia).
      destruct (long_candidate s len h) eqn:Ec.
      * destruct (long_exact len h).
        -- right. simpl. rewrite Hat. now split.
        -- destruct (index <? 0).
           ++ rewrite El.
              apply (IH (pre ++ [h])%list options s len _ ambig Ho' Hp').
              right. rewrite Hat. now split.
           ++ rewrite El. now apply (IH (pre ++ [h])%list).
      * rewrite El. now apply (IH (pre ++ [h])%list).
Qed.

(** The argument [long_argument] records fits the entry. *)
Lemma long_argument_records : forall ap opt arg o len k ap' k',
  long_argument ap opt arg o len (S k) = (ap', k') ->
  error ap = None -> error ap' = None ->
  exists a,
    arg_fits o a /\ ap' = store ap (long_record o a)
    /\ ((k' = S k /\ (a = advance (len + 3) opt \/ a = EmptyString))
        \/ (k' = S (S k) /\ arg = Some a)).
Proof.
  intros ap opt arg o len k ap' k' H E E'. unfold long_argument in H.
  assert (Hfail : forall a b c n,
            (add_error3 ap a b c, n) = (ap', k') -> False).
  { intros a b c n Hx. injection Hx as <- _. discriminate E'. }
  destruct (negb (char_at opt (len + 2) =? 0)).
  - destruct (has_arg_eqb (has_arg o) ap_no) eqn:Hno;
      [now apply Hfail in H|].
    destruct (has_arg_eqb (has_arg o) ap_yes && (char_at opt (len + 3) =? 0))
      eqn:Hyes; [now apply Hfail in H|].
    injection H as <- <-. exists (advance (len + 3) opt).
    split; [|split; [reflexivity|left; split; [reflexivity|now left]]].
    split.
    + intros Hx. apply has_arg_eqb_neq in Hno. contradiction.
    + intros Hx. rewrite Hx in Hyes. simpl in Hyes.
      now apply Z.eqb_neq in Hyes.
  - destruct (has_arg_eqb (has_arg o) ap_yes) eqn:Hyes.
    + destruct (no_argument arg) eqn:Hna; [now apply Hfail in H|].
      injection H as <- <-. destruct arg as [a|]; [|discriminate Hna].
      exists a. simpl in Hna. apply Z.eqb_neq in Hna.
      split; [|split; [reflexivity|right; now split]].
      split; [|now intros _].
      intros Hx. apply has_arg_eqb_eq in Hyes. congruence.
    + injection H as <- <-. exists EmptyString.
      split; [|split; [reflexivity|left; split; [reflexivity|now right]]].
      split; [reflexivity|].
      intros Hx. apply has_arg_eqb_neq in Hyes. contradiction.
Qed.

(** Without error, [parse_long_option] has selected a named entry of the
    table that passes the prefix test, and handled the token as its
    occurrence. *)
Lemma parse_long_option_selects : forall ap opt arg options k ap' k',
  parse_long_option ap opt arg options k = (ap', k') ->
  error ap' = None ->
  exists o n,
    In o (table_entries options) /\ name o = Some n
    /\ strncmp n (advance 2 opt) (name_slice_length (advance 2 opt)) = 0
    /\ long_argument ap opt arg o (name_slice_length (advance 2 opt)) (S k)
       = (ap', k').
Proof.
  intros ap opt arg options k ap' k' H E'.
  unfold parse_long_option in H.
  set (s := advance 2 opt) in *. set (len := name_slice_length s) in *.
  assert (Hneg : -1 < 0) by lia.
  pose proof (long_scan_selected options [] options s len (-1) false
                eq_refl (Forall_nil _) (or_introl Hneg)) as Hsel.
  cbv zeta in Hsel. simpl List.length in Hsel. simpl Z.of_nat in Hsel.
  destruct (long_scan options options s len 0 (-1) false)
    as [index exact ambig]. cbn [lm_index lm_exact lm_ambig] in *.
  destruct (ambig && negb exact);
    [injection H as <- _; discriminate E'|].
  destruct (index <? 0) eqn:Ei;
    [injection H as <- _; discriminate E'|].
  apply Z.ltb_ge in Ei. destruct Hsel as [Hsel|[Hin Hc]]; [lia|].
  unfold long_candidate in Hc.
  destruct (name (option_at options index)) as [n|] eqn:Hn;
    [|discriminate Hc].
  exists (option_at options index), n. apply Z.eqb_eq in Hc. now repeat split.
Qed.

(** X8.  Soundness of the long option resolver.  When [parse_long_option]
    sets no error it has appended exactly one record: the occurrence of an
    entry of the table, spelled with the full name of the entry, whose name
    starts with the name slice of the token (for a slice without the
    character 0) and whose argument fits its declaration; the cursor has
    moved by one token, or by two when the argument is the next token. *)
Theorem long_resolution_sound : forall ap opt arg options k ap' k',
  parse_long_option ap opt arg options k = (ap', k') ->
  error ap = None -> error ap' = None ->
  exists o n a,
    In o (table_entries options) /\ name o = Some n
    /\ (c_string (name_slice opt) -> prefix (name_slice opt) n = true)
    /\ arg_fits o a
    /\ ap' = store ap (long_record o a)
    /\ opt_string (long_record o a) = ("--" ++ n)%string
    /\ ((k' = S k /\ (a = EmptyString \/
                      a = advance (strlen (name_slice opt) + 3) opt))
        \/ (k' = S (S k) /\ arg = Some a)).
Proof.
  intros ap opt arg options k ap' k' H E E'.
  destruct (parse_long_option_selects ap opt arg options k ap' k' H E')
    as (o & n & Hin & Hn & Hc & Hl).
  destruct (long_argument_records ap opt arg o _ k ap' k' Hl E E')
    as (a & Hfit & Hap & Hk).
  exists o, n, a. split; [exact Hin|]. split; [exact Hn|].
  split.
  - intros Hcs. unfold name_slice in *.
    apply strncmp_prefix_inv; [apply name_slice_length_le|exact Hcs|exact Hc].
  - split; [exact Hfit|]. split; [exact Hap|]. split.
    + unfold long_record. simpl. now rewrite Hn.
    + rewrite strlen_name_slice. tauto.
Qed.

(** The index [short_scan] returns is that of the first entry with the
    code. *)
Lemma short_scan_first : forall rest c i0,
  short_scan rest c i0 = -1
  \/ exists pre o post,
       rest = (pre ++ o :: post)%list
       /\ Forall (fun e => code e <> 0 /\ code e <> c) pre
       /\ code o = c /\ code o <> 0
       /\ short_scan rest c i0 = i0 + Z.of_nat (List.length pre).
Proof.
  induction rest as [|h rest IH]; intros c i0; [now left|].
  simpl. destruct (code h =? 0) eqn:Ez; [now left|].
  apply Z.eqb_neq in Ez. destruct (c =? code h) eqn:Ec.
  - apply Z.eqb_eq in Ec. right. exists [], h, rest.
    split; [reflexivity|]. split; [constructor|].
    split; [congruence|]. split; [exact Ez|simpl; lia].
  - apply Z.eqb_neq in Ec. destruct (IH c (i0 + 1)) as [IH'|IH'].
    + now left.
    + destruct IH' as (pre & o & post & Hr & Hp & Hc & Hz & Hs).
      right. exists (h :: pre), o, post. rewrite Hs, Hr.
      split; [reflexivity|].
      split; [constructor; [split; congruence|exact Hp]|].
      split; [exact Hc|]. split; [exact Hz|simpl List.length; lia].
Qed.

Lemma short_scan_selects : forall options ch i,
  char_code ch <> 0 ->
  short_scan options (char_code ch) 0 = i -> 0 <= i ->
  short_entry options ch (option_at options i).
Proof.
  intros options ch i Hz Hs Hi.
  destruct (short_scan_first options (char_code ch) 0) as [H|H]; [lia|].
  destruct H as (pre & o & post & Hr & Hp & Hc & Ho & Hs').
  rewrite Hs' in Hs. subst i. simpl. rewrite Hr, option_at_app.
  split; [exact Hz|]. split; [exact Hc|]. now exists pre, post.
Qed.

(** The records a cluster makes are occurrences of the entries its
    characters select, with arguments that fit. *)
Lemma short_cluster_records : forall options arg s ap k ap' k',
  short_cluster ap s arg options k = (ap', k') ->
  error ap = None -> error ap' = None ->
  exists recs,
    ap' = store_all ap recs /\ recs <> []
    /\ Forall (fun r => exists ch o a,
                 occurs ch s /\ short_entry options ch o /\ arg_fits o a
                 /\ r = short_record o a) recs.
Proof.
  intros options arg s. induction s as [|ch s IH]; intros ap k ap' k' H E E'.
  - simpl in H. injection H as <- _. discriminate E'.
  - simpl short_cluster in H.
    set (index := if char_code ch =? 0 then -1
                  else short_scan options (char_code ch) 0) in *.
    destruct (index <? 0) eqn:Ei; [injection H as <- _; discriminate E'|].
    apply Z.ltb_ge in Ei.
    assert (He : short_entry options ch (option_at options index)).
    { unfold index in *. destruct (char_code ch =? 0) eqn:Ez; [lia|].
      apply Z.eqb_neq in Ez. now apply short_scan_selects. }
    set (o := option_at options index) in *.
    assert (Hone : forall a,
              arg_fits o a ->
              exists recs,
                store ap (short_record o a) = store_all ap recs /\ recs <> []
                /\ Forall (fun r => exists ch0 o0 a0,
                             occurs ch0 (String ch s)
                             /\ short_entry options ch0 o0 /\ arg_fits o0 a0
                             /\ r = short_record o0 a0) recs).
    { intros a Ha. exists [short_record o a].
      split; [reflexivity|]. split; [discriminate|].
      constructor; [|constructor]. exists ch, o, a.
      repeat split; try apply Ha; try apply He; auto. now left. }
    destruct (first_char s =? 0) eqn:Ef; simpl negb in H.
    + rewrite andb_false_r in H.
      destruct (has_arg_eqb (has_arg o) ap_yes) eqn:Hyes.
      * destruct (no_argument arg) eqn:Hna;
          [injection H as <- _; discriminate E'|].
        injection H as <- _. destruct arg as [a|]; [|discriminate Hna].
        simpl in Hna. apply Z.eqb_neq in Hna. apply Hone.
        split; [|now intros _].
        intros Hx. apply has_arg_eqb_eq in Hyes. congruence.
      * injection H as <- _. apply Hone. split; [reflexivity|].
        intros Hx. apply has_arg_eqb_neq in Hyes. contradiction.
    + rewrite andb_true_r in H.
      destruct (negb (has_arg_eqb (has_arg o) ap_no)) eqn:Hno.
      * injection H as <- _. apply Hone. apply negb_true_iff in Hno.
        apply has_arg_eqb_neq in Hno. split; [intros Hx; contradiction|].
        intros _. now apply Z.eqb_neq in Ef.
      * apply negb_false_iff, has_arg_eqb_eq in Hno.
        rewrite Hno in H. simpl has_arg_eqb in H. cbv iota in H.
        destruct (IH _ _ _ _ H E E') as (recs & Hap & _ & Hall).
        exists (short_record o EmptyString :: recs).
        split; [exact Hap|]. split; [discriminate|].
        constructor.
        -- exists ch, o, EmptyString.
           repeat split; try apply He; auto; try (now left).
           intros Hx. congruence.
        -- eapply Forall_impl; [|exact Hall].
           intros r (ch0 & o0 & a0 & Hoc & Hr).
           exists ch0, o0, a0. split; [now right|exact Hr].
Qed.

(** A resolver that sets no error appends resolved occurrences. *)
Lemma dispatch_records : forall options ap tok arg k ap' k',
  dispatch ap tok arg options k = (ap', k') ->
  error ap = None -> error ap' = None ->
  exists recs, ap' = store_all ap recs /\ Forall (resolved options) recs.
Proof.
  intros options ap tok arg k ap' k' H E E'. unfold dispatch in H.
  destruct (char_at tok 1 =? char_code "-").
  - destruct (parse_long_option_selects ap tok arg options k ap' k' H E')
      as (o & n & Hin & Hn & _ & Hl).
    destruct (long_argument_records ap tok arg o _ k ap' k' Hl E E')
      as (a & Hfit & Hap & _).
    exists [long_record o a]. split; [exact Hap|].
    constructor; [|constructor]. now apply (resolved_long options o n a).
  - destruct (short_cluster_records options arg _ ap k ap' k' H E E')
      as (recs & Hap & _ & Hall).
    exists recs. split; [exact Hap|].
    eapply Forall_impl; [|exact Hall].
    intros r (ch & o & a & _ & He & Hfit & ->).
    now apply (resolved_short options ch o a).
Qed.

Lemma reaches_resolved : forall argv options in_order ap k no,
  scan_reaches argv options in_order ap k no ->
  Forall (parsed_record argv options) (records ap).
Proof.
  intros argv options in_order ap k no H. induction H as
    [Hlen
    |ap k no tok H IH Htok Hop
    |ap k no tok ap' k' H IH Htok Hop Ht Hd He].
  - constructor.
  - destruct (reaches_invariant argv options in_order ap k no H)
      as (_ & _ & K & _).
    destruct in_order; [|exact IH].
    rewrite records_push_operand. apply Forall_app.
    split; [exact IH|]. constructor; [|constructor].
    left. exists tok. split; [|reflexivity].
    now apply (in_tl_argv argv k).
  - destruct (reaches_invariant argv options in_order ap k no H)
      as (E & _).
    destruct (dispatch_records options ap tok _ k ap' k' Hd E He)
      as (recs & -> & Hall).
    rewrite records_store_all. apply Forall_app. split; [exact IH|].
    eapply Forall_impl; [|exact Hall]. intros r Hr. now right.
Qed.

(** Every record [ap_init] returns is an operand of [argv] or a resolved
    occurrence. *)
Lemma ap_init_parsed_records : forall argv options in_order ap,
  ap_init argv options in_order = Some ap ->
  Forall (parsed_record argv options) (records ap).
Proof.
  intros argv options in_order ap H.
  destruct (Nat.lt_ge_cases (List.length argv) 2) as [Hl|Hl].
  - rewrite ap_init_short_argv in H by exact Hl. injection H as <-.
    constructor.
  - destruct (ap_init_exit argv options in_order Hl)
      as (ap1 & k & no & Hex & Hin).
    rewrite Hin in H. injection H as <-.
    destruct Hex as [ap1 k no H Hk|ap1 k no tok H Htok Ht
                    |ap1 k no tok ap' k' H Htok Hop Ht Hd He].
    + destruct (reaches_invariant argv options in_order ap1 k no H)
        as (E & _ & K & _ & _ & T & _).
      rewrite ap_finish_success, records_store_all by exact E.
      apply Forall_app.
      split; [now apply (reaches_resolved argv options in_order ap1 k no)|].
      apply Forall_forall. intros r Hr. apply in_map_iff in Hr.
      destruct Hr as (tok & <- & Hin'). left. exists tok.
      split; [|reflexivity]. apply in_app_or in Hin'.
      destruct Hin' as [Hin'|Hin'].
      * rewrite Forall_forall in T. now apply T.
      * now apply (in_skipn_tl argv k).
    + destruct (reaches_invariant argv options in_order ap1 k no H)
        as (E & _ & K & _ & _ & T & _).
      rewrite ap_finish_success, records_store_all by exact E.
      apply Forall_app.
      split; [now apply (reaches_resolved argv options in_order ap1 k no)|].
      apply Forall_forall. intros r Hr. apply in_map_iff in Hr.
      destruct Hr as (tok' & <- & Hin'). left. exists tok'.
      split; [|reflexivity]. apply in_app_or in Hin'.
      destruct Hin' as [Hin'|Hin'].
      * rewrite Forall_forall in T. now apply T.
      * apply (in_skipn_tl argv (S k)); [lia|exact Hin'].
    + destruct (ap_finish_failed argv options in_order ap1 k no tok ap' k'
                  H Htok Hop Ht Hd He) as (_ & _ & m & ->).
      constructor.
Qed.

(** X9.  Soundness of a parse.  Every record [ap_init] returns is either
    the operand record of a token of [argv] (never of [argv[0]]), or the
    occurrence of a table entry as its long or short spelling selects it,
    with an argument that fits the entry: empty for an option declared
    without argument, never empty for an option that requires one. *)
Theorem parse_records_resolved : forall argv options in_order ap,
  ap_init argv options in_order = Some ap ->
  Forall (parsed_record argv options) (records ap)
  /\ (forall r o, In r (records ap) -> rec_option r = table_entry o ->
                  has_arg o = ap_yes -> first_char (argument r) <> 0)
  /\ (forall r o, In r (records ap) -> rec_option r = table_entry o ->
                  has_arg o = ap_no -> argument r = EmptyString).
Proof.
  intros argv options in_order ap H.
  pose proof (ap_init_parsed_records argv options in_order ap H) as Hall.
  split; [exact Hall|]. rewrite Forall_forall in Hall. split.
  - intros r o Hr Ho Hy. destruct (Hall r Hr) as [(tok & _ & ->)|Hres].
    + discriminate Ho.
    + destruct Hres as [e n a _ _ [_ Hf]|ch e a _ [_ Hf]];
        injection Ho as ->; now apply Hf.
  - intros r o Hr Ho Hn. destruct (Hall r Hr) as [(tok & _ & ->)|Hres].
    + discriminate Ho.
    + destruct Hres as [e n a _ _ [Hf _]|ch e a _ [Hf _]];
        injection Ho as ->; now apply Hf.
Qed.

(** ** Every token is accounted for *)

(** The cluster loop, when it sets no error, has recorded the leading
    flags and then the last option of the cluster with its argument. *)
Lemma short_cluster_occurrence : forall options arg s ap k ap' k',
  short_cluster ap s arg options k = (ap', k') ->
  error ap = None -> error ap' = None ->
  exists fl ch o rest a,
    s = cluster (map fst fl) (String ch rest)
    /\ Forall (fun p => short_entry options (fst p) (snd p)
                        /\ has_arg (snd p) = ap_no) fl
    /\ short_entry options ch o
    /\ ap' = store_all ap
               (map (fun p => short_record (snd p) EmptyString) fl
                ++ [short_record o a])%list
    /\ ((first_char rest <> 0 /\ has_arg o <> ap_no /\ a = rest
         /\ k' = S k)
        \/ (first_char rest = 0 /\ has_arg o = ap_yes
            /\ first_char a <> 0 /\ arg = Some a /\ k' = S (S k))
        \/ (first_char rest = 0 /\ has_arg o <> ap_yes
            /\ a = EmptyString /\ k' = S k)).
Proof.
  intros options arg s. induction s as [|ch s IH]; intros ap k ap' k' H E E'.
  - simpl in H. injection H as <- _. discriminate E'.
  - simpl short_cluster in H.
    set (index := if char_code ch =? 0 then -1
                  else short_scan options (char_code ch) 0) in *.
    destruct (index <? 0) eqn:Ei; [injection H as <- _; discriminate E'|].
    apply Z.ltb_ge in Ei.
    assert (He : short_entry options ch (option_at options index)).
    { unfold index in *. destruct (char_code ch =? 0) eqn:Ez; [lia|].
      apply Z.eqb_neq in Ez. now apply short_scan_selects. }
    set (o := option_at options index) in *.
    destruct (first_char s =? 0) eqn:Ef; simpl negb in H.
    + rewrite andb_false_r in H. apply Z.eqb_eq in Ef.
      destruct (has_arg_eqb (has_arg o) ap_yes) eqn:Hyes.
      * destruct (no_argument arg) eqn:Hna;
          [injection H as <- _; discriminate E'|].
        injection H as <- <-. destruct arg as [a|]; [|discriminate Hna].
        simpl in Hna. apply Z.eqb_neq in Hna.
        apply has_arg_eqb_eq in Hyes.
        exists [], ch, o, s, a. rewrite push_back_record_short.
        refine (conj eq_refl (conj (Forall_nil _) (conj He (conj eq_refl _)))).
        right. left. now repeat split.
      * injection H as <- <-. apply has_arg_eqb_neq in Hyes.
        exists [], ch, o, s, EmptyString. rewrite push_back_record_short.
        refine (conj eq_refl (conj (Forall_nil _) (conj He (conj eq_refl _)))).
        right. right. now repeat split.
    + rewrite andb_true_r in H. apply Z.eqb_neq in Ef.
      destruct (negb (has_arg_eqb (has_arg o) ap_no)) eqn:Hno.
      * injection H as <- <-. apply negb_true_iff in Hno.
        apply has_arg_eqb_neq in Hno.
        exists [], ch, o, s, s. rewrite push_back_record_short.
        refine (conj eq_refl (conj (Forall_nil _) (conj He (conj eq_refl _)))).
        left. now repeat split.
      * apply negb_false_iff, has_arg_eqb_eq in Hno.
        rewrite Hno in H. simpl has_arg_eqb in H. cbv iota in H.
        rewrite push_back_record_short in H.
        destruct (IH _ _ _ _ H E E')
          as (fl & ch' & o' & rest & a & Hs & Hfl & He' & Hap & Hk).
        exists ((ch, o) :: fl), ch', o', rest, a.
        split; [simpl; now rewrite Hs|].
        split; [constructor; [now split|exact Hfl]|].
        split; [exact He'|]. split; [exact Hap|exact Hk].
Qed.

(** [long_argument], when it sets no error, has recorded the entry with
    the argument its declaration and the form of the token call for. *)
Lemma long_argument_occurrence : forall ap opt arg o len k ap' k',
  long_argument ap opt arg o len (S k) = (ap', k') ->
  error ap = None -> error ap' = None ->
  exists a,
    ap' = store ap (long_record o a)
    /\ ((char_at opt (len + 2) <> 0 /\ has_arg o <> ap_no
         /\ (has_arg o = ap_yes -> first_char a <> 0)
         /\ a = advance (len + 3) opt /\ k' = S k)
        \/ (char_at opt (len + 2) = 0 /\ has_arg o = ap_yes
            /\ first_char a <> 0 /\ arg = Some a /\ k' = S (S k))
        \/ (char_at opt (len + 2) = 0 /\ has_arg o <> ap_yes
            /\ a = EmptyString /\ k' = S k)).
Proof.
  intros ap opt arg o len k ap' k' H E E'. unfold long_argument in H.
  assert (Hfail : forall a b c n,
            (add_error3 ap a b c, n) = (ap', k') -> False).
  { intros a b c n Hx. injection Hx as <- _. discriminate E'. }
  destruct (char_at opt (len + 2) =? 0) eqn:Ec; simpl negb in H; cbv iota in H.
  - apply Z.eqb_eq in Ec.
    destruct (has_arg_eqb (has_arg o) ap_yes) eqn:Hyes.
    + destruct (no_argument arg) eqn:Hna; [now apply Hfail in H|].
      injection H as <- <-. destruct arg as [a|]; [|discriminate Hna].
      exists a. simpl in Hna. apply Z.eqb_neq in Hna.
      apply has_arg_eqb_eq in Hyes.
      split; [reflexivity|]. right. left. now repeat split.
    + injection H as <- <-. exists EmptyString.
      apply has_arg_eqb_neq in Hyes.
      split; [reflexivity|]. right. right. now repeat split.
  - apply Z.eqb_neq in Ec.
    destruct (has_arg_eqb (has_arg o) ap_no) eqn:Hno;
      [now apply Hfail in H|].
    destruct (has_arg_eqb (has_arg o) ap_yes && (char_at opt (len + 3) =? 0))
      eqn:Hyes; [now apply Hfail in H|].
    injection H as <- <-. exists (advance (len + 3) opt).
    apply has_arg_eqb_neq in Hno.
    split; [reflexivity|]. left.
    split; [exact Ec|]. split; [exact Hno|].
    split; [|now split].
    intros Hx. rewrite Hx in Hyes. simpl in Hyes.
    now apply Z.eqb_neq in Hyes.
Qed.

(** A resolver that sets no error has made the records of an occurrence,
    and moved the cursor past the token, and past the next one when that
    is the argument. *)
Lemma dispatch_occurrence : forall options ap tok arg k ap' k',
  dispatch ap tok arg options k = (ap', k') ->
  error ap = None -> error ap' = None ->
  exists recs,
    ap' = store_all ap recs
    /\ ((k' = S k /\ occurrence options tok None recs)
        \/ (k' = S (S k)
            /\ exists a, arg = Some a
                         /\ occurrence options tok (Some a) recs)).
Proof.
  intros options ap tok arg k ap' k' H E E'. unfold dispatch in H.
  destruct (char_at tok 1 =? char_code "-") eqn:E1.
  - apply Z.eqb_eq in E1.
    destruct (parse_long_option_selects ap tok arg options k ap' k' H E')
      as (o & n & Hin & Hn & Hc & Hl).
    destruct (long_argument_occurrence ap tok arg o _ k ap' k' Hl E E')
      as (a & Hap & Hk).
    assert (Hpre : c_string (name_slice tok) ->
                   prefix (name_slice tok) n = true).
    { intros Hcs. unfold name_slice in *.
      apply strncmp_prefix_inv;
        [apply name_slice_length_le|exact Hcs|exact Hc]. }
    exists [long_record o a]. split; [exact Hap|].
    rewrite <- strlen_name_slice in Hk.
    destruct Hk as [(R1 & R2 & R3 & R4 & ->)|[(R1 & R2 & R3 & -> & ->)
                                             |(R1 & R2 & R3 & ->)]].
    + left. split; [reflexivity|].
      apply (occurrence_long options tok None o n a); auto.
      left. now repeat split.
    + right. split; [reflexivity|]. exists a. split; [reflexivity|].
      apply (occurrence_long options tok (Some a) o n a); auto.
      right. left. now repeat split.
    + left. split; [reflexivity|].
      apply (occurrence_long options tok None o n a); auto.
      right. right. now repeat split.
  - apply Z.eqb_neq in E1. unfold parse_short_option in H.
    destruct (short_cluster_occurrence options arg _ ap k ap' k' H E E')
      as (fl & ch & o & rest & a & Hs & Hfl & He & Hap & Hk).
    eexists. split; [exact Hap|].
    destruct Hk as [(R1 & R2 & R3 & ->)|[(R1 & R2 & R3 & -> & ->)
                                        |(R1 & R2 & R3 & ->)]].
    + left. split; [reflexivity|].
      apply (occurrence_short options tok None fl ch o rest a); auto.
    + right. split; [reflexivity|]. exists a. split; [reflexivity|].
      apply (occurrence_short options tok (Some a) fl ch o rest a); auto.
      right. left. now repeat split.
    + left. split; [reflexivity|].
      apply (occurrence_short options tok None fl ch o rest a); auto.
      right. right. now repeat split.
Qed.

Lemma firstn_succ_nth : forall (l : list string) k x,
  nth_error l k = Some x -> firstn (S k) l = (firstn k l ++ [x])%list.
Proof.
  induction l as [|y l IH]; intros [|k] x H; simpl in *; try discriminate.
  - now injection H as ->.
  - now rewrite (IH k x H).
Qed.

Lemma flat_map_snoc : forall (A B : Type) (f : A -> list B) l x,
  flat_map f (l ++ [x]) = (flat_map f l ++ f x)%list.
Proof.
  intros A B f l x. rewrite flat_map_app. simpl. now rewrite app_nil_r.
Qed.

Lemma filter_snoc : forall (A : Type) (f : A -> bool) l x,
  filter f (l ++ [x]) = (filter f l ++ if f x then [x] else [])%list.
Proof.
  intros A f l x. rewrite filter_app. simpl. now destruct (f x).
Qed.

(** Each time the loop condition is evaluated the tokens before the
    cursor split into items, of which the parser holds the records. *)
Lemma reaches_accounted : forall argv options in_order ap k no,
  scan_reaches argv options in_order ap k no ->
  exists items,
    firstn k argv = (firstn 1 argv ++ flat_map item_tokens items)%list
    /\ (k <= List.length argv)%nat
    /\ Forall (item_ok options) items
    /\ records ap
       = flat_map item_records
           (if in_order then items else filter is_option_item items)
    /\ map operand_record no
       = (if in_order then []
          else flat_map item_records (filter is_operand_item items)).
Proof.
  intros argv options in_order ap k no H. induction H as
    [Hlen
    |ap k no tok H IH Htok Hop
    |ap k no tok ap' k' H IH Htok Hop Ht Hd He].
  - exists []. rewrite app_nil_r. split; [reflexivity|].
    split; [lia|]. split; [constructor|]. now destruct in_order.
  - destruct IH as (items & Hf & Hk & Hok & Hr & Hn).
    destruct (reaches_invariant argv options in_order ap k no H)
      as (_ & _ & _ & N & _).
    exists (items ++ [operand_item tok])%list.
    rewrite (firstn_succ_nth argv k tok Htok), Hf, flat_map_snoc.
    split; [now rewrite <- app_assoc|].
    split; [apply Nat.le_succ_l, nth_error_Some; congruence|].
    split; [apply Forall_app; split; [exact Hok|now constructor]|].
    destruct in_order.
    + rewrite records_push_operand, Hr, flat_map_snoc.
      split; [reflexivity|]. now rewrite (N eq_refl).
    + rewrite !filter_snoc. simpl. rewrite app_nil_r.
      split; [exact Hr|]. now rewrite map_app, Hn, flat_map_snoc.
  - destruct IH as (items & Hf & Hk & Hok & Hr & Hn).
    destruct (reaches_invariant argv options in_order ap k no H)
      as (E & _).
    destruct (dispatch_occurrence options ap tok _ k ap' k' Hd E He)
      as (recs & -> & Hocc).
    assert (Hstep : exists arg,
              firstn k' argv
              = (firstn k argv ++ item_tokens (option_item tok arg recs))%list
              /\ (k' <= List.length argv)%nat
              /\ occurrence options tok arg recs).
    { destruct Hocc as [[-> Ho]|(-> & a & Ha & Ho)].
      - exists None. split; [now apply firstn_succ_nth|].
        split; [apply Nat.le_succ_l, nth_error_Some; congruence|exact Ho].
      - exists (Some a).
        rewrite (firstn_succ_nth argv (S k) a Ha).
        rewrite (firstn_succ_nth argv k tok Htok), <- app_assoc.
        split; [reflexivity|].
        split; [apply Nat.le_succ_l, nth_error_Some; congruence|exact Ho]. }
    destruct Hstep as (arg & Hf' & Hk' & Ho).
    exists (items ++ [option_item tok arg recs])%list.
    rewrite Hf', Hf, flat_map_snoc.
    split; [now rewrite <- app_assoc|]. split; [exact Hk'|].
    split; [apply Forall_app; split; [exact Hok|]; now repeat constructor|].
    rewrite records_store_all, Hr.
    destruct in_order.
    + now rewrite flat_map_snoc.
    + rewrite !filter_snoc. simpl. rewrite app_nil_r.
      now rewrite flat_map_snoc.
Qed.

Lemma tl_firstn_skipn : forall (argv : list string) k,
  (1 <= k)%nat ->
  tl argv = (tl (firstn k argv) ++ skipn k argv)%list.
Proof.
  intros argv k Hk. rewrite <- (firstn_skipn k argv) at 1.
  destruct k as [|k]; [lia|]. now destruct argv.
Qed.

(** The records of a parse that ends without error account for every
    token. *)
Lemma ap_finish_accounted : forall argv options in_order ap k no k',
  scan_reaches argv options in_order ap k no ->
  ((List.length argv <= k)%nat /\ k' = k)
  \/ (exists tok, nth_error argv k = Some tok
                  /\ is_terminator tok = true /\ k' = S k) ->
  accounted argv options in_order (ap_finish argv ap k' no).
Proof.
  intros argv options in_order ap k no k' H Hend.
  destruct (reaches_accounted argv options in_order ap k no H)
    as (items & Hf & Hk & Hok & Hr & Hn).
  destruct (reaches_invariant argv options in_order ap k no H)
    as (E & _ & K & N & _).
  pose proof (reaches_length argv options in_order ap k no H) as Hl.
  assert (Htl : tl (firstn k argv) = flat_map item_tokens items).
  { rewrite Hf. destruct argv as [|p argv]; [simpl in Hl; lia|].
    reflexivity. }
  exists items, (skipn k argv).
  split; [rewrite <- Htl; now apply tl_firstn_skipn|].
  split; [exact Hok|].
  assert (Hrec : records (ap_finish argv ap k' no)
                 = arranged in_order items (skipn k' argv)).
  { rewrite ap_finish_success, records_store_all, map_app by exact E.
    unfold arranged. rewrite Hr. destruct in_order.
    - now rewrite (N eq_refl).
    - now rewrite Hn. }
  destruct Hend as [[Hlen ->]|(tok & Htok & Ht & ->)].
  - rewrite Hrec. rewrite (skipn_all2 argv) by exact Hlen.
    split; [exact I|reflexivity].
  - assert (Hs : skipn k argv = tok :: skipn (S k) argv).
    { clear - Htok. revert k Htok.
      induction argv as [|x l IHl]; intros [|k] Htok; simpl in *;
        try discriminate.
      - now injection Htok as ->.
      - now apply IHl. }
    rewrite Hs. split; [exact Ht|exact Hrec].
Qed.

(** A parse ends without error in a state that accounts for every token. *)
Lemma ap_init_accounted : forall argv options in_order ap,
  ap_init argv options in_order = Some ap -> error ap = None ->
  accounted argv options in_order ap.
Proof.
  intros argv options in_order ap H He.
  destruct (Nat.lt_ge_cases (List.length argv) 2) as [Hl|Hl].
  - rewrite ap_init_short_argv in H by exact Hl. injection H as <-.
    exists [], []. destruct argv as [|p [|q argv]]; [| |simpl in Hl; lia];
      repeat split; try constructor; now destruct in_order.
  - destruct (ap_init_exit argv options in_order Hl)
      as (ap1 & k & no & Hex & Hin).
    rewrite Hin in H. injection H as <-.
    destruct Hex as [ap1 k no H Hk|ap1 k no tok H Htok Ht
                    |ap1 k no tok ap' k' H Htok Hop Ht Hd Hne].
    + apply (ap_finish_accounted argv options in_order ap1 k no k H).
      left. now split.
    + apply (ap_finish_accounted argv options in_order ap1 k no (S k) H).
      right. now exists tok.
    + destruct (ap_finish_failed argv options in_order ap1 k no tok ap' k'
                  H Htok Hop Ht Hd Hne) as (F & _).
      destruct F as (m & Em & _). congruence.
Qed.

(** C4.  The terminal state of a parse.  [ap_init] returns on every input,
    in one of two states.  Without error: the tokens after [argv[0]] split
    into operands, accepted option tokens (each with the next token when
    that is its argument) and, possibly, the terminator with the tokens
    that follow it, and the record store holds exactly one operand record
    for each operand and each token after the terminator, one record for
    each long option and one for each option of each cluster, arranged
    after the mode.  Or with exactly one diagnostic and an empty record
    store, the records made before the failing token being released and
    no token after the failing one and its successor having any
    influence.  The two modes differ in the arrangement only: deferring
    the operands moves them behind the option records. *)
Theorem parse_terminal_state : forall argv options in_order,
  exists ap,
    ap_init argv options in_order = Some ap
    /\ well_formed ap
    /\ ((parsed_state argv options in_order ap
         /\ accounted argv options in_order ap)
        \/ (failed_state argv options in_order ap
            /\ ap_arguments ap = 0 /\ ap_error ap <> None))
    /\ ~ (parsed_state argv options in_order ap
          /\ failed_state argv options in_order ap)
    /\ forall apT apF,
         ap_init argv options true = Some apT ->
         ap_init argv options false = Some apF ->
         error apF = error apT
         /\ records apF
            = (filter is_option_record (records apT)
               ++ filter is_operand (records apT))%list.
Proof.
  intros argv options in_order.
  destruct (ap_init_terminal argv options in_order) as (ap & Hin & W & Hs).
  exists ap. split; [exact Hin|]. split; [exact W|]. split.
  { destruct Hs as [P|F]; [left|now right].
    split; [exact P|]. apply ap_init_accounted; [exact Hin|apply P]. }
  split.
  - intros [[E _] [m [E' _]]]. congruence.
  - apply ap_init_modes.
Qed.

Section Terminal_state_examples.

Local Open Scope string_scope.

Lemma parse_terminal_state_witness :
  accounted ["flowgrind"; "file1"; "-v"; "file2"] verbose_table false
    (store_all ap_empty
       [short_record (flag "v" (Some "verbose")) "";
        operand_record "file1"; operand_record "file2"])
  /\ error (store_all ap_empty
              [short_record (flag "v" (Some "verbose")) "";
               operand_record "file1"; operand_record "file2"])
     = error (store_all ap_empty
                [operand_record "file1";
                 short_record (flag "v" (Some "verbose")) "";
                 operand_record "file2"])
  /\ records (store_all ap_empty
                [short_record (flag "v" (Some "verbose")) "";
                 operand_record "file1"; operand_record "file2"])
     = (filter is_option_record
          (records (store_all ap_empty
                      [operand_record "file1";
                       short_record (flag "v" (Some "verbose")) "";
                       operand_record "file2"]))
        ++ filter is_operand
          (records (store_all ap_empty
                      [operand_record "file1";
                       short_record (flag "v" (Some "verbose")) "";
                       operand_record "file2"])))%list.
Proof.
  destruct (parse_terminal_state ["flowgrind"; "file1"; "-v"; "file2"]
              verbose_table false) as (ap & Hin & _ & Hs & _ & M).
  split; [|apply M; reflexivity].
  change (ap_init ["flowgrind"; "file1"; "-v"; "file2"] verbose_table false)
    with (Some (store_all ap_empty
                  [short_record (flag "v" (Some "verbose")) "";
                   operand_record "file1"; operand_record "file2"]))
    in Hin.
  injection Hin as <-.
  destruct Hs as [[_ A]|[(m & Em & _) _]]; [exact A|discriminate Em].
Defined.

(** The accounting is not met by a store that lacks the records of the
    tokens: with nothing recorded, the option token [-v] is unaccounted
    for. *)
Example empty_store_is_not_accounted : forall in_order,
  ~ accounted ["flowgrind"; "-v"; "file"; "--verbose"] verbose_table
              in_order ap_empty.
Proof.
  intros in_order (items & tail & Htl & Hok & Ht & Hr).
  destruct items as [|it items].
  - simpl in Htl. subst tail. discriminate Ht.
  - apply Forall_cons_iff in Hok. destruct Hok as [Hit _].
    destruct it as [tok|tok arg recs].
    + simpl in Htl. injection Htl as <- _. discriminate Hit.
    + destruct Hit as (_ & _ & Hocc).
      assert (Hne : recs <> [])
        by (destruct Hocc as [| ? ? fl]; [discriminate|now destruct fl]).
      unfold arranged in Hr. destruct in_order; simpl in Hr;
        destruct recs; try contradiction; discriminate Hr.
Qed.

(** A failing parse: the records of [-v] and [file1] are released, and the
    tokens after [--ver] are not looked at. *)
Example failed_parse : forall in_order rest,
  ap_init ("flowgrind" :: "-v" :: "file1" :: "--ver" :: "x" :: rest)
          verbose_table in_order
  = Some (add_error ap_empty "option '--ver' is ambiguous").
Proof.
  intros in_order rest. rewrite ap_init_scan by (simpl; lia).
  simpl List.length.
  set (argv := "flowgrind" :: "-v" :: "file1" :: "--ver" :: "x" :: rest).
  rewrite (ap_scan_short _ argv verbose_table in_order ap_empty 1 [] "-v"
             eq_refl eq_refl ltac:(discriminate)).
  cbv zeta. change (nth_error argv 2) with (Some "file1").
  cbn [parse_short_option advance short_cluster].
  cbn.
  destruct in_order; reflexivity.
Qed.

End Terminal_state_examples.

(** ** Forms of a long option *)

(** The loop left at an option token whose resolver fails after having
    made records: [ap_init] returns the diagnostic alone. *)
Lemma ap_init_fails_with : forall argv options in_order ap k no tok recs m n,
  scan_reaches argv options in_order ap k no ->
  nth_error argv k = Some tok ->
  is_option_token tok = true -> is_terminator tok = false ->
  dispatch ap tok (nth_error argv (S k)) options k
  = (apply_effect ap recs (Some m), n) ->
  ap_init argv options in_order = Some (add_error ap_empty m).
Proof.
  intros argv options in_order ap k no tok recs m n H Htok Hop Ht Hd.
  destruct (reaches_invariant argv options in_order ap k no H)
    as (E & W & _).
  rewrite (ap_init_of_exit argv options in_order
             (apply_effect ap recs (Some m)) n no).
  - f_equal. apply (ap_finish_error argv ap recs m n no E W).
  - apply (exit_error argv options in_order ap k no tok); auto.
    rewrite error_apply_effect. discriminate.
Qed.

(** A command line whose only option token, with the argument it takes,
    ends it. *)
Lemma ap_init_one_option : forall prog tok rest options in_order ap' k',
  is_option_token tok = true -> is_terminator tok = false ->
  dispatch ap_empty tok (nth_error (prog :: tok :: rest) 2) options 1
  = (ap', k') ->
  error ap' = None ->
  (List.length (prog :: tok :: rest) <= k')%nat ->
  ap_init (prog :: tok :: rest) options in_order = Some ap'.
Proof.
  intros prog tok rest options in_order ap' k' Hop Ht Hd He Hk.
  set (argv := prog :: tok :: rest) in *.
  assert (H : scan_reaches argv options in_order ap' k' []).
  { apply (reaches_option argv options in_order ap_empty 1 [] tok); auto.
    apply reaches_start. simpl. lia. }
  rewrite (ap_init_of_exit argv options in_order ap' k' [])
    by (now apply exit_end).
  rewrite ap_finish_success by exact He.
  now rewrite skipn_all2 by exact Hk.
Qed.

(** No entry passes the prefix test: the scan selects nothing. *)
Lemma long_scan_nothing : forall options s len rest i index ambig,
  (forall o, In o (table_entries rest) -> long_candidate s len o = false) ->
  long_scan options rest s len i index ambig
  = mk_long_match index false ambig.
Proof.
  intros options s len. induction rest as [|h rest IH];
    intros i index ambig H; [reflexivity|].
  destruct (Z.eq_dec (code h) 0) as [Hz|Hz].
  - now apply long_scan_sentinel.
  - rewrite long_scan_cons by exact Hz.
    simpl in H. rewrite (proj2 (Z.eqb_neq _ _) Hz) in H.
    rewrite (H h (or_introl eq_refl)). apply IH.
    intros o Ho. apply H. now right.
Qed.

(** The token [--name] followed by [t], which is empty or begins with
    ['=']. *)
Lemma long_token : forall n t,
  first_char (n ++ t) <> 0 ->
  let tok := String "-" (String "-" (n ++ t)) in
  is_option_token tok = true /\ is_terminator tok = false
  /\ char_at tok 1 = char_code "-".
Proof.
  intros n t H tok. unfold is_terminator, is_option_token, tok, char_at.
  simpl. now rewrite (proj2 (Z.eqb_neq _ _) H).
Qed.

Lemma advance_name_end : forall n t j,
  advance (strlen n + 2 + j) (String "-" (String "-" (n ++ t)))
  = advance j t.
Proof.
  intros n t j.
  replace (strlen n + 2 + j)%nat with (S (S (strlen n + j))) by lia.
  simpl advance. revert t j. unfold strlen.
  induction n as [|c n IH]; intros t j; simpl; [reflexivity|apply IH].
Qed.

(** X1.  Unrecognized long option.  When no entry of the table has a name
    that starts with the name slice of the token, [parse_long_option] fails
    with [unrecognized option '<token>'], the whole token being quoted,
    nothing recorded and the cursor left in place; met by the driver at any
    position, the token makes [ap_init] return that diagnostic alone. *)
Theorem unrecognized_long_option : forall options opt,
  c_string (name_slice opt) ->
  (forall o n, In o (table_entries options) -> name o = Some n ->
               prefix (name_slice opt) n = false) ->
  (forall ap arg k,
     parse_long_option ap opt arg options k
     = (add_error3 ap "unrecognized option '" opt "'", k))
  /\
  (forall argv in_order ap k no,
     scan_reaches argv options in_order ap k no ->
     nth_error argv k = Some opt ->
     is_option_token opt = true ->
     char_at opt 1 = char_code "-" -> char_at opt 2 <> 0 ->
     ap_init argv options in_order
     = Some (add_error ap_empty ("unrecognized option '" ++ opt ++ "'"))).
Proof.
  intros options opt Hcs Hnone.
  assert (Hp : forall ap arg k,
            parse_long_option ap opt arg options k
            = (add_error3 ap "unrecognized option '" opt "'", k)).
  { intros ap arg k. unfold parse_long_option.
    rewrite long_scan_nothing; [reflexivity|].
    intros o Ho. destruct (long_candidate _ _ o) eqn:Ec; [|reflexivity].
    destruct (long_candidate_prefix_inv _ _ o (name_slice_length_le _)
                Hcs Ec) as (n & Hn & Hpre).
    change (substring 0 (name_slice_length (advance 2 opt)) (advance 2 opt))
      with (name_slice opt) in Hpre.
    now rewrite (Hnone o n Ho Hn) in Hpre. }
  split; [exact Hp|].
  intros argv in_order ap k no H Htok Hop H1 H2.
  apply (ap_init_fails_with argv options in_order ap k no opt [] _ k
           H Htok Hop).
  - unfold is_terminator. rewrite Hop, H1.
    now rewrite (proj2 (Z.eqb_neq _ _) H2).
  - unfold dispatch. rewrite H1, Z.eqb_refl, Hp.
    now rewrite add_error3_once.
Qed.

Section Exactly_named_entry.

Variable options : list ap_Option.
Variables (pre post : list ap_Option) (o : ap_Option) (n : string).
Hypothesis table : options = (pre ++ o :: post)%list.
Hypothesis first_named :
  Forall (fun e => code e <> 0 /\ name e <> Some n) pre.
Hypothesis in_table : code o <> 0.
Hypothesis named : name o = Some n.
Hypothesis no_equals : ~ occurs "=" n.

(** The token [--n] followed by [t] is handled as an occurrence of [o]. *)
Lemma parse_long_option_named : forall t ap arg k,
  t = EmptyString \/ (exists v, t = String "=" v) ->
  parse_long_option ap (String "-" (String "-" (n ++ t))) arg options k
  = long_argument ap (String "-" (String "-" (n ++ t))) arg o (strlen n)
                  (S k).
Proof.
  intros t ap arg k Ht.
  pose proof (name_slice_name n t no_equals Ht) as Hs.
  pose proof (parse_long_option_exact pre o post
                (String "-" (String "-" (n ++ t)))) as E.
  rewrite Hs in E. rewrite table. now apply E.
Qed.

(** X2.  Unexpected argument.  The token [--name=value], whatever the
    value, for the entry named [name] when it is declared without
    argument: [parse_long_option] fails with
    [option '--name' doesn't allow an argument], nothing recorded; met by
    the driver at any position, it makes [ap_init] return that diagnostic
    alone. *)
Theorem unexpected_argument : forall v,
  has_arg o = ap_no -> first_char (n ++ String "=" v) <> 0 ->
  let tok := String "-" (String "-" (n ++ String "=" v)) in
  (forall ap arg k,
     parse_long_option ap tok arg options k
     = (add_error3 ap "option '--" n "' doesn't allow an argument", S k))
  /\
  (forall argv in_order ap k no,
     scan_reaches argv options in_order ap k no ->
     nth_error argv k = Some tok ->
     ap_init argv options in_order
     = Some (add_error ap_empty
               ("option '--" ++ n ++ "' doesn't allow an argument"))).
Proof.
  intros v Ha Hf tok.
  assert (Hp : forall ap arg k,
            parse_long_option ap tok arg options k
            = (add_error3 ap "option '--" n "' doesn't allow an argument",
               S k)).
  { intros ap arg k. unfold tok.
    rewrite parse_long_option_named by (right; now eexists).
    unfold long_argument.
    replace (strlen n + 2)%nat with (strlen n + 2 + 0)%nat by lia.
    rewrite char_at_name_end, Ha, named. reflexivity. }
  split; [exact Hp|].
  intros argv in_order ap k no H Htok.
  destruct (long_token n (String "=" v) Hf) as (Hop & Ht & H1).
  apply (ap_init_fails_with argv options in_order ap k no tok [] _ (S k)
           H Htok Hop Ht).
  unfold dispatch. fold tok in H1. rewrite H1, Z.eqb_refl, Hp.
  now rewrite add_error3_once.
Qed.

(** X3.  Attached value.  The token [--name=value] for the entry named
    [name] when it takes an argument (the value not being empty if the
    argument is required): [parse_long_option] records the entry with
    everything after the first ['='] as its argument, further ['='] signs
    included, and moves the cursor by one token without looking at the
    next one; alone on the command line the token gives that one record. *)
Theorem long_option_attached_value : forall v,
  has_arg o <> ap_no -> (has_arg o = ap_yes -> first_char v <> 0) ->
  first_char (n ++ String "=" v) <> 0 ->
  let tok := String "-" (String "-" (n ++ String "=" v)) in
  (forall ap arg k,
     parse_long_option ap tok arg options k
     = (store ap (long_record o v), S k))
  /\
  (forall prog in_order,
     ap_init [prog; tok] options in_order
     = Some (store ap_empty (long_record o v))).
Proof.
  intros v Ha Hv Hf tok.
  assert (Hp : forall ap arg k,
            parse_long_option ap tok arg options k
            = (store ap (long_record o v), S k)).
  { intros ap arg k. unfold tok.
    rewrite parse_long_option_named by (right; now eexists).
    unfold long_argument.
    replace (strlen n + 3)%nat with (strlen n + 2 + 1)%nat by lia.
    replace (strlen n + 2)%nat with (strlen n + 2 + 0)%nat at 1 by lia.
    rewrite !char_at_name_end, advance_name_end.
    apply has_arg_eqb_neq in Ha. rewrite Ha.
    change (char_at (String "=" v) 0) with (char_code "=").
    change (char_at (String "=" v) 1) with (first_char v).
    change (advance 1 (String "=" v)) with v.
    destruct (has_arg_eqb (has_arg o) ap_yes) eqn:Hy; [|reflexivity].
    apply has_arg_eqb_eq in Hy.
    now rewrite (proj2 (Z.eqb_neq _ _) (Hv Hy)). }
  split; [exact Hp|].
  intros prog in_order.
  destruct (long_token n (String "=" v) Hf) as (Hop & Ht & H1).
  apply (ap_init_one_option prog tok [] options in_order _ 2 Hop Ht).
  - unfold dispatch. fold tok in H1. now rewrite H1, Z.eqb_refl, Hp.
  - reflexivity.
  - simpl. lia.
Qed.

(** X4.  Separate value.  The token [--name] for the entry named [name]
    when it requires an argument, followed by a token that is not empty:
    [parse_long_option] records the entry with that token as its argument,
    whatever the token looks like (an option, the terminator), and moves
    the cursor past both; alone on the command line the two tokens give
    that one record. *)
Theorem long_option_separate_value : forall v,
  has_arg o = ap_yes -> first_char v <> 0 -> first_char n <> 0 ->
  let tok := String "-" (String "-" n) in
  (forall ap k,
     parse_long_option ap tok (Some v) options k
     = (store ap (long_record o v), S (S k)))
  /\
  (forall prog in_order,
     ap_init [prog; tok; v] options in_order
     = Some (store ap_empty (long_record o v))).
Proof.
  intros v Ha Hv Hf tok.
  assert (Hn : (n ++ EmptyString)%string = n).
  { clear. induction n as [|c s IH]; simpl; [reflexivity|now rewrite IH]. }
  assert (Hp : forall ap k,
            parse_long_option ap tok (Some v) options k
            = (store ap (long_record o v), S (S k))).
  { intros ap k. unfold tok. rewrite <- Hn.
    rewrite parse_long_option_named by now left.
    unfold long_argument.
    replace (strlen n + 2)%nat with (strlen n + 2 + 0)%nat by lia.
    rewrite char_at_name_end, Ha. simpl.
    now rewrite (proj2 (Z.eqb_neq _ _) Hv). }
  split; [exact Hp|].
  intros prog in_order.
  assert (Hf' : first_char (n ++ EmptyString) <> 0) by now rewrite Hn.
  destruct (long_token n EmptyString Hf') as (Hop & Ht & H1).
  rewrite Hn in Hop, Ht, H1. fold tok in Hop, Ht, H1.
  apply (ap_init_one_option prog tok [v] options in_order _ 3 Hop Ht).
  - unfold dispatch. rewrite H1, Z.eqb_refl. apply Hp.
  - reflexivity.
  - simpl. lia.
Qed.

(** X5.  Long option without argument.  The token [--name] for the entry
    named [name] when it does not require an argument: [parse_long_option]
    records the entry with an empty argument and moves the cursor by one
    token, leaving the next token, if any, to the driver. *)
Theorem long_option_without_value : forall arg,
  has_arg o <> ap_yes -> first_char n <> 0 ->
  let tok := String "-" (String "-" n) in
  (forall ap k,
     parse_long_option ap tok arg options k
     = (store ap (long_record o EmptyString), S k))
  /\
  (forall prog in_order,
     ap_init [prog; tok] options in_order
     = Some (store ap_empty (long_record o EmptyString))).
Proof.
  intros arg Ha Hf tok.
  assert (Hn : (n ++ EmptyString)%string = n).
  { clear. induction n as [|c s IH]; simpl; [reflexivity|now rewrite IH]. }
  assert (Hp : forall a ap k,
            parse_long_option ap tok a options k
            = (store ap (long_record o EmptyString), S k)).
  { intros a ap k. unfold tok. rewrite <- Hn.
    rewrite parse_long_option_named by now left.
    unfold long_argument.
    replace (strlen n + 2)%nat with (strlen n + 2 + 0)%nat by lia.
    rewrite char_at_name_end.
    apply has_arg_eqb_neq in Ha. now rewrite Ha. }
  split; [apply Hp|].
  intros prog in_order.
  assert (Hf' : first_char (n ++ EmptyString) <> 0) by now rewrite Hn.
  destruct (long_token n EmptyString Hf') as (Hop & Ht & H1).
  rewrite Hn in Hop, Ht, H1. fold tok in Hop, Ht, H1.
  apply (ap_init_one_option prog tok [] options in_order _ 2 Hop Ht).
  - unfold dispatch. rewrite H1, Z.eqb_refl. apply Hp.
  - reflexivity.
  - simpl. lia.
Qed.

End Exactly_named_entry.

(** ** Forms of a short option *)

Lemma short_scan_nothing : forall rest c i,
  (forall o, In o (table_entries rest) -> code o <> c) ->
  short_scan rest c i = -1.
Proof.
  induction rest as [|h rest IH]; intros c i H; [reflexivity|].
  simpl in *. destruct (code h =? 0) eqn:Ez; [reflexivity|].
  replace (c =? code h) with false.
  - apply IH. intros o Ho. apply H. now right.
  - symmetry. apply Z.eqb_neq. intros E. now apply (H h (or_introl eq_refl)).
Qed.

(** A token made of ['-'] and a cluster that does not begin with ['-']. *)
Lemma short_token : forall s,
  first_char s <> 0 -> first_char s <> char_code "-" ->
  is_option_token (String "-" s) = true
  /\ is_terminator (String "-" s) = false
  /\ (char_at (String "-" s) 1 =? char_code "-") = false.
Proof.
  intros s H0 H1. unfold is_terminator, is_option_token, char_at. simpl.
  now rewrite (proj2 (Z.eqb_neq _ _) H0), (proj2 (Z.eqb_neq _ _) H1).
Qed.

Lemma first_char_cluster : forall options fl ch rest,
  Forall (fun p => short_entry options (fst p) (snd p)
                   /\ has_arg (snd p) = ap_no) fl ->
  char_code ch <> 0 ->
  first_char (cluster (map fst fl) (String ch rest)) <> 0.
Proof.
  intros options fl ch rest Hfl Hz. destruct fl as [|[c o] fl]; [exact Hz|].
  apply Forall_cons_iff in Hfl. destruct Hfl as [[[H _] _] _]. exact H.
Qed.

(** X6.  Invalid short option.  In a cluster, after any number of options
    declared without argument, a character that is the code of no entry of
    the table makes [parse_short_option] fail with
    [invalid option -- <c>], whatever follows it in the cluster; the flags
    before it have been recorded, and [ap_init], wherever the driver meets
    the token, returns the diagnostic alone, these records released. *)
Theorem invalid_short_option : forall options fl ch rest,
  Forall (fun p => short_entry options (fst p) (snd p)
                   /\ has_arg (snd p) = ap_no) fl ->
  char_code ch <> 0 ->
  (forall o, In o (table_entries options) -> code o <> char_code ch) ->
  let tok := String "-" (cluster (map fst fl) (String ch rest)) in
  (forall ap arg k,
     parse_short_option ap tok arg options k
     = (add_error
          (store_all ap (map (fun p => short_record (snd p) "") fl))
          ("invalid option -- " ++ String ch ""), k))
  /\
  (forall argv in_order ap k no,
     scan_reaches argv options in_order ap k no ->
     nth_error argv k = Some tok ->
     char_at tok 1 <> char_code "-" ->
     ap_init argv options in_order
     = Some (add_error ap_empty ("invalid option -- " ++ String ch ""))).
Proof.
  intros options fl ch rest Hfl Hz Hnone tok.
  assert (Hp : forall ap arg k,
     parse_short_option ap tok arg options k
     = (add_error
          (store_all ap (map (fun p => short_record (snd p) "") fl))
          ("invalid option -- " ++ String ch ""), k)).
  { intros ap arg k. unfold parse_short_option, tok. simpl advance.
    rewrite short_cluster_flags by (auto; exact Hz).
    simpl short_cluster. rewrite (proj2 (Z.eqb_neq _ _) Hz).
    rewrite short_scan_nothing by exact Hnone. simpl.
    now rewrite add_error_twice, char_str_char_code. }
  split; [exact Hp|].
  intros argv in_order ap k no H Htok H1.
  destruct (short_token (cluster (map fst fl) (String ch rest)))
    as (Hop & Ht & Hc).
  - now apply (first_char_cluster options).
  - exact H1.
  - apply (ap_init_fails_with argv options in_order ap k no tok
             (map (fun p => short_record (snd p) "") fl) _ k H Htok Hop Ht).
    unfold dispatch. fold tok in Hc. rewrite Hc. apply Hp.
Qed.

(** X7.  Short option with a separate value.  At the end of a cluster,
    after any number of options declared without argument, an option that
    requires an argument takes the next token, when there is one and it is
    not empty, whatever it looks like: [parse_short_option] records the
    flags, then the option with that token as argument, and moves the
    cursor past both tokens; alone on the command line the two tokens give
    these records. *)
Theorem short_option_separate_value : forall options fl ch o v,
  Forall (fun p => short_entry options (fst p) (snd p)
                   /\ has_arg (snd p) = ap_no) fl ->
  short_entry options ch o -> has_arg o = ap_yes ->
  first_char v <> 0 ->
  let tok := String "-" (cluster (map fst fl) (String ch "")) in
  (forall ap k,
     parse_short_option ap tok (Some v) options k
     = (store_all ap (map (fun p => short_record (snd p) "") fl
                      ++ [short_record o v])%list,
        S (S k)))
  /\
  (forall prog in_order,
     char_at tok 1 <> char_code "-" ->
     ap_init [prog; tok; v] options in_order
     = Some (store_all ap_empty
               (map (fun p => short_record (snd p) "") fl
                ++ [short_record o v])%list)).
Proof.
  intros options fl ch o v Hfl He Ha Hv tok.
  assert (Hp : forall ap k,
     parse_short_option ap tok (Some v) options k
     = (store_all ap (map (fun p => short_record (snd p) "") fl
                      ++ [short_record o v])%list,
        S (S k))).
  { intros ap k. unfold parse_short_option, tok. simpl advance.
    rewrite short_cluster_flags; [|exact Hfl|simpl; apply He].
    rewrite (short_cluster_entry options ch o) by exact He.
    rewrite Ha. simpl. rewrite (proj2 (Z.eqb_neq _ _) Hv).
    now rewrite push_back_record_short, store_all_app. }
  split; [exact Hp|].
  intros prog in_order H1.
  destruct (short_token (cluster (map fst fl) (String ch "")))
    as (Hop & Ht & Hc).
  - apply (first_char_cluster options); [exact Hfl|apply He].
  - exact H1.
  - apply (ap_init_one_option prog tok [v] options in_order _ 3 Hop Ht).
    + unfold dispatch. fold tok in Hc. rewrite Hc. apply Hp.
    + now rewrite error_store_all.
    + simpl. lia.
Qed.

(** X21.  Short option without a separate value.  At the end of a cluster,
    after any number of options declared without argument, an option that
    does not require an argument (an optional one included) is recorded
    with an empty argument: [parse_short_option] records the flags, then
    the option, and moves the cursor by one token, leaving the next token,
    if any, to the driver; an optional argument of a short option can only
    be attached. *)
Theorem short_option_without_value : forall options fl ch o arg,
  Forall (fun p => short_entry options (fst p) (snd p)
                   /\ has_arg (snd p) = ap_no) fl ->
  short_entry options ch o -> has_arg o <> ap_yes ->
  let tok := String "-" (cluster (map fst fl) (String ch "")) in
  (forall ap k,
     parse_short_option ap tok arg options k
     = (store_all ap (map (fun p => short_record (snd p) "") fl
                      ++ [short_record o ""])%list,
        S k))
  /\
  (forall prog in_order,
     char_at tok 1 <> char_code "-" ->
     ap_init [prog; tok] options in_order
     = Some (store_all ap_empty
               (map (fun p => short_record (snd p) "") fl
                ++ [short_record o ""])%list)).
Proof.
  intros options fl ch o arg Hfl He Ha tok.
  assert (Hp : forall a ap k,
     parse_short_option ap tok a options k
     = (store_all ap (map (fun p => short_record (snd p) "") fl
                      ++ [short_record o ""])%list,
        S k)).
  { intros a ap k. unfold parse_short_option, tok. simpl advance.
    rewrite short_cluster_flags; [|exact Hfl|simpl; apply He].
    rewrite (short_cluster_entry options ch o) by exact He.
    apply has_arg_eqb_neq in Ha. rewrite Ha. simpl.
    rewrite andb_false_r.
    now rewrite push_back_record_short, store_all_app. }
  split; [apply Hp|].
  intros prog in_order H1.
  destruct (short_token (cluster (map fst fl) (String ch "")))
    as (Hop & Ht & Hc).
  - apply (first_char_cluster options); [exact Hfl|apply He].
  - exact H1.
  - apply (ap_init_one_option prog tok [] options in_order _ 2 Hop Ht).
    + unfold dispatch. fold tok in Hc. rewrite Hc. apply Hp.
    + now rewrite error_store_all.
    + simpl. lia.
Qed.

(** ** Operands *)

Lemma ap_scan_operands : forall rest pre argv options in_order ap no fuel,
  argv = (pre ++ rest)%list ->
  Forall (fun t => is_option_token t = false) rest ->
  (List.length rest <= fuel)%nat ->
  ap_scan fuel argv options in_order ap (List.length pre) no
  = Some (if in_order then store_all ap (map operand_record rest) else ap,
          List.length argv,
          if in_order then no else (no ++ rest)%list).
Proof.
  induction rest as [|t rest IH];
    intros pre argv options in_order ap no fuel Ha Hall Hf.
  - rewrite app_nil_r in Ha. subst argv.
    rewrite ap_scan_done by lia. rewrite app_nil_r. now destruct in_order.
  - apply Forall_cons_iff in Hall. destruct Hall as [Ht Hall].
    destruct fuel as [|fuel]; [simpl in Hf; lia|].
    assert (Htok : nth_error argv (List.length pre) = Some t).
    { rewrite Ha, nth_error_app2, Nat.sub_diag by lia. reflexivity. }
    rewrite (ap_scan_operand fuel argv options in_order ap _ no t Htok Ht).
    assert (Ha' : argv = ((pre ++ [t]) ++ rest)%list)
      by now rewrite <- app_assoc.
    assert (El : S (List.length pre) = List.length (pre ++ [t])%list)
      by (rewrite length_app; simpl; lia).
    rewrite El. simpl in Hf.
    destruct in_order.
    + rewrite (IH (pre ++ [t])%list argv options true _ no fuel Ha' Hall)
        by lia.
      reflexivity.
    + rewrite (IH (pre ++ [t])%list argv options false ap _ fuel Ha' Hall)
        by lia.
      now rewrite <- app_assoc.
Qed.

(** X10.  Operands only.  When no token after [argv[0]] is an option token
    (each is empty, or does not begin with ['-'], or is ['-'] alone), the
    parse cannot fail and records every token as an operand, in order,
    whatever the table and the mode. *)
Theorem operands_only : forall prog toks options in_order,
  Forall (fun t => is_option_token t = false) toks ->
  ap_init (prog :: toks) options in_order
  = Some (store_all ap_empty (map operand_record toks)).
Proof.
  intros prog toks options in_order Hall.
  destruct toks as [|t toks]; [reflexivity|].
  rewrite ap_init_scan by (simpl; lia).
  change 1%nat with (List.length [prog]) at 1.
  rewrite (ap_scan_operands (t :: toks) [prog] _ options in_order ap_empty []
             _ eq_refl Hall) by (simpl; lia).
  unfold ap_finish.
  destruct in_order.
  - rewrite error_store_all. simpl error. cbn [push_operands fold_left].
    now rewrite skipn_all.
  - simpl error. cbv iota. rewrite skipn_all.
    cbn [push_operands fold_left app].
    change (fold_left (fun a tok => push_back_record a non_option_address false tok)
                      toks (push_back_record ap_empty non_option_address false t))
      with (push_operands ap_empty (t :: toks)).
    now rewrite push_operands_store_all.
Qed.

(** The table entries behind resolved records. *)
Lemma resolved_in_table : forall options r,
  resolved options r ->
  exists o, rec_option r = table_entry o
            /\ In o (table_entries options) /\ code o <> 0.
Proof.
  intros options r [o n a Hin _ _|ch o a (Hz & Hc & pre & post & Ho & Hp) _];
    exists o; (split; [reflexivity|]).
  - split; [exact Hin|now apply (table_entries_code options)].
  - split; [|congruence]. rewrite Ho. apply in_table_entries_app.
    + eapply Forall_impl; [|exact Hp]. now intros e [He _].
    + congruence.
Qed.

(** X11.  Where [ap_code] is defined.  In the result of [ap_init], at
    every index inside the records, the record is of one of two kinds.
    Either it keeps the address of an entry of the table: [ap_option]
    returns it and [ap_code] returns the code of the entry, which is not
    0.  Or it is the operand record of a token of [argv]: [ap_argument]
    returns the token, [ap_opt_string] returns [-], [ap_option] returns
    the address of [non_option], and [ap_code], which reads through that
    address after [ap_init] has returned, has no defined result. *)
Theorem code_defined_at_option_records : forall argv options in_order ap i,
  ap_init argv options in_order = Some ap ->
  0 <= i < ap_arguments ap ->
  (exists o,
     ap_option ap i = Some (Some (table_entry o))
     /\ In o (table_entries options)
     /\ ap_code ap i = Some (code o) /\ code o <> 0)
  \/
  (exists tok,
     In tok (tl argv)
     /\ ap_option ap i = Some (Some non_option_address)
     /\ ap_argument ap i = Some tok
     /\ ap_opt_string ap i = Some "-"%string
     /\ ap_code ap i = None).
Proof.
  intros argv options in_order ap i H Hi.
  pose proof (ap_init_parsed_records argv options in_order ap H) as Hall.
  destruct (ap_init_terminal argv options in_order) as (ap0 & E0 & W & _).
  rewrite H in E0. injection E0 as <-.
  pose proof (data_size_records ap W) as Hs.
  assert (E : (0 <=? i) && (i <? ap_arguments ap) = true).
  { apply andb_true_iff. split; [apply Z.leb_le|apply Z.ltb_lt]; lia. }
  unfold ap_code, ap_argument, ap_opt_string, ap_option.
  rewrite E, data_at_records. unfold ap_arguments in Hi.
  destruct (nth_error (records ap) (Z.to_nat i)) as [r|] eqn:Er;
    [|apply nth_error_None in Er; lia].
  rewrite Forall_forall in Hall.
  specialize (Hall r (nth_error_In _ _ Er)). simpl.
  destruct Hall as [(tok & Hin & ->)|Hres].
  - right. exists tok. repeat split. exact Hin.
  - left. apply resolved_in_table in Hres.
    destruct Hres as (o & Ho & Hin & Hc). exists o. rewrite Ho.
    repeat split; assumption.
Qed.

(** ** Store and accumulator *)

(** X12.  A pushed record is read back.  After [push_back_record] on a
    well-formed state the number of records has grown by one, the accessors
    return at the new last index the pointer, the spelling ([--] and the
    full name, or [-] and the code character, of the descriptor the
    pointer led to during the call) and the argument just pushed,
    [ap_code] returns the code read through the pointer, and at every
    earlier index the accessors return what they returned before. *)
Theorem pushed_record_is_read_back : forall ap o l a,
  well_formed ap ->
  let ap' := push_back_record ap o l a in
  well_formed ap'
  /\ ap_arguments ap' = ap_arguments ap + 1
  /\ ap_code ap' (ap_arguments ap) = option_map code (after_init o)
  /\ ap_argument ap' (ap_arguments ap) = Some a
  /\ ap_opt_string ap' (ap_arguments ap)
     = Some (if l then "--" ++ text (name (during_init o))
             else "-" ++ char_str (code (during_init o)))%string
  /\ ap_option ap' (ap_arguments ap) = Some (Some o)
  /\ (forall i, 0 <= i < ap_arguments ap ->
        ap_code ap' i = ap_code ap i
        /\ ap_argument ap' i = ap_argument ap i
        /\ ap_opt_string ap' i = ap_opt_string ap i
        /\ ap_option ap' i = ap_option ap i).
Proof.
  intros ap o l a W ap'.
  pose proof (data_size_records ap W) as Hs.
  assert (W' : well_formed ap') by now apply push_back_record_well_formed.
  assert (Hn : ap_arguments ap' = ap_arguments ap + 1)
    by (unfold ap_arguments, ap'; simpl; lia).
  assert (Hr : exists r,
            records ap' = (records ap ++ [r])%list
            /\ rec_option r = o /\ argument r = a
            /\ opt_string r
               = (if l then "--" ++ text (name (during_init o))
                  else "-" ++ char_str (code (during_init o)))%string)
    by (eexists; split; [reflexivity|]; repeat split; reflexivity).
  destruct Hr as (r & Hr & R1 & R2 & R3).
  assert (Hlast : data_at ap' (Z.to_nat (ap_arguments ap)) = Some r).
  { rewrite data_at_records, Hr. unfold ap_arguments.
    rewrite Nat2Z.id, Hs, nth_error_app2, Nat.sub_diag by lia. reflexivity. }
  assert (Hin : (0 <=? ap_arguments ap)
                && (ap_arguments ap <? ap_arguments ap') = true).
  { apply andb_true_iff. split; [apply Z.leb_le|apply Z.ltb_lt];
      unfold ap_arguments in *; lia. }
  split; [exact W'|]. split; [exact Hn|].
  unfold ap_code, ap_argument, ap_opt_string, ap_option.
  rewrite Hin, Hlast. simpl. rewrite R1, R2, R3.
  split; [reflexivity|]. split; [reflexivity|].
  split; [reflexivity|]. split; [reflexivity|].
  intros i Hi.
  assert (E1 : (0 <=? i) && (i <? ap_arguments ap) = true).
  { apply andb_true_iff. split; [apply Z.leb_le|apply Z.ltb_lt]; lia. }
  assert (E2 : (0 <=? i) && (i <? ap_arguments ap') = true).
  { apply andb_true_iff. split; [apply Z.leb_le|apply Z.ltb_lt]; lia. }
  rewrite E1, E2, !data_at_records, Hr.
  rewrite nth_error_app1 by (unfold ap_arguments in Hi; lia).
  repeat split.
Qed.

(** X13.  Nothing is left allocated.  [ap_free] on a parser instance frees
    the argument and the spelling of every record, the record array when
    there is one and the error text when there is one: as many blocks as
    twice the number of records, plus one for the array and one for the
    error text. *)
Theorem release_frees_everything : forall ap,
  instance ap ->
  (forall i, 0 <= i < ap_arguments ap ->
     In (Argument_of (Z.to_nat i)) (fst (ap_free ap))
     /\ In (Opt_string_of (Z.to_nat i)) (fst (ap_free ap)))
  /\ (data ap <> None -> In Data_array (fst (ap_free ap)))
  /\ (ap_error ap <> None -> In Error_text (fst (ap_free ap)))
  /\ List.length (fst (ap_free ap))
     = (2 * data_size ap
        + match data ap with Some _ => 1 | None => 0 end
        + match error ap with Some _ => 1 | None => 0 end)%nat
  /\ (ap_arguments ap > 0 -> data ap <> None).
Proof.
  intros ap H. apply instance_well_formed in H.
  unfold ap_free, ap_error, ap_arguments. simpl.
  split; [|split; [|split; [|split]]].
  - intros i Hi.
    assert (Hin : In (Z.to_nat i) (seq 0 (data_size ap)))
      by (apply in_seq; lia).
    split; apply in_or_app; left; apply in_or_app; left;
      apply in_flat_map; exists (Z.to_nat i);
      (split; [exact Hin|simpl; tauto]).
  - intros Hd. apply in_or_app. left. apply in_or_app. right.
    destruct (data ap); [now left|now elim Hd].
  - intros He. apply in_or_app. right.
    destruct (error ap); [now left|now elim He].
  - rewrite !length_app.
    assert (Hl : forall n a,
              List.length (flat_map (fun i => [Argument_of i; Opt_string_of i])
                                    (seq a n)) = (2 * n)%nat).
    { induction n as [|n IH]; intros a; [reflexivity|].
      simpl. rewrite IH. lia. }
    rewrite Hl. destruct (data ap), (error ap); simpl; lia.
  - intros Hp Hd. destruct H as [Hw _]. rewrite Hd in Hw. lia.
Qed.

(** Messages appended one after the other. *)
Lemma add_errors_text : forall msgs ap,
  error (fold_left add_error msgs ap)
  = match msgs with
    | [] => error ap
    | _ => Some (text (error ap) ++ join msgs)%string
    end
  /\ error_size (fold_left add_error msgs ap)
     = (error_size ap + strlen (join msgs))%nat
  /\ data (fold_left add_error msgs ap) = data ap
  /\ data_size (fold_left add_error msgs ap) = data_size ap.
Proof.
  induction msgs as [|m msgs IH]; intros ap.
  - simpl. repeat split. unfold strlen. simpl. lia.
  - simpl fold_left. destruct (IH (add_error ap m)) as (E1 & E2 & E3 & E4).
    rewrite E1, E2, E3, E4. simpl. repeat split.
    + destruct msgs as [|m' msgs]; simpl.
      * clear. f_equal. f_equal.
        induction m as [|c m IHm]; simpl; [reflexivity|now rewrite <- IHm].
      * now rewrite append_assoc'.
    + unfold join. simpl. rewrite strlen_append. fold (join msgs). lia.
Qed.

(** X15.  The error accumulator.  Calls of [add_error] in a row leave as
    error text the text there was followed by the messages in the order of
    the calls, with [error_size] its length when it was so before, and
    leave the records alone; after one call the error is set, even when
    the message is empty. *)
Theorem error_messages_accumulate : forall msgs ap,
  well_formed ap -> msgs <> [] ->
  let ap' := fold_left add_error msgs ap in
  ap_error ap' = Some (text (error ap) ++ join msgs)%string
  /\ error_size ap' = strlen (text (error ap) ++ join msgs)
  /\ well_formed ap'
  /\ records ap' = records ap /\ ap_arguments ap' = ap_arguments ap.
Proof.
  intros msgs ap W Hne ap'.
  destruct (add_errors_text msgs ap) as (E1 & E2 & E3 & E4).
  fold ap' in E1, E2, E3, E4.
  assert (He : error ap' = Some (text (error ap) ++ join msgs)%string)
    by (destruct msgs; [now elim Hne|exact E1]).
  assert (Hs : error_size ap' = strlen (text (error ap) ++ join msgs)).
  { rewrite E2, strlen_append. destruct W as [_ Hw]. now rewrite Hw. }
  split; [exact He|]. split; [exact Hs|]. split; [|split].
  - destruct W as [Hd _]. split.
    + now rewrite E3, E4.
    + now rewrite He, Hs.
  - unfold records. now rewrite E3.
  - unfold ap_arguments. now rewrite E4.
Qed.

(** ** What a parse does not depend on *)

Lemma reaches_program_name : forall p q rest options in_order ap k no,
  scan_reaches (p :: rest) options in_order ap k no ->
  scan_reaches (q :: rest) options in_order ap k no.
Proof.
  intros p q rest options in_order ap k no H.
  assert (Hnth : forall j, (1 <= j)%nat ->
            nth_error (q :: rest) j = nth_error (p :: rest) j)
    by (intros [|j] Hj; [lia|reflexivity]).
  induction H as
    [Hlen
    |ap k no tok H IH Htok Hop
    |ap k no tok ap' k' H IH Htok Hop Ht Hd He].
  - now apply reaches_start.
  - destruct (reaches_invariant _ _ _ _ _ _ H) as (_ & _ & K & _).
    apply reaches_operand; [exact IH| |exact Hop].
    now rewrite Hnth.
  - destruct (reaches_invariant _ _ _ _ _ _ H) as (_ & _ & K & _).
    apply (reaches_option (q :: rest) options in_order ap k no tok);
      [exact IH| |exact Hop|exact Ht| |exact He].
    + now rewrite Hnth.
    + rewrite Hnth by lia. exact Hd.
Qed.

(** X14.  The program name is not read.  The result of [ap_init] is the
    same whatever [argv[0]] is. *)
Theorem program_name_is_ignored : forall p q rest options in_order,
  ap_init (p :: rest) options in_order = ap_init (q :: rest) options in_order.
Proof.
  intros p q rest options in_order.
  destruct rest as [|t rest]; [reflexivity|].
  destruct (ap_init_exit (p :: t :: rest) options in_order)
    as (ap & k & no & Hex & Hin); [simpl; lia|].
  rewrite Hin. symmetry.
  assert (Hnth : forall j, (1 <= j)%nat ->
            nth_error (q :: t :: rest) j = nth_error (p :: t :: rest) j)
    by (intros [|j] Hj; [lia|reflexivity]).
  destruct Hex as [ap k no H Hk|ap k no tok H Htok Ht
                  |ap k no tok ap' k' H Htok Hop Ht Hd He].
  - destruct (reaches_invariant _ _ _ _ _ _ H) as (E & _ & K & _).
    rewrite (ap_init_of_exit (q :: t :: rest) options in_order ap k no).
    + rewrite !ap_finish_success by exact E.
      destruct k as [|k]; [lia|reflexivity].
    + apply exit_end; [now apply (reaches_program_name p)|exact Hk].
  - destruct (reaches_invariant _ _ _ _ _ _ H) as (E & _ & K & _).
    rewrite (ap_init_of_exit (q :: t :: rest) options in_order ap (S k) no).
    + now rewrite !ap_finish_success by exact E.
    + apply (exit_terminator _ options in_order ap k no tok);
        [now apply (reaches_program_name p)| |exact Ht].
      now rewrite Hnth.
  - destruct (reaches_invariant _ _ _ _ _ _ H) as (E & _ & K & _).
    rewrite (ap_init_of_exit (q :: t :: rest) options in_order ap' k' no).
    + unfold ap_finish. destruct (error ap'); [reflexivity|now elim He].
    + apply (exit_error _ options in_order ap k no tok);
        [now apply (reaches_program_name p)| |exact Hop|exact Ht| |exact He].
      * now rewrite Hnth.
      * rewrite Hnth by lia. exact Hd.
Qed.

Lemma filter_filter_operand : forall l,
  filter is_operand (filter is_option_record l) = []
  /\ filter is_option_record (filter is_operand l) = []
  /\ filter is_operand (filter is_operand l) = filter is_operand l
  /\ filter is_option_record (filter is_option_record l)
     = filter is_option_record l.
Proof.
  induction l as [|r l (I1 & I2 & I3 & I4)]; [now repeat split|].
  destruct (is_operand r) eqn:E.
  - assert (E' : is_option_record r = false)
      by (unfold is_option_record; now rewrite E).
    cbn [filter]. rewrite E, E'. cbn [filter]. rewrite E, E'.
    now rewrite I1, I2, I3, I4.
  - assert (E' : is_option_record r = true)
      by (unfold is_option_record; now rewrite E).
    cbn [filter]. rewrite E, E'. cbn [filter]. rewrite E, E'.
    now rewrite I1, I2, I3, I4.
Qed.

Lemma partition_permutation : forall l,
  Permutation (filter is_option_record l ++ filter is_operand l) l.
Proof.
  induction l as [|r l IH]; [constructor|].
  destruct (is_operand r) eqn:E.
  - assert (E' : is_option_record r = false)
      by (unfold is_option_record; now rewrite E).
    cbn [filter]. rewrite E, E'.
    symmetry. apply Permutation_cons_app. now symmetry.
  - assert (E' : is_option_record r = true)
      by (unfold is_option_record; now rewrite E).
    cbn [filter]. rewrite E, E'. simpl. now constructor.
Qed.

(** X16.  The mode changes the order only.  The parses of the same command
    line with operands deferred and with operands in place fail alike, or
    return the same records up to their order: the same number of records,
    the option records in the same order and the operand records in the
    same order. *)
Theorem reorder_changes_order_only : forall argv options apT apF,
  ap_init argv options true = Some apT ->
  ap_init argv options false = Some apF ->
  Permutation (records apF) (records apT)
  /\ ap_arguments apF = ap_arguments apT
  /\ ap_error apF = ap_error apT
  /\ filter is_option_record (records apF)
     = filter is_option_record (records apT)
  /\ filter is_operand (records apF) = filter is_operand (records apT).
Proof.
  intros argv options apT apF HT HF.
  destruct (ap_init_modes argv options apT apF HT HF) as [He Hr].
  destruct (ap_init_terminal argv options true) as (a1 & E1 & WT & _).
  destruct (ap_init_terminal argv options false) as (a2 & E2 & WF & _).
  rewrite HT in E1. rewrite HF in E2.
  injection E1 as <-. injection E2 as <-.
  pose proof (data_size_records apT WT) as ST.
  pose proof (data_size_records apF WF) as SF.
  assert (HP : Permutation (records apF) (records apT))
    by (rewrite Hr; apply partition_permutation).
  assert (Hlen : data_size apF = data_size apT)
    by (rewrite ST, SF; now apply Permutation_length).
  destruct (filter_filter_operand (records apT)) as (F1 & F2 & F3 & F4).
  split; [exact HP|]. split; [unfold ap_arguments; now rewrite Hlen|].
  split; [exact He|]. split.
  - now rewrite Hr, filter_app, F4, F2, app_nil_r.
  - now rewrite Hr, filter_app, F1, F3.
Qed.

(** ** Report columns *)

Lemma with_visible_twice : forall c v w,
  Columns.with_visible (Columns.with_visible c v) w = Columns.with_visible c w.
Proof. reflexivity. Qed.

Lemma set_visible_spec : forall info i v,
  match Columns.set_visible info i v with
  | None => (List.length info <= i)%nat
  | Some info' =>
    (i < List.length info)%nat
    /\ List.length info' = List.length info
    /\ forall j, nth_error info' j
         = if Nat.eqb i j
           then option_map (fun c => Columns.with_visible c v) (nth_error info j)
           else nth_error info j
  end.
Proof.
  induction info as [|c rest IH]; intros i v.
  - simpl. lia.
  - destruct i as [|i]; simpl.
    + split; [lia|]. split; [reflexivity|].
      intros [|j]; reflexivity.
    + specialize (IH i v).
      destruct (Columns.set_visible rest i v) as [rest'|]; simpl.
      * destruct IH as (Hi & Hl & Hn).
        split; [lia|]. split; [now rewrite Hl|].
        intros [|j]; [reflexivity|]. simpl. apply Hn.
      * lia.
Qed.

Section Column_walk.

Variable v : bool.
Variable walk : nat -> list Columns.column_id -> list Columns.column
                -> option (list Columns.column).
Hypothesis walk_eq : forall numargs args column_info,
  walk numargs args column_info
  = match numargs with
    | O => Some column_info
    | S numargs' =>
      match args with
      | [] => None
      | col_id :: args' =>
        match Columns.set_visible column_info (Columns.column_value col_id) v with
        | None => None
        | Some column_info' => walk numargs' args' column_info'
        end
      end
    end.

Lemma walk_marked : forall numargs args info,
  match walk numargs args info with
  | None =>
    ~ ((numargs <= List.length args)%nat
       /\ Forall (fun id => (Columns.column_value id < List.length info)%nat)
                 (firstn numargs args))
  | Some info' =>
    (numargs <= List.length args)%nat
    /\ Forall (fun id => (Columns.column_value id < List.length info)%nat)
              (firstn numargs args)
    /\ List.length info' = List.length info
    /\ forall j, nth_error info' j
         = option_map (Columns.marked v (firstn numargs args) j)
                      (nth_error info j)
  end.
Proof.
  induction numargs as [|n IH]; intros args info; rewrite walk_eq.
  - simpl. split; [lia|]. split; [constructor|]. split; [reflexivity|].
    intros j. unfold Columns.marked. simpl. now destruct (nth_error info j).
  - destruct args as [|id args].
    + simpl. intros [H _]. lia.
    + pose proof (set_visible_spec info (Columns.column_value id) v) as Hs.
      destruct (Columns.set_visible info (Columns.column_value id) v)
        as [info1|].
      * destruct Hs as (Hi & Hl & Hn).
        specialize (IH args info1).
        destruct (walk n args info1) as [info'|].
        -- destruct IH as (Hle & Hall & Hl' & Hn').
           split; [simpl; lia|].
           split; [simpl; constructor; [exact Hi|now rewrite <- Hl]|].
           split; [now rewrite Hl'|].
           intros j. rewrite Hn', Hn. unfold Columns.marked.
           cbn [firstn existsb].
           destruct (Nat.eqb (Columns.column_value id) j);
             destruct (nth_error info j) as [c|]; cbn [option_map orb];
             try reflexivity.
           now destruct (existsb _ (firstn n args)).
        -- intros [Hle Hall]. apply IH. split; [simpl in Hle; lia|].
           simpl in Hall. apply Forall_cons_iff in Hall.
           destruct Hall as [_ Hall]. now rewrite Hl.
      * intros [_ Hall]. simpl in Hall. apply Forall_cons_iff in Hall.
        destruct Hall as [Hlt _]. lia.
Qed.

End Column_walk.

Lemma show_columns_marked : forall numargs args info,
  match Columns.show_columns numargs args info with
  | None =>
    ~ ((numargs <= List.length args)%nat
       /\ Forall (fun id => (Columns.column_value id < List.length info)%nat)
                 (firstn numargs args))
  | Some info' =>
    (numargs <= List.length args)%nat
    /\ Forall (fun id => (Columns.column_value id < List.length info)%nat)
              (firstn numargs args)
    /\ List.length info' = List.length info
    /\ forall j, nth_error info' j
         = option_map (Columns.marked true (firstn numargs args) j)
                      (nth_error info j)
  end.
Proof.
  apply walk_marked. intros [|n] args info; reflexivity.
Qed.

Lemma hide_columns_marked : forall numargs args info,
  match Columns.hide_columns numargs args info with
  | None =>
    ~ ((numargs <= List.length args)%nat
       /\ Forall (fun id => (Columns.column_value id < List.length info)%nat)
                 (firstn numargs args))
  | Some info' =>
    (numargs <= List.length args)%nat
    /\ Forall (fun id => (Columns.column_value id < List.length info)%nat)
              (firstn numargs args)
    /\ List.length info' = List.length info
    /\ forall j, nth_error info' j
         = option_map (Columns.marked false (firstn numargs args) j)
                      (nth_error info j)
  end.
Proof.
  apply walk_marked. intros [|n] args info; reflexivity.
Qed.

Lemma marked_fields : forall v ids j c,
  Columns.type (Columns.marked v ids j c) = Columns.type c
  /\ Columns.header (Columns.marked v ids j c) = Columns.header c
  /\ Columns.oversized (Columns.state (Columns.marked v ids j c))
     = Columns.oversized (Columns.state c)
  /\ Columns.last_width (Columns.state (Columns.marked v ids j c))
     = Columns.last_width (Columns.state c)
  /\ Columns.visible (Columns.state (Columns.marked v ids j c))
     = if existsb (fun id => Nat.eqb (Columns.column_value id) j) ids
       then v else Columns.visible (Columns.state c).
Proof.
  intros v ids j c. unfold Columns.marked.
  destruct (existsb _ ids); simpl; repeat split; reflexivity.
Qed.

Lemma marked_twice : forall v w ids j c,
  Columns.marked w ids j (Columns.marked v ids j c) = Columns.marked w ids j c.
Proof.
  intros v w ids j c. unfold Columns.marked.
  destruct (existsb _ ids); reflexivity.
Qed.

Lemma marked_same_ids : forall v ids ids' j c,
  (forall id, In id ids <-> In id ids') ->
  Columns.marked v ids j c = Columns.marked v ids' j c.
Proof.
  intros v ids ids' j c H. unfold Columns.marked.
  replace (existsb (fun id => Nat.eqb (Columns.column_value id) j) ids')
    with (existsb (fun id => Nat.eqb (Columns.column_value id) j) ids);
    [reflexivity|].
  apply eq_true_iff_eq. rewrite !existsb_exists.
  split; intros (id & Hin & E); exists id; (split; [|exact E]); now apply H.
Qed.

Lemma marked_lists_equal : forall (l l' info : list Columns.column) f g,
  (forall j, nth_error l j = option_map (f j) (nth_error info j)) ->
  (forall j, nth_error l' j = option_map (g j) (nth_error info j)) ->
  (forall j c, f j c = g j c) ->
  l = l'.
Proof.
  intros l l' info f g Hl Hl' Hfg. apply nth_error_ext. intros j.
  rewrite Hl, Hl'. destruct (nth_error info j); simpl; [|reflexivity].
  now rewrite Hfg.
Qed.

(** X17 ([show_columns]): when [numargs] does not exceed the number of
    variable arguments and every column id read lies inside [column_info],
    the call leaves an array of the same length in which a column is
    visible exactly when it was visible before or its index is the value of
    one of the first [numargs] arguments; the type, the header and the
    other two state fields of every column are unchanged. *)
Theorem show_columns_visibility : forall numargs args info,
  (numargs <= List.length args)%nat ->
  Forall (fun id => (Columns.column_value id < List.length info)%nat)
         (firstn numargs args) ->
  exists info',
    Columns.show_columns numargs args info = Some info'
    /\ List.length info' = List.length info
    /\ forall j c, nth_error info j = Some c ->
       exists c',
         nth_error info' j = Some c'
         /\ Columns.type c' = Columns.type c
         /\ Columns.header c' = Columns.header c
         /\ Columns.oversized (Columns.state c')
            = Columns.oversized (Columns.state c)
         /\ Columns.last_width (Columns.state c')
            = Columns.last_width (Columns.state c)
         /\ Columns.visible (Columns.state c')
            = (Columns.visible (Columns.state c)
               || existsb (fun id => Nat.eqb (Columns.column_value id) j)
                          (firstn numargs args))%bool.
Proof.
  intros numargs args info Hle Hall.
  pose proof (show_columns_marked numargs args info) as H.
  destruct (Columns.show_columns numargs args info) as [info'|];
    [|exfalso; apply H; now split].
  destruct H as (_ & _ & Hl & Hn).
  exists info'. split; [reflexivity|]. split; [exact Hl|].
  intros j c Hc. exists (Columns.marked true (firstn numargs args) j c).
  rewrite Hn, Hc. split; [reflexivity|].
  destruct (marked_fields true (firstn numargs args) j c)
    as (F1 & F2 & F3 & F4 & F5).
  repeat (split; [assumption|]).
  rewrite F5. destruct (existsb _ (firstn numargs args));
    now destruct (Columns.visible (Columns.state c)).
Qed.

(** X18 ([hide_columns]): under the same conditions the call leaves an
    array of the same length in which a column is visible exactly when it
    was visible before and its index is the value of none of the first
    [numargs] arguments; nothing else changes. *)
Theorem hide_columns_visibility : forall numargs args info,
  (numargs <= List.length args)%nat ->
  Forall (fun id => (Columns.column_value id < List.length info)%nat)
         (firstn numargs args) ->
  exists info',
    Columns.hide_columns numargs args info = Some info'
    /\ List.length info' = List.length info
    /\ forall j c, nth_error info j = Some c ->
       exists c',
         nth_error info' j = Some c'
         /\ Columns.type c' = Columns.type c
         /\ Columns.header c' = Columns.header c
         /\ Columns.oversized (Columns.state c')
            = Columns.oversized (Columns.state c)
         /\ Columns.last_width (Columns.state c')
            = Columns.last_width (Columns.state c)
         /\ Columns.visible (Columns.state c')
            = (Columns.visible (Columns.state c)
               && negb (existsb
                          (fun id => Nat.eqb (Columns.column_value id) j)
                          (firstn numargs args)))%bool.
Proof.
  intros numargs args info Hle Hall.
  pose proof (hide_columns_marked numargs args info) as H.
  destruct (Columns.hide_columns numargs args info) as [info'|];
    [|exfalso; apply H; now split].
  destruct H as (_ & _ & Hl & Hn).
  exists info'. split; [reflexivity|]. split; [exact Hl|].
  intros j c Hc. exists (Columns.marked false (firstn numargs args) j c).
  rewrite Hn, Hc. split; [reflexivity|].
  destruct (marked_fields false (firstn numargs args) j c)
    as (F1 & F2 & F3 & F4 & F5).
  repeat (split; [assumption|]).
  rewrite F5. destruct (existsb _ (firstn numargs args));
    now destruct (Columns.visible (Columns.state c)).
Qed.

(** X19 ([show_columns], [hide_columns]): of two calls with the same
    arguments the later one decides: hiding the columns just shown gives
    what hiding alone gives, showing the columns just hidden gives what
    showing alone gives, and repeating a call changes nothing. *)
Theorem last_column_call_wins : forall numargs args info shown hidden,
  Columns.show_columns numargs args info = Some shown ->
  Columns.hide_columns numargs args info = Some hidden ->
  Columns.hide_columns numargs args shown = Some hidden
  /\ Columns.show_columns numargs args hidden = Some shown
  /\ Columns.show_columns numargs args shown = Some shown
  /\ Columns.hide_columns numargs args hidden = Some hidden.
Proof.
  intros numargs args info shown hidden Hs Hh.
  pose proof (show_columns_marked numargs args info) as S0.
  pose proof (hide_columns_marked numargs args info) as H0.
  rewrite Hs in S0. rewrite Hh in H0.
  destruct S0 as (Hle & Hall & SL & SN).
  destruct H0 as (_ & _ & HL & HN).
  assert (AS : Forall (fun id => (Columns.column_value id
                                  < List.length shown)%nat)
                      (firstn numargs args)) by now rewrite SL.
  assert (AH : Forall (fun id => (Columns.column_value id
                                  < List.length hidden)%nat)
                      (firstn numargs args)) by now rewrite HL.
  assert (compose : forall v (l : list Columns.column) w l' j,
    (forall j, nth_error l j
       = option_map (Columns.marked v (firstn numargs args) j)
                    (nth_error info j)) ->
    (forall j, nth_error l' j
       = option_map (Columns.marked w (firstn numargs args) j)
                    (nth_error l j)) ->
    nth_error l' j
    = option_map (Columns.marked w (firstn numargs args) j)
                 (nth_error info j)).
  { intros v l w l' j A B. rewrite B, A.
    destruct (nth_error info j); simpl; [|reflexivity].
    now rewrite marked_twice. }
  refine (conj _ (conj _ (conj _ _))).
  - pose proof (hide_columns_marked numargs args shown) as H.
    destruct (Columns.hide_columns numargs args shown) as [l|];
      [|exfalso; apply H; now split].
    destruct H as (_ & _ & _ & N). f_equal.
    apply (marked_lists_equal l hidden info
             (Columns.marked false (firstn numargs args))
             (Columns.marked false (firstn numargs args)));
      [|exact HN|reflexivity].
    intros j. now apply (compose true shown).
  - pose proof (show_columns_marked numargs args hidden) as H.
    destruct (Columns.show_columns numargs args hidden) as [l|];
      [|exfalso; apply H; now split].
    destruct H as (_ & _ & _ & N). f_equal.
    apply (marked_lists_equal l shown info
             (Columns.marked true (firstn numargs args))
             (Columns.marked true (firstn numargs args)));
      [|exact SN|reflexivity].
    intros j. now apply (compose false hidden).
  - pose proof (show_columns_marked numargs args shown) as H.
    destruct (Columns.show_columns numargs args shown) as [l|];
      [|exfalso; apply H; now split].
    destruct H as (_ & _ & _ & N). f_equal.
    apply (marked_lists_equal l shown info
             (Columns.marked true (firstn numargs args))
             (Columns.marked true (firstn numargs args)));
      [|exact SN|reflexivity].
    intros j. now apply (compose true shown).
  - pose proof (hide_columns_marked numargs args hidden) as H.
    destruct (Columns.hide_columns numargs args hidden) as [l|];
      [|exfalso; apply H; now split].
    destruct H as (_ & _ & _ & N). f_equal.
    apply (marked_lists_equal l hidden info
             (Columns.marked false (firstn numargs args))
             (Columns.marked false (firstn numargs args)));
      [|exact HN|reflexivity].
    intros j. now apply (compose false hidden).
Qed.

(** X20 ([show_columns], [hide_columns]): the result of a call that reads
    all of its arguments depends only on which column ids are among them,
    not on their order or on repetitions. *)
Theorem column_order_is_irrelevant : forall args args' info,
  (forall id, In id args <-> In id args') ->
  Columns.show_columns (List.length args) args info
  = Columns.show_columns (List.length args') args' info
  /\ Columns.hide_columns (List.length args) args info
     = Columns.hide_columns (List.length args') args' info.
Proof.
  intros args args' info Hsame.
  assert (bounds : forall a b : list Columns.column_id,
    (forall id, In id a <-> In id b) ->
    Forall (fun id => (Columns.column_value id < List.length info)%nat) a ->
    Forall (fun id => (Columns.column_value id < List.length info)%nat) b).
  { intros a b Hab Ha. rewrite Forall_forall in *. intros id Hin.
    apply Ha. now apply Hab. }
  assert (Hsame' : forall id, In id args' <-> In id args)
    by (intros id; symmetry; apply Hsame).
  split.
  - pose proof (show_columns_marked (List.length args) args info) as A.
    pose proof (show_columns_marked (List.length args') args' info) as B.
    rewrite firstn_all in A, B.
    destruct (Columns.show_columns (List.length args) args info) as [l|];
      destruct (Columns.show_columns (List.length args') args' info)
        as [l'|].
    + destruct A as (_ & _ & _ & NA). destruct B as (_ & _ & _ & NB).
      f_equal. apply (marked_lists_equal l l' info _ _ NA NB).
      intros j c. now apply marked_same_ids.
    + exfalso. apply B. destruct A as (_ & Hall & _).
      split; [lia|]. now apply (bounds args args').
    + exfalso. apply A. destruct B as (_ & Hall & _).
      split; [lia|]. now apply (bounds args' args).
    + reflexivity.
  - pose proof (hide_columns_marked (List.length args) args info) as A.
    pose proof (hide_columns_marked (List.length args') args' info) as B.
    rewrite firstn_all in A, B.
    destruct (Columns.hide_columns (List.length args) args info) as [l|];
      destruct (Columns.hide_columns (List.length args') args' info)
        as [l'|].
    + destruct A as (_ & _ & _ & NA). destruct B as (_ & _ & _ & NB).
      f_equal. apply (marked_lists_equal l l' info _ _ NA NB).
      intros j c. now apply marked_same_ids.
    + exfalso. apply B. destruct A as (_ & Hall & _).
      split; [lia|]. now apply (bounds args args').
    + exfalso. apply A. destruct B as (_ & Hall & _).
      split; [lia|]. now apply (bounds args' args).
    + reflexivity.
Qed.

(** ** Examples for the further properties *)

Section Further_examples.

Local Open Scope string_scope.

Lemma long_resolution_sound_witness :
  parse_long_option ap_empty "--verb" None verbose_table 1
  = (store ap_empty (long_record (flag "v" (Some "verbose")) ""), 2%nat)
  /\ exists o n a,
       In o (table_entries verbose_table) /\ name o = Some n
       /\ prefix "verb" n = true
       /\ arg_fits o a
       /\ store ap_empty (long_record (flag "v" (Some "verbose")) "")
          = store ap_empty (long_record o a).
Proof.
  split; [reflexivity|].
  destruct (long_resolution_sound ap_empty "--verb" None verbose_table 1
              (store ap_empty (long_record (flag "v" (Some "verbose")) ""))
              2 eq_refl eq_refl eq_refl)
    as (o & n & a & H1 & H2 & H3 & H4 & H5 & _).
  exists o, n, a.
  refine (conj H1 (conj H2 (conj (H3 _) (conj H4 H5)))).
  simpl. repeat split; discriminate.
Defined.

Lemma parse_records_resolved_witness :
  ap_init ["flowgrind"; "-v"; "file"] verbose_table false = Some verbose_file
  /\ Forall (parsed_record ["flowgrind"; "-v"; "file"] verbose_table)
            (records verbose_file).
Proof.
  split; [reflexivity|].
  apply (parse_records_resolved ["flowgrind"; "-v"; "file"] verbose_table
           false verbose_file eq_refl).
Defined.

Lemma unrecognized_long_option_witness :
  ap_init ["flowgrind"; "--bogus"] verbose_table false
  = Some (add_error ap_empty "unrecognized option '--bogus'").
Proof.
  assert (H1 : c_string (name_slice "--bogus"))
    by (simpl; repeat split; discriminate).
  assert (H2 : forall o n, In o (table_entries verbose_table) ->
                 name o = Some n -> prefix (name_slice "--bogus") n = false).
  { intros o n [E|[E|[]]] Hn; subst o; injection Hn as <-; reflexivity. }
  apply (proj2 (unrecognized_long_option verbose_table "--bogus" H1 H2)
               ["flowgrind"; "--bogus"] false ap_empty 1%nat []).
  - apply reaches_start. simpl. lia.
  - reflexivity.
  - reflexivity.
  - reflexivity.
  - discriminate.
Defined.

Lemma unexpected_argument_witness :
  ap_init ["flowgrind"; "--verbose=3"] verbose_table false
  = Some (add_error ap_empty "option '--verbose' doesn't allow an argument").
Proof.
  pose proof (unexpected_argument verbose_table []
                [flag "V" (Some "version")] (flag "v" (Some "verbose"))
                "verbose" eq_refl) as H.
  cbv zeta in H.
  apply (proj2 (H (Forall_nil _) ltac:(discriminate) eq_refl
                  ltac:(simpl; intuition discriminate) "3" eq_refl
                  ltac:(discriminate))
               ["flowgrind"; "--verbose=3"] false ap_empty 1%nat []).
  - apply reaches_start. simpl. lia.
  - reflexivity.
Defined.

Lemma long_option_attached_value_witness :
  ap_init ["flowgrind"; "--foo=x=y"] abc_table false
  = Some (store ap_empty (long_record (valued "c" (Some "foo")) "x=y")).
Proof.
  pose proof (long_option_attached_value abc_table
                [flag "a" None; flag "b" None]
                [] (valued "c" (Some "foo")) "foo" eq_refl) as H.
  cbv zeta in H.
  apply (proj2 (H ltac:(repeat constructor; discriminate)
                  ltac:(discriminate) eq_refl
                  ltac:(simpl; intuition discriminate) "x=y"
                  ltac:(discriminate) ltac:(discriminate)
                  ltac:(discriminate))
               "flowgrind" false).
Defined.

Lemma long_option_separate_value_witness :
  ap_init ["flowgrind"; "--foo"; "--"] abc_table false
  = Some (store ap_empty (long_record (valued "c" (Some "foo")) "--")).
Proof.
  pose proof (long_option_separate_value abc_table
                [flag "a" None; flag "b" None]
                [] (valued "c" (Some "foo")) "foo" eq_refl) as H.
  cbv zeta in H.
  apply (proj2 (H ltac:(repeat constructor; discriminate)
                  ltac:(discriminate) eq_refl
                  ltac:(simpl; intuition discriminate) "--"
                  eq_refl ltac:(discriminate) ltac:(discriminate))
               "flowgrind" false).
Defined.

Lemma long_option_without_value_witness :
  ap_init ["flowgrind"; "--verbose"] verbose_table false
  = Some (store ap_empty (long_record (flag "v" (Some "verbose")) "")).
Proof.
  pose proof (long_option_without_value verbose_table []
                [flag "V" (Some "version")] (flag "v" (Some "verbose"))
                "verbose" eq_refl) as H.
  cbv zeta in H.
  apply (proj2 (H (Forall_nil _) ltac:(discriminate) eq_refl
                  ltac:(simpl; intuition discriminate) None
                  ltac:(discriminate) ltac:(discriminate))
               "flowgrind" false).
Defined.

Lemma invalid_short_option_witness :
  parse_short_option ap_empty "-axb" None abc_table 1
  = (add_error (store ap_empty (short_record (flag "a" None) ""))
       "invalid option -- x", 1%nat).
Proof.
  assert (Ha : short_entry abc_table "a" (flag "a" None)).
  { repeat split; try discriminate.
    exists [], [flag "b" None; valued "c" (Some "foo")].
    split; [reflexivity|constructor]. }
  pose proof (invalid_short_option abc_table
                [("a"%char, flag "a" None)] "x" "b") as H.
  cbv zeta in H.
  destruct H as [H _].
  - constructor; [split; [exact Ha|reflexivity]|constructor].
  - discriminate.
  - intros o [E|[E|[E|[]]]]; subst o; discriminate.
  - apply (H ap_empty None 1%nat).
Defined.

Lemma short_option_separate_value_witness :
  ap_init ["flowgrind"; "-abc"; "val"] abc_table false
  = Some (store_all ap_empty
            [short_record (flag "a" None) "";
             short_record (flag "b" None) "";
             short_record (valued "c" (Some "foo")) "val"]).
Proof.
  assert (Ha : short_entry abc_table "a" (flag "a" None)).
  { repeat split; try discriminate.
    exists [], [flag "b" None; valued "c" (Some "foo")].
    split; [reflexivity|constructor]. }
  assert (Hb : short_entry abc_table "b" (flag "b" None)).
  { repeat split; try discriminate.
    exists [flag "a" None], [valued "c" (Some "foo")].
    split; [reflexivity|repeat constructor; discriminate]. }
  assert (Hc : short_entry abc_table "c" (valued "c" (Some "foo"))).
  { repeat split; try discriminate.
    exists [flag "a" None; flag "b" None], [].
    split; [reflexivity|repeat constructor; discriminate]. }
  pose proof (short_option_separate_value abc_table
                [("a"%char, flag "a" None); ("b"%char, flag "b" None)]
                "c" (valued "c" (Some "foo")) "val") as H.
  cbv zeta in H.
  destruct H as [_ H].
  - constructor; [split; [exact Ha|reflexivity]|].
    constructor; [split; [exact Hb|reflexivity]|constructor].
  - exact Hc.
  - reflexivity.
  - discriminate.
  - apply (H "flowgrind" false). discriminate.
Defined.

Lemma operands_only_witness :
  ap_init ["flowgrind"; "file"; "-"; ""] verbose_table false
  = Some (store_all ap_empty
            [operand_record "file"; operand_record "-"; operand_record ""]).
Proof.
  apply (operands_only "flowgrind" ["file"; "-"; ""] verbose_table false).
  repeat constructor.
Defined.

Lemma code_defined_at_option_records_witness :
  (exists o,
     ap_option verbose_file 1 = Some (Some (table_entry o))
     /\ In o (table_entries verbose_table)
     /\ ap_code verbose_file 1 = Some (code o) /\ code o <> 0)
  \/
  (exists tok,
     In tok ["-v"; "file"]
     /\ ap_option verbose_file 1 = Some (Some non_option_address)
     /\ ap_argument verbose_file 1 = Some tok
     /\ ap_opt_string verbose_file 1 = Some "-"
     /\ ap_code verbose_file 1 = None).
Proof.
  apply (code_defined_at_option_records ["flowgrind"; "-v"; "file"]
           verbose_table false verbose_file 1 eq_refl).
  change (0 <= 1 < 2). lia.
Defined.

Lemma pushed_record_is_read_back_witness :
  ap_arguments (push_back_record verbose_file
                  (table_entry (valued "c" (Some "foo"))) true "val") = 3
  /\ ap_opt_string (push_back_record verbose_file
                      (table_entry (valued "c" (Some "foo"))) true "val") 2
     = Some "--foo"
  /\ ap_argument (push_back_record verbose_file
                    (table_entry (valued "c" (Some "foo"))) true "val") 2
     = Some "val"
  /\ ap_code (push_back_record verbose_file
                (table_entry (valued "c" (Some "foo"))) true "val") 2
     = Some (char_code "c").
Proof.
  pose proof (pushed_record_is_read_back verbose_file
                (table_entry (valued "c" (Some "foo"))) true "val") as H.
  cbv zeta in H.
  destruct H as (_ & H1 & H0 & H2 & H3 & _).
  - split; [split; [reflexivity|discriminate]|reflexivity].
  - exact (conj H1 (conj H3 (conj H2 H0))).
Defined.

Lemma release_frees_everything_witness :
  List.length (fst (ap_free verbose_file)) = 5%nat
  /\ In Data_array (fst (ap_free verbose_file)).
Proof.
  assert (I : instance verbose_file).
  { apply (instance_init ["flowgrind"; "-v"; "file"] verbose_table false).
    reflexivity. }
  destruct (release_frees_everything verbose_file I)
    as (_ & H1 & _ & H2 & _).
  split; [exact H2|]. apply H1. discriminate.
Defined.

Lemma error_messages_accumulate_witness :
  ap_error (fold_left add_error ["option '"; "--ver"; "' is ambiguous"]
              verbose_file)
  = Some "option '--ver' is ambiguous"
  /\ records (fold_left add_error ["option '"; "--ver"; "' is ambiguous"]
                verbose_file)
     = records verbose_file.
Proof.
  pose proof (error_messages_accumulate
                ["option '"; "--ver"; "' is ambiguous"] verbose_file) as H.
  cbv zeta in H.
  destruct H as (H1 & _ & _ & H2 & _).
  - split; [split; [reflexivity|discriminate]|reflexivity].
  - discriminate.
  - split; [exact H1|exact H2].
Defined.

Lemma reorder_changes_order_only_witness :
  Permutation
    (records (store_all ap_empty
                [short_record (flag "v" (Some "verbose")) "";
                 operand_record "file"]))
    (records (store_all ap_empty
                [operand_record "file";
                 short_record (flag "v" (Some "verbose")) ""])).
Proof.
  apply (reorder_changes_order_only ["flowgrind"; "file"; "-v"]
           verbose_table
           (store_all ap_empty
              [operand_record "file";
               short_record (flag "v" (Some "verbose")) ""])
           (store_all ap_empty
              [short_record (flag "v" (Some "verbose")) "";
               operand_record "file"])
           eq_refl eq_refl).
Defined.

Lemma show_columns_visibility_witness :
  exists info',
    Columns.show_columns 2
      [Columns.COL_BEGIN; Columns.COL_THROUGH; Columns.COL_END]
      first_columns = Some info'
    /\ List.length info' = 4%nat
    /\ option_map (fun c => Columns.visible (Columns.state c))
                  (nth_error info' 1) = Some true
    /\ option_map (fun c => Columns.visible (Columns.state c))
                  (nth_error info' 2) = Some false.
Proof.
  destruct (show_columns_visibility 2
              [Columns.COL_BEGIN; Columns.COL_THROUGH; Columns.COL_END]
              first_columns)
    as (info' & H1 & H2 & H3).
  - simpl. lia.
  - simpl. repeat constructor.
  - exists info'. split; [exact H1|]. split; [exact H2|].
    destruct (H3 1%nat _ eq_refl) as (c1 & E1 & _ & _ & _ & _ & V1).
    destruct (H3 2%nat _ eq_refl) as (c2 & E2 & _ & _ & _ & _ & V2).
    rewrite E1, E2. simpl. now rewrite V1, V2.
Defined.

Lemma hide_columns_visibility_witness :
  exists info',
    Columns.hide_columns 2
      [Columns.COL_FLOW_ID; Columns.COL_BEGIN; Columns.COL_THROUGH]
      first_columns = Some info'
    /\ List.length info' = 4%nat
    /\ option_map (fun c => Columns.visible (Columns.state c))
                  (nth_error info' 0) = Some false
    /\ option_map (fun c => Columns.visible (Columns.state c))
                  (nth_error info' 3) = Some true.
Proof.
  destruct (hide_columns_visibility 2
              [Columns.COL_FLOW_ID; Columns.COL_BEGIN; Columns.COL_THROUGH]
              first_columns)
    as (info' & H1 & H2 & H3).
  - simpl. lia.
  - simpl. repeat constructor.
  - exists info'. split; [exact H1|]. split; [exact H2|].
    destruct (H3 0%nat _ eq_refl) as (c1 & E1 & _ & _ & _ & _ & V1).
    destruct (H3 3%nat _ eq_refl) as (c2 & E2 & _ & _ & _ & _ & V2).
    rewrite E1, E2. simpl. now rewrite V1, V2.
Defined.

Lemma last_column_call_wins_witness :
  match Columns.show_columns 2 [Columns.COL_BEGIN; Columns.COL_END]
          first_columns with
  | Some shown =>
    Columns.hide_columns 2 [Columns.COL_BEGIN; Columns.COL_END] shown
    = Some first_columns
  | None => False
  end.
Proof.
  destruct (Columns.show_columns 2 [Columns.COL_BEGIN; Columns.COL_END]
              first_columns) as [shown|] eqn:Hs; [|discriminate Hs].
  apply (last_column_call_wins 2 [Columns.COL_BEGIN; Columns.COL_END]
           first_columns shown first_columns Hs eq_refl).
Defined.

Lemma column_order_is_irrelevant_witness :
  Columns.show_columns 2 [Columns.COL_BEGIN; Columns.COL_END] first_columns
  = Columns.show_columns 3
      [Columns.COL_END; Columns.COL_BEGIN; Columns.COL_END] first_columns.
Proof.
  apply (column_order_is_irrelevant
           [Columns.COL_BEGIN; Columns.COL_END]
           [Columns.COL_END; Columns.COL_BEGIN; Columns.COL_END]
           first_columns).
  intros id. simpl. tauto.
Defined.

Lemma short_option_without_value_witness :
  ap_init ["flowgrind"; "-ab"] abc_table false
  = Some (store_all ap_empty
            [short_record (flag "a" None) "";
             short_record (flag "b" None) ""]).
Proof.
  assert (Ha : short_entry abc_table "a" (flag "a" None)).
  { repeat split; try discriminate.
    exists [], [flag "b" None; valued "c" (Some "foo")].
    split; [reflexivity|constructor]. }
  assert (Hb : short_entry abc_table "b" (flag "b" None)).
  { repeat split; try discriminate.
    exists [flag "a" None], [valued "c" (Some "foo")].
    split; [reflexivity|repeat constructor; discriminate]. }
  pose proof (short_option_without_value abc_table
                [("a"%char, flag "a" None)] "b" (flag "b" None) None) as H.
  cbv zeta in H.
  destruct H as [_ H].
  - constructor; [split; [exact Ha|reflexivity]|constructor].
  - exact Hb.
  - discriminate.
  - apply (H "flowgrind" false). discriminate.
Defined.

End Further_examples.
